(** * TieLineManager: the virtual router projection and the tie-line engine

    A shallow embedding of [src/virtual-router.js] (class [VirtualRouter])
    and of the tie-line engine (class [TieLineEngine]).

    Conventions of the embedding.
    - The ports of the configuration and of the routing tables, levels and
      array positions are [nat].  A virtual index handed to [resolveInput],
      [resolveOutput] or [executeVirtualRoute] is a [Z], because the
      JavaScript comparison [virtualIndex < aInputs.length] also accepts
      negative numbers; reading an array outside its bounds gives
      [undefined], which is [None] here.
    - The engine does not look at the [physicalIndex] it is given: it
      compares it, stores it and hands it to the controllers as it is.  A
      port value inside the engine is therefore a [Port]: [Some n] for the
      number [n], [None] for [undefined].
    - A JavaScript object used as a map from port to port ([routing]) is a
      [gmap nat nat]; [Object.entries] lists integer keys in ascending
      order.
    - [sourceInput] is an [option Port]: [None] is [null], [Some None] is
      [undefined], [Some (Some n)] is the number [n].
    - A record found by [Array.prototype.find] is mutated in place in the
      source; here [list_find] gives its position and the pool is updated
      at that position.
    - The router controllers are the environment of the engine: whether
      they are connected, the routing table they mirror, and whether they
      acknowledge a [setRoute].  The commands the engine issues are
      collected in a log.
    - [emit('state-changed')] has no influence on the state and is left
      out. *)

From Stdlib Require Import ZArith Lia.
From stdpp Require Import base decidable option list gmap sorting.

Local Open Scope nat_scope.

(** ** Data model *)

Inductive Router : Type := A | B.

#[global] Instance Router_eq_dec : EqDecision Router.
Proof. solve_decision. Defined.

(** One configured cable.  For an entry of [aToB] the two fields are the
    source's [routerAOutput] and [routerBInput]; for an entry of [bToA]
    they are [routerBOutput] and [routerAInput]. *)
Record TieLineMapping : Type := mkMapping {
  cableOutput : nat;
  cableInput : nat
}.

Record TieLineConfig : Type := mkConfig {
  cfg_aToB : list TieLineMapping;
  cfg_bToA : list TieLineMapping
}.

(** The mirror of one router, as far as the projection and the engine read
    it ([inputLabels], [outputLabels] and [outputLocks] are never read by
    the functions embedded here). *)
Record RouterState : Type := mkRouterState {
  inputs : nat;
  outputs : nat;
  routing : gmap nat nat
}.

(** ** virtual-router.js *)

Module VirtualRouter.

Record t : Type := mk {
  routerA : RouterState;
  routerB : RouterState;
  tieLineConfig : TieLineConfig
}.

(** [_buildExclusionSets] *)
Definition excludedAOutputs (vr : t) : gset nat :=
  list_to_set (cableOutput <$> cfg_aToB (tieLineConfig vr)).
Definition excludedBOutputs (vr : t) : gset nat :=
  list_to_set (cableOutput <$> cfg_bToA (tieLineConfig vr)).
Definition excludedAInputs (vr : t) : gset nat :=
  list_to_set (cableInput <$> cfg_bToA (tieLineConfig vr)).
Definition excludedBInputs (vr : t) : gset nat :=
  list_to_set (cableInput <$> cfg_aToB (tieLineConfig vr)).

(** The loop [for (i = 0; i < count; i++) if (!excluded.has(i)) push(i)]. *)
Definition visiblePorts (count : nat) (excluded : gset nat) : list nat :=
  filter (λ i, i ∉ excluded) (seq 0 count).

Definition visibleAInputs (vr : t) : list nat :=
  visiblePorts (inputs (routerA vr)) (excludedAInputs vr).
Definition visibleBInputs (vr : t) : list nat :=
  visiblePorts (inputs (routerB vr)) (excludedBInputs vr).
Definition visibleAOutputs (vr : t) : list nat :=
  visiblePorts (outputs (routerA vr)) (excludedAOutputs vr).
Definition visibleBOutputs (vr : t) : list nat :=
  visiblePorts (outputs (routerB vr)) (excludedBOutputs vr).

Definition totalInputs (vr : t) : nat :=
  length (visibleAInputs vr) + length (visibleBInputs vr).
Definition totalOutputs (vr : t) : nat :=
  length (visibleAOutputs vr) + length (visibleBOutputs vr).

(** [{ router, physicalIndex }]; [physicalIndex] is [None] when the array
    read gave [undefined]. *)
Record Resolved : Type := mkResolved {
  router : Router;
  physicalIndex : option nat
}.

(** [arr[v]] for an integer [v]. *)
Definition at_index (arr : list nat) (v : Z) : option nat :=
  if decide (0 ≤ v)%Z then arr !! Z.to_nat v else None.

(** [arr.indexOf(x)]: first position, or -1. *)
Definition indexOf (arr : list nat) (x : nat) : Z :=
  match list_find (λ y, y = x) arr with
  | Some (i, _) => Z.of_nat i
  | None => (-1)%Z
  end.

Definition resolveInput (vr : t) (virtualIndex : Z) : option Resolved :=
  let aInputs := visibleAInputs vr in
  if decide (virtualIndex < Z.of_nat (length aInputs))%Z then
    Some (mkResolved A (at_index aInputs virtualIndex))
  else
    let bIdx := (virtualIndex - Z.of_nat (length aInputs))%Z in
    let bInputs := visibleBInputs vr in
    if decide (bIdx < Z.of_nat (length bInputs))%Z then
      Some (mkResolved B (at_index bInputs bIdx))
    else None.

Definition resolveOutput (vr : t) (virtualIndex : Z) : option Resolved :=
  let aOutputs := visibleAOutputs vr in
  if decide (virtualIndex < Z.of_nat (length aOutputs))%Z then
    Some (mkResolved A (at_index aOutputs virtualIndex))
  else
    let bIdx := (virtualIndex - Z.of_nat (length aOutputs))%Z in
    let bOutputs := visibleBOutputs vr in
    if decide (bIdx < Z.of_nat (length bOutputs))%Z then
      Some (mkResolved B (at_index bOutputs bIdx))
    else None.

Definition physicalInputToVirtual (vr : t) (r : Router) (physical : nat) : Z :=
  match r with
  | A =>
      let idx := indexOf (visibleAInputs vr) physical in
      if decide (0 ≤ idx)%Z then idx else (-1)%Z
  | B =>
      let idx := indexOf (visibleBInputs vr) physical in
      if decide (0 ≤ idx)%Z
      then (Z.of_nat (length (visibleAInputs vr)) + idx)%Z else (-1)%Z
  end.

Definition physicalOutputToVirtual (vr : t) (r : Router) (physical : nat) : Z :=
  match r with
  | A =>
      let idx := indexOf (visibleAOutputs vr) physical in
      if decide (0 ≤ idx)%Z then idx else (-1)%Z
  | B =>
      let idx := indexOf (visibleBOutputs vr) physical in
      if decide (0 ≤ idx)%Z
      then (Z.of_nat (length (visibleAOutputs vr)) + idx)%Z else (-1)%Z
  end.

(** What "visible" means for a physical port of router [r]: in range and
    not a tie-line port. *)
Definition isVisibleInput (vr : t) (r : Router) (p : nat) : Prop :=
  match r with
  | A => p < inputs (routerA vr) ∧ p ∉ excludedAInputs vr
  | B => p < inputs (routerB vr) ∧ p ∉ excludedBInputs vr
  end.

Definition isVisibleOutput (vr : t) (r : Router) (p : nat) : Prop :=
  match r with
  | A => p < outputs (routerA vr) ∧ p ∉ excludedAOutputs vr
  | B => p < outputs (routerB vr) ∧ p ∉ excludedBOutputs vr
  end.

End VirtualRouter.

(** ** The tie-line engine *)

Inductive Status : Type := free | in_use.

(** A port value as the engine receives and stores it: a number, or
    [undefined] ([None]). *)
Abbreviation Port := (option nat) (only parsing).

#[global] Instance Status_eq_dec : EqDecision Status.
Proof. solve_decision. Defined.

(** A runtime record.  [tlOutput] and [tlInput] are the record's
    [routerAOutput] and [routerBInput] in the pool [aToB], and its
    [routerBOutput] and [routerAInput] in the pool [bToA]. *)
Record TieLine : Type := mkTieLine {
  index : nat;
  tlOutput : nat;
  tlInput : nat;
  status : Status;
  sourceInput : option Port;
  destinations : list Port
}.

Abbreviation routerAOutput := tlOutput (only parsing).
Abbreviation routerBInput := tlInput (only parsing).
Abbreviation routerBOutput := tlOutput (only parsing).
Abbreviation routerAInput := tlInput (only parsing).

Record TieLineState : Type := mkState {
  aToB : list TieLine;
  bToA : list TieLine
}.

Record Engine : Type := mkEngine {
  config : TieLineConfig;
  state : TieLineState
}.

(** The string keys ['aToB'] and ['bToA'] of [this.state[direction]]. *)
Inductive Direction : Type := dirAToB | dirBToA.

#[global] Instance Direction_eq_dec : EqDecision Direction.
Proof. solve_decision. Defined.

Definition pool (direction : Direction) (st : TieLineState) : list TieLine :=
  match direction with dirAToB => aToB st | dirBToA => bToA st end.

Definition setPool (direction : Direction) (p : list TieLine)
    (st : TieLineState) : TieLineState :=
  match direction with
  | dirAToB => mkState p (bToA st)
  | dirBToA => mkState (aToB st) p
  end.

(** *** The environment: the two controllers *)

Inductive Command : Type :=
  SetRoute (r : Router) (output input : Port) (level : nat).

(** [isConnected] is false as well when the controller is [null] (every
    use in the engine is [controller?.isConnected()]).  [acks output input
    level] tells whether [await setRoute(output, input, level)] returns
    (true) or throws (false). *)
Record Controller : Type := mkController {
  isConnected : bool;
  getState : RouterState;
  acks : Port → Port → nat → bool
}.

Record Controllers : Type := mkControllers {
  controllerA : Controller;
  controllerB : Controller
}.

Definition controllerOf (env : Controllers) (r : Router) : Controller :=
  match r with A => controllerA env | B => controllerB env end.

(** *** Results *)

Inductive Error : Type :=
  | InvalidVirtualIndex
  | UnknownRoutingScenario
  | RouterNotConnected (r : Router)
  | RouteFailed (r : Router)
  (** [All X→Y tie-lines are in use (total/total)] *)
  | AllTieLinesInUse (direction : Direction) (total : nat).

Inductive Result : Type :=
  | Failure (error : Error) (partialFailure : bool)
  | SuccessDirect
  | SuccessTieLine (tieLineIndex : nat) (reused : bool).

(** What one call leaves behind: the tie-line state, the [setRoute]
    commands issued (in order), and the returned object. *)
Record Outcome : Type := mkOutcome {
  stateAfter : TieLineState;
  issued : list Command;
  result : Result
}.

(** *** Operations *)

Definition freshTieLine (idx : nat) (tl : TieLineMapping) : TieLine :=
  mkTieLine idx (cableOutput tl) (cableInput tl) free None [].

Definition initializeState (cfg : TieLineConfig) : TieLineState :=
  mkState (imap freshTieLine (cfg_aToB cfg)) (imap freshTieLine (cfg_bToA cfg)).

Definition setDestinations (tl : TieLine) (ds : list Port) : TieLine :=
  mkTieLine (index tl) (tlOutput tl) (tlInput tl) (status tl) (sourceInput tl) ds.

Definition markFree (tl : TieLine) (ds : list Port) : TieLine :=
  mkTieLine (index tl) (tlOutput tl) (tlInput tl) free None ds.

Definition markInUse (tl : TieLine) (src : Port) (ds : list Port) : TieLine :=
  mkTieLine (index tl) (tlOutput tl) (tlInput tl) in_use (Some src) ds.

Definition _releaseTieLineDestination (direction : Direction)
    (tieLineIndex : nat) (removedDest : Port) (st : TieLineState) : TieLineState :=
  match pool direction st !! tieLineIndex with
  | None => st
  | Some tieLine =>
      if decide (status tieLine ≠ in_use) then st
      else
        let ds := filter (λ d, d ≠ removedDest) (destinations tieLine) in
        let tieLine' :=
          if decide (length ds = 0) then markFree tieLine ds
          else setDestinations tieLine ds in
        setPool direction (<[tieLineIndex := tieLine']> (pool direction st)) st
  end.

(** The predicate of the two [find] calls that look for the record
    carrying an output. *)
Definition carries (destOutput : Port) (tl : TieLine) : Prop :=
  status tl = in_use ∧ destOutput ∈ destinations tl.

#[global] Instance carries_dec d tl : Decision (carries d tl).
Proof. unfold carries. apply _. Defined.

Definition _handleOutputReassignment (direction : Direction)
    (destOutput : Port) (st : TieLineState) : TieLineState :=
  match list_find (carries destOutput) (pool direction st) with
  | Some (_, oldTieLine) =>
      _releaseTieLineDestination direction (index oldTieLine) destOutput st
  | None => st
  end.

Definition _cleanupOutputTieLine (sourceRouter destRouter : Router)
    (destPhysicalOutput : Port) (st : TieLineState) : TieLineState :=
  match destRouter with
  | A =>
      match list_find (carries destPhysicalOutput) (bToA st) with
      | Some (_, tieLine) =>
          _releaseTieLineDestination dirBToA (index tieLine) destPhysicalOutput st
      | None => st
      end
  | B =>
      match list_find (carries destPhysicalOutput) (aToB st) with
      | Some (_, tieLine) =>
          _releaseTieLineDestination dirAToB (index tieLine) destPhysicalOutput st
      | None => st
      end
  end.

Definition _routeDirect (env : Controllers) (r : Router)
    (srcInput destOutput : Port) (level : nat) (st : TieLineState) : Outcome :=
  let controller := match r with A => controllerA env | B => controllerB env end in
  if negb (isConnected controller) then
    mkOutcome st [] (Failure (RouterNotConnected r) false)
  else if acks controller destOutput srcInput level then
    mkOutcome st [SetRoute r destOutput srcInput level] SuccessDirect
  else
    mkOutcome st [SetRoute r destOutput srcInput level]
      (Failure (RouteFailed r) false).

(** The predicate of the reuse search. *)
Definition carriesSource (srcInput : Port) (tl : TieLine) : Prop :=
  status tl = in_use ∧ sourceInput tl = Some srcInput.

#[global] Instance carriesSource_dec s tl : Decision (carriesSource s tl).
Proof. unfold carriesSource. apply _. Defined.

Definition isFree (tl : TieLine) : Prop := status tl = free.

#[global] Instance isFree_dec tl : Decision (isFree tl).
Proof. unfold isFree. apply _. Defined.

(** [if (!destinations.includes(d)) destinations.push(d)] *)
Definition addDestination (ds : list Port) (d : Port) : list Port :=
  if decide (d ∈ ds) then ds else ds ++ [d].

Definition _routeAToB (env : Controllers) (srcInput destOutput : Port)
    (level : nat) (st : TieLineState) : Outcome :=
  if negb (isConnected (controllerA env)) then
    mkOutcome st [] (Failure (RouterNotConnected A) false)
  else if negb (isConnected (controllerB env)) then
    mkOutcome st [] (Failure (RouterNotConnected B) false)
  else
    match list_find (carriesSource srcInput) (aToB st) with
    | Some (i, tieLine) =>
        let cmd := SetRoute B destOutput (Some (routerBInput tieLine)) level in
        if acks (controllerB env)
             destOutput (Some (routerBInput tieLine)) level then
          let tieLine' :=
            setDestinations tieLine (addDestination (destinations tieLine) destOutput) in
          mkOutcome (mkState (<[i := tieLine']> (aToB st)) (bToA st)) [cmd]
            (SuccessTieLine (index tieLine) true)
        else mkOutcome st [cmd] (Failure (RouteFailed B) false)
    | None =>
        match list_find isFree (aToB st) with
        | None =>
            mkOutcome st []
              (Failure (AllTieLinesInUse dirAToB (length (aToB st))) false)
        | Some (i, tieLine) =>
            let cmd1 := SetRoute A (Some (routerAOutput tieLine)) srcInput level in
            if negb (acks (controllerA env)
                      (Some (routerAOutput tieLine)) srcInput level)
            then mkOutcome st [cmd1] (Failure (RouteFailed A) false)
            else
              let cmd2 := SetRoute B destOutput (Some (routerBInput tieLine)) level in
              if negb (acks (controllerB env)
                        destOutput (Some (routerBInput tieLine)) level)
              then mkOutcome st [cmd1; cmd2] (Failure (RouteFailed B) true)
              else
                mkOutcome
                  (mkState (<[i := markInUse tieLine srcInput [destOutput]]> (aToB st))
                     (bToA st))
                  [cmd1; cmd2] (SuccessTieLine (index tieLine) false)
        end
    end.

Definition _routeBToA (env : Controllers) (srcInput destOutput : Port)
    (level : nat) (st : TieLineState) : Outcome :=
  if negb (isConnected (controllerB env)) then
    mkOutcome st [] (Failure (RouterNotConnected B) false)
  else if negb (isConnected (controllerA env)) then
    mkOutcome st [] (Failure (RouterNotConnected A) false)
  else
    match list_find (carriesSource srcInput) (bToA st) with
    | Some (i, tieLine) =>
        let cmd := SetRoute A destOutput (Some (routerAInput tieLine)) level in
        if acks (controllerA env)
             destOutput (Some (routerAInput tieLine)) level then
          let tieLine' :=
            setDestinations tieLine (addDestination (destinations tieLine) destOutput) in
          mkOutcome (mkState (aToB st) (<[i := tieLine']> (bToA st))) [cmd]
            (SuccessTieLine (index tieLine) true)
        else mkOutcome st [cmd] (Failure (RouteFailed A) false)
    | None =>
        match list_find isFree (bToA st) with
        | None =>
            mkOutcome st []
              (Failure (AllTieLinesInUse dirBToA (length (bToA st))) false)
        | Some (i, tieLine) =>
            let cmd1 := SetRoute B (Some (routerBOutput tieLine)) srcInput level in
            if negb (acks (controllerB env)
                      (Some (routerBOutput tieLine)) srcInput level)
            then mkOutcome st [cmd1] (Failure (RouteFailed B) false)
            else
              let cmd2 := SetRoute A destOutput (Some (routerAInput tieLine)) level in
              if negb (acks (controllerA env)
                        destOutput (Some (routerAInput tieLine)) level)
              then mkOutcome st [cmd1; cmd2] (Failure (RouteFailed A) true)
              else
                mkOutcome
                  (mkState (aToB st)
                     (<[i := markInUse tieLine srcInput [destOutput]]> (bToA st)))
                  [cmd1; cmd2] (SuccessTieLine (index tieLine) false)
        end
    end.

Definition releaseAllTieLines (st : TieLineState) : TieLineState :=
  mkState ((λ tieLine, markFree tieLine []) <$> aToB st)
          ((λ tieLine, markFree tieLine []) <$> bToA st).

(** [Object.entries(routing)]: the pairs (output, input), integer keys in
    ascending order. *)
Definition keyLe (x y : nat * nat) : Prop := x.1 ≤ y.1.

#[global] Instance keyLe_dec x y : Decision (keyLe x y).
Proof. unfold keyLe. apply _. Defined.

Definition entries (m : gmap nat nat) : list (nat * nat) :=
  merge_sort keyLe (map_to_list m).

(** The inner loop of the reconstruction: the outputs of the far router
    that are routed to the record's sink input, are not tie-line outputs
    of that router ([farOutputs]) and are not the 1:1 route. *)
Definition collectDestinations (farRouting : gmap nat nat)
    (farOutputs : gset nat) (sinkInput : nat) : list nat :=
  fst <$> filter (λ oi, snd oi = sinkInput ∧ (fst oi ∉ farOutputs) ∧ fst oi ≠ snd oi)
            (entries farRouting).

(** The body of one iteration of the outer loops. *)
Definition reconstructTieLine (nearRouting farRouting : gmap nat nat)
    (farOutputs : gset nat) (tieLine : TieLine) : TieLine :=
  let sourceOn := nearRouting !! tlOutput tieLine in
  let destsOn := collectDestinations farRouting farOutputs (tlInput tieLine) in
  match sourceOn with
  | Some s =>
      if decide (0 < length destsOn)
      then markInUse tieLine (Some s) (Some <$> destsOn)
      else markFree tieLine []
  | None => markFree tieLine []
  end.

Definition reconstructStateFromRouting (env : Controllers) (e : Engine) : Engine :=
  if negb (isConnected (controllerA env)) || negb (isConnected (controllerB env))
  then e
  else
    let routingA := routing (getState (controllerA env)) in
    let routingB := routing (getState (controllerB env)) in
    let tieLineAOutputs : gset nat := list_to_set (cableOutput <$> cfg_aToB (config e)) in
    let tieLineBOutputs : gset nat := list_to_set (cableOutput <$> cfg_bToA (config e)) in
    mkEngine (config e)
      (mkState
         (reconstructTieLine routingA routingB tieLineBOutputs <$> aToB (state e))
         (reconstructTieLine routingB routingA tieLineAOutputs <$> bToA (state e))).

Definition updateConfig (env : Controllers) (tieLineConfig : TieLineConfig)
    (e : Engine) : Engine :=
  let e' := mkEngine tieLineConfig (initializeState tieLineConfig) in
  if isConnected (controllerA env) && isConnected (controllerB env)
  then reconstructStateFromRouting env e'
  else e'.

(** The constructor. *)
Definition newEngine (tieLineConfig : TieLineConfig) : Engine :=
  mkEngine tieLineConfig (initializeState tieLineConfig).

(** The two virtual indices are integers.  For a negative index the
    resolution gives an object whose [physicalIndex] is [undefined]; the
    test [!source || !dest] lets it through and the route is made with that
    port value.  The final [return] of the source (unknown routing
    scenario) is behind three tests that cover the four pairs of routers,
    so no branch of the match leads to it. *)
Definition executeVirtualRoute (env : Controllers) (virtualOutput virtualInput : Z)
    (virtualRouter : VirtualRouter.t) (level : nat) (st : TieLineState) : Outcome :=
  match VirtualRouter.resolveInput virtualRouter virtualInput,
        VirtualRouter.resolveOutput virtualRouter virtualOutput with
  | None, _ | _, None => mkOutcome st [] (Failure InvalidVirtualIndex false)
  | Some source, Some dest =>
      let srcPort := VirtualRouter.physicalIndex source in
      let dstPort := VirtualRouter.physicalIndex dest in
      match VirtualRouter.router source, VirtualRouter.router dest with
      | A, A | B, B =>
          let st1 :=
            _cleanupOutputTieLine (VirtualRouter.router source)
              (VirtualRouter.router dest) dstPort st in
          _routeDirect env (VirtualRouter.router source) srcPort dstPort level st1
      | A, B =>
          let st1 := _handleOutputReassignment dirAToB dstPort st in
          _routeAToB env srcPort dstPort level st1
      | B, A =>
          let st1 := _handleOutputReassignment dirBToA dstPort st in
          _routeBToA env srcPort dstPort level st1
      end
  end.

(** *** One generic description of the two cross-router functions

    [_routeAToB] and [_routeBToA] differ only in the pool and in which
    router is near and which is far; [routeCross] says it once, and
    [routeAToB_cross] / [routeBToA_cross] show that it is the same
    function. *)

Definition nearRouter (direction : Direction) : Router :=
  match direction with dirAToB => A | dirBToA => B end.
Definition farRouter (direction : Direction) : Router :=
  match direction with dirAToB => B | dirBToA => A end.

Definition routeCross (direction : Direction) (env : Controllers)
    (srcInput destOutput : Port) (level : nat) (st : TieLineState) : Outcome :=
  let near := nearRouter direction in
  let far := farRouter direction in
  if negb (isConnected (controllerOf env near)) then
    mkOutcome st [] (Failure (RouterNotConnected near) false)
  else if negb (isConnected (controllerOf env far)) then
    mkOutcome st [] (Failure (RouterNotConnected far) false)
  else
    match list_find (carriesSource srcInput) (pool direction st) with
    | Some (i, tieLine) =>
        let cmd := SetRoute far destOutput (Some (tlInput tieLine)) level in
        if acks (controllerOf env far)
             destOutput (Some (tlInput tieLine)) level then
          let tieLine' :=
            setDestinations tieLine (addDestination (destinations tieLine) destOutput) in
          mkOutcome (setPool direction (<[i := tieLine']> (pool direction st)) st)
            [cmd] (SuccessTieLine (index tieLine) true)
        else mkOutcome st [cmd] (Failure (RouteFailed far) false)
    | None =>
        match list_find isFree (pool direction st) with
        | None =>
            mkOutcome st []
              (Failure (AllTieLinesInUse direction (length (pool direction st))) false)
        | Some (i, tieLine) =>
            let cmd1 := SetRoute near (Some (tlOutput tieLine)) srcInput level in
            if negb (acks (controllerOf env near)
                      (Some (tlOutput tieLine)) srcInput level)
            then mkOutcome st [cmd1] (Failure (RouteFailed near) false)
            else
              let cmd2 := SetRoute far destOutput (Some (tlInput tieLine)) level in
              if negb (acks (controllerOf env far)
                        destOutput (Some (tlInput tieLine)) level)
              then mkOutcome st [cmd1; cmd2] (Failure (RouteFailed far) true)
              else
                mkOutcome
                  (setPool direction
                     (<[i := markInUse tieLine srcInput [destOutput]]> (pool direction st))
                     st)
                  [cmd1; cmd2] (SuccessTieLine (index tieLine) false)
        end
    end.

(** ** Invariants and reachable states *)

(** [state[d][i].index = i]. *)
Definition positional (p : list TieLine) : Prop :=
  ∀ i tl, p !! i = Some tl → index tl = i.

(** [status = in-use] iff [destinations] is nonempty iff [sourceInput] is
    not [null].  This much holds after every operation, whatever the
    indices; that [sourceInput] is then a number is [sourceDefined]
    below. *)
Definition consistent (tl : TieLine) : Prop :=
  (status tl = in_use ↔ destinations tl ≠ []) ∧
  (destinations tl ≠ [] ↔ sourceInput tl ≠ None).

(** [sourceInput] is [null] or a number, never [undefined]. *)
Definition sourceDefined (tl : TieLine) : Prop :=
  sourceInput tl ≠ Some None.

(** The number of records of a pool whose [destinations] contain [p]. *)
Definition holders (p : Port) (records : list TieLine) : nat :=
  length (filter (λ tl, p ∈ destinations tl) records).

(** No two records of a pool share a destination. *)
Definition exclusive (records : list TieLine) : Prop :=
  ∀ i j ti tj d,
    records !! i = Some ti → records !! j = Some tj →
    d ∈ destinations ti → d ∈ destinations tj → i = j.

(** The number of in-use records of a pool. *)
Definition inUseCount (records : list TieLine) : nat :=
  length (filter (λ tl, status tl = in_use) records).

Definition inUseBit (tl : TieLine) : nat :=
  if decide (status tl = in_use) then 1 else 0.

(** The configuration precondition used for exclusivity: within one
    direction no input index repeats. *)
Definition inputsUnique (cfg : TieLineConfig) : Prop :=
  NoDup (cableInput <$> cfg_aToB cfg) ∧ NoDup (cableInput <$> cfg_bToA cfg).

(** One engine operation.  [accept] is the condition put on the
    configurations handed to the engine. *)
Inductive step (accept : TieLineConfig → Prop) : Engine → Engine → Prop :=
  | step_executeVirtualRoute env virtualOutput virtualInput virtualRouter level e :
      step accept e
        (mkEngine (config e)
           (stateAfter (executeVirtualRoute env virtualOutput virtualInput
                          virtualRouter level (state e))))
  | step_release direction tieLineIndex removedDest e :
      step accept e
        (mkEngine (config e)
           (_releaseTieLineDestination direction tieLineIndex removedDest (state e)))
  | step_releaseAllTieLines e :
      step accept e (mkEngine (config e) (releaseAllTieLines (state e)))
  | step_updateConfig env cfg e :
      accept cfg → step accept e (updateConfig env cfg e)
  | step_reconstruct env e :
      step accept e (reconstructStateFromRouting env e).

(** The states the engine can be in: built by the constructor, then any
    sequence of operations. *)
Inductive reachable (accept : TieLineConfig → Prop) : Engine → Prop :=
  | reachable_new cfg : accept cfg → reachable accept (newEngine cfg)
  | reachable_step e e' :
      reachable accept e → step accept e e' → reachable accept e'.

Definition anyConfig (cfg : TieLineConfig) : Prop := True.

(** The same operations, with every [executeVirtualRoute] given a virtual
    input index that is not negative (what the bridge checks before it
    calls). *)
Inductive stepInputChecked : Engine → Engine → Prop :=
  | checked_executeVirtualRoute env virtualOutput virtualInput virtualRouter level e :
      (0 ≤ virtualInput)%Z →
      stepInputChecked e
        (mkEngine (config e)
           (stateAfter (executeVirtualRoute env virtualOutput virtualInput
                          virtualRouter level (state e))))
  | checked_release direction tieLineIndex removedDest e :
      stepInputChecked e
        (mkEngine (config e)
           (_releaseTieLineDestination direction tieLineIndex removedDest (state e)))
  | checked_releaseAllTieLines e :
      stepInputChecked e (mkEngine (config e) (releaseAllTieLines (state e)))
  | checked_updateConfig env cfg e :
      stepInputChecked e (updateConfig env cfg e)
  | checked_reconstruct env e :
      stepInputChecked e (reconstructStateFromRouting env e).

Inductive reachableInputChecked : Engine → Prop :=
  | checked_new cfg : reachableInputChecked (newEngine cfg)
  | checked_step e e' :
      reachableInputChecked e → stepInputChecked e e' → reachableInputChecked e'.

(** The record left by [_releaseTieLineDestination] in place of an in-use
    record [tl]. *)
Definition released (tl : TieLine) (removedDest : Port) : TieLine :=
  let ds := filter (λ d, d ≠ removedDest) (destinations tl) in
  if decide (length ds = 0) then markFree tl ds else setDestinations tl ds.

(** The pool directed into a router. *)
Definition poolInto (r : Router) : Direction :=
  match r with A => dirBToA | B => dirAToB end.

(** Positional indices and status consistency, in both pools. *)
Definition wellFormed (st : TieLineState) : Prop :=
  ∀ d, positional (pool d st) ∧ Forall consistent (pool d st).

Definition sourcesDefined (st : TieLineState) : Prop :=
  ∀ d, Forall sourceDefined (pool d st).

Definition exclusiveState (st : TieLineState) : Prop :=
  ∀ d, exclusive (pool d st).

Definition sinksUnique (st : TieLineState) : Prop :=
  ∀ d, NoDup (tlInput <$> pool d st).

(** The two ports of a record, and of a configured cable. *)
Definition wiring (tl : TieLine) : nat * nat := (tlOutput tl, tlInput tl).
Definition cable (m : TieLineMapping) : nat * nat := (cableOutput m, cableInput m).

(** [st'] has the same cables as [st], position by position. *)
Definition sameWiring (st st' : TieLineState) : Prop :=
  ∀ d, wiring <$> pool d st' = wiring <$> pool d st.

(** The records of the pools are the cables of the configuration. *)
Definition wired (e : Engine) : Prop :=
  wiring <$> aToB (state e) = cable <$> cfg_aToB (config e) ∧
  wiring <$> bToA (state e) = cable <$> cfg_bToA (config e).

(** How many in-use records the reassignment step of a route to [d] sets
    free: one when [d] is the only destination of the record that carries
    it, none otherwise. *)
Definition freedByReassignment (direction : Direction) (d : Port)
    (st : TieLineState) : nat :=
  match list_find (carries d) (pool direction st) with
  | Some (_, old) =>
      if decide (length (filter (λ x, x ≠ d) (destinations old)) = 0) then 1 else 0
  | None => 0
  end.

(** Following the spec's words for the reconstruction: the set
    [D = { o | routing[o] = sink, o is not a tie-line source port of the far
    router, o <> sink }]. *)
Definition inD (farRouting : gmap nat nat) (farSources : list nat)
    (sink o : nat) : Prop :=
  farRouting !! o = Some sink ∧ (o ∉ farSources) ∧ o ≠ sink.

(** Following the spec's words: what the reconstruction leaves in the
    record of the configured cable [m], given the routing of the near
    router (the one with the cable's output) and of the far router. *)
Definition reconstructedAs (nearRouting farRouting : gmap nat nat)
    (farSources : list nat) (m : TieLineMapping) (tl : TieLine) : Prop :=
  let defined :=
    is_Some (nearRouting !! cableOutput m) ∧
    ∃ o, inD farRouting farSources (cableInput m) o in
  wiring tl = cable m ∧
  (defined →
     status tl = in_use ∧ sourceInput tl = Some (nearRouting !! cableOutput m) ∧
     ∀ p, p ∈ destinations tl ↔
          ∃ o, p = Some o ∧ inD farRouting farSources (cableInput m) o) ∧
  (¬ defined → status tl = free ∧ sourceInput tl = None ∧ destinations tl = []).

(** ** The configuration of the end-to-end scenarios

    Two 8x8 routers, one A→B cable from output 7 of A to input 0 of B;
    15 virtual inputs (0..7 on A, 8..14 on B) and 15 virtual outputs
    (0..6 on A, 7..14 on B). *)

Module Scenario.

Definition cfg : TieLineConfig := mkConfig [mkMapping 7 0] [].

Definition router8 (r : gmap nat nat) : RouterState := mkRouterState 8 8 r.

Definition vr : VirtualRouter.t := VirtualRouter.mk (router8 ∅) (router8 ∅) cfg.

(** Both routers connected and acknowledging every command. *)
Definition env : Controllers :=
  mkControllers (mkController true (router8 ∅) (λ _ _ _, true))
                (mkController true (router8 ∅) (λ _ _ _, true)).

(** Both connected, router B rejecting every command. *)
Definition envBRejects : Controllers :=
  mkControllers (mkController true (router8 ∅) (λ _ _ _, true))
                (mkController true (router8 ∅) (λ _ _ _, false)).

(** Router B not connected. *)
Definition envBDown : Controllers :=
  mkControllers (mkController true (router8 ∅) (λ _ _ _, true))
                (mkController false (router8 ∅) (λ _ _ _, true)).

Definition e0 : Engine := newEngine cfg.

(** Scenario 2: virtual output 7 (output 0 of B) takes virtual input 0. *)
Definition e2 : Engine :=
  mkEngine (config e0) (stateAfter (executeVirtualRoute env 7 0 vr 0 (state e0))).

(** Scenario 3: virtual output 8 (output 1 of B) takes virtual input 0. *)
Definition e3 : Engine :=
  mkEngine (config e2) (stateAfter (executeVirtualRoute env 8 0 vr 0 (state e2))).

(** The fresh engine asked for virtual output 7 from virtual input -1. *)
Definition eNegative : Engine :=
  mkEngine (config e0)
    (stateAfter (executeVirtualRoute env 7 (-1) vr 0 (state e0))).

(** The record of the cable while it carries input 0 of A to [ds]. *)
Definition carrying (src : nat) (ds : list nat) : TieLine :=
  mkTieLine 0 7 0 in_use (Some (Some src)) (Some <$> ds).

(** A second configuration, with two A→B cables: (6,0) and (7,1). *)
Definition cfg2 : TieLineConfig := mkConfig [mkMapping 6 0; mkMapping 7 1] [].

Definition vr2 : VirtualRouter.t := VirtualRouter.mk (router8 ∅) (router8 ∅) cfg2.

(** With [cfg2] the virtual outputs 6..13 are the outputs 0..7 of B.
    Virtual output 8 (output 2 of B) takes input 0 of A, then virtual
    output 9 (output 3 of B) takes input 1 of A: cable 0 carries input 0 to
    output 2, cable 1 carries input 1 to output 3. *)
Definition eTwo0 : Engine := newEngine cfg2.
Definition eTwo1 : Engine :=
  mkEngine (config eTwo0)
    (stateAfter (executeVirtualRoute env 8 0 vr2 0 (state eTwo0))).
Definition eTwo : Engine :=
  mkEngine (config eTwo1)
    (stateAfter (executeVirtualRoute env 9 1 vr2 0 (state eTwo1))).

(** From there virtual output 8 (output 2 of B, fed by cable 0) is given
    input 1 of A, which cable 1 carries: cable 0 loses its only
    destination and cable 1 gains it. *)
Definition eTwoMoved : Engine :=
  mkEngine (config eTwo)
    (stateAfter (executeVirtualRoute env 8 1 vr2 0 (state eTwo))).

Definition twoBusy : TieLineState :=
  mkState [mkTieLine 0 6 0 in_use (Some (Some 0)) [Some 2];
           mkTieLine 1 7 1 in_use (Some (Some 1)) [Some 3]] [].

(** A configuration in which two A→B cables end in the same input of B:
    (6,0) and (7,0).  Router A sends input 1 to output 6 and input 2 to
    output 7, and output 3 of B takes input 0; the reconstruction then
    gives output 3 to both records. *)
Definition cfgShared : TieLineConfig := mkConfig [mkMapping 6 0; mkMapping 7 0] [].

Definition envShared : Controllers :=
  mkControllers
    (mkController true (router8 (<[6 := 1]> {[7 := 2]})) (λ _ _ _, true))
    (mkController true (router8 {[3 := 0]}) (λ _ _ _, true)).

Definition vrShared : VirtualRouter.t :=
  VirtualRouter.mk (getState (controllerA envShared))
    (getState (controllerB envShared)) cfgShared.

Definition eShared : Engine :=
  reconstructStateFromRouting envShared (newEngine cfgShared).

(** The routing tables of scenario 6. *)
Definition envReconstruct : Controllers :=
  mkControllers
    (mkController true (router8 {[7 := 3]}) (λ _ _ _, true))
    (mkController true (router8 (<[4 := 0]> (<[5 := 0]> {[0 := 0]})))
       (λ _ _ _, true)).

End Scenario.

(** ** Further notions used to state properties of the engine *)

(** The configured cables of one direction. *)
Definition cablesOf (direction : Direction) (cfg : TieLineConfig)
    : list TieLineMapping :=
  match direction with dirAToB => cfg_aToB cfg | dirBToA => cfg_bToA cfg end.

(** Whether a result is one of the two success objects. *)
Definition isSuccess (r : Result) : bool :=
  match r with Failure _ _ => false | _ => true end.

(** The router a command is sent to, and the output it switches. *)
Definition commandRouter (c : Command) : Router :=
  match c with SetRoute r _ _ _ => r end.
Definition commandOutput (c : Command) : Port :=
  match c with SetRoute _ o _ _ => o end.

(** ** virtual-router.js, the derived tables *)

Module VirtualTables.
Import VirtualRouter.

(** The loop
    [for (let v = 0; v < n; v++) { ...; target[offset + v] = x; }]
    where the body either assigns ([Some x]) or skips the index
    ([continue], or a guard that fails). *)
Definition loopAssign {V} (n offset : nat) (body : nat → option V)
    (target : gmap nat V) : gmap nat V :=
  foldl (λ m v, match body v with
                | Some x => <[offset + v := x]> m
                | None => m
                end) target (seq 0 n).

Definition getInputRouterMap (vr : t) : gmap nat Router :=
  let aCount := length (visibleAInputs vr) in
  let bCount := length (visibleBInputs vr) in
  loopAssign bCount aCount (λ _, Some B) (loopAssign aCount 0 (λ _, Some A) ∅).

Definition getOutputRouterMap (vr : t) : gmap nat Router :=
  let aCount := length (visibleAOutputs vr) in
  let bCount := length (visibleBOutputs vr) in
  loopAssign bCount aCount (λ _, Some B) (loopAssign aCount 0 (λ _, Some A) ∅).

(** Virtual index to physical port number, 1-based, for display. *)
Definition getInputPhysicalIndices (vr : t) : gmap nat nat :=
  let aInputs := visibleAInputs vr in
  let bInputs := visibleBInputs vr in
  loopAssign (length bInputs) (length aInputs)
    (λ v, (λ p, p + 1) <$> bInputs !! v)
    (loopAssign (length aInputs) 0 (λ v, (λ p, p + 1) <$> aInputs !! v) ∅).

Definition getOutputPhysicalIndices (vr : t) : gmap nat nat :=
  let aOutputs := visibleAOutputs vr in
  let bOutputs := visibleBOutputs vr in
  loopAssign (length bOutputs) (length aOutputs)
    (λ v, (λ p, p + 1) <$> bOutputs !! v)
    (loopAssign (length aOutputs) 0 (λ v, (λ p, p + 1) <$> aOutputs !! v) ∅).

(** [physicalInputToVirtual(router, tieLine.sourceInput)]: a [null] or
    [undefined] source is found in no array, so [indexOf] gives -1. *)
Definition sourceToVirtual (vr : t) (r : Router) (src : option Port) : Z :=
  match src with
  | Some (Some p) => physicalInputToVirtual vr r p
  | Some None | None => (-1)%Z
  end.

(** The predicate of the search
    [find(tl => tl.routerXInput === physIn && tl.status === 'in-use')]. *)
Definition feeds (physIn : nat) (tl : TieLine) : Prop :=
  tlInput tl = physIn ∧ status tl = in_use.

#[global] Instance feeds_dec q tl : Decision (feeds q tl).
Proof. unfold feeds. apply _. Defined.

(** [if (virtualInput >= 0) routing[v] = virtualInput] *)
Definition ifNonNegative (virtualInput : Z) : option Z :=
  if decide (0 ≤ virtualInput)%Z then Some virtualInput else None.

(** [getVirtualRouting]; [tieLineState] is the field [this.tieLineState]. *)
Definition getVirtualRouting (vr : t) (tieLineState : TieLineState) : gmap nat Z :=
  let aOutputs := visibleAOutputs vr in
  let bOutputs := visibleBOutputs vr in
  let routing1 :=
    loopAssign (length aOutputs) 0
      (λ v,
         physOut ← aOutputs !! v;
         physIn ← routing (routerA vr) !! physOut;
         match list_find (feeds physIn) (bToA tieLineState) with
         | Some (_, bToATieLine) =>
             ifNonNegative (sourceToVirtual vr B (sourceInput bToATieLine))
         | None => ifNonNegative (physicalInputToVirtual vr A physIn)
         end) ∅ in
  loopAssign (length bOutputs) (length aOutputs)
    (λ v,
       physOut ← bOutputs !! v;
       physIn ← routing (routerB vr) !! physOut;
       match list_find (feeds physIn) (aToB tieLineState) with
       | Some (_, aToBTieLine) =>
           ifNonNegative (sourceToVirtual vr A (sourceInput aToBTieLine))
       | None => ifNonNegative (physicalInputToVirtual vr B physIn)
       end) routing1.

(** The mirror of router [r] held by the virtual router. *)
Definition routerOf (vr : t) (r : Router) : RouterState :=
  match r with A => routerA vr | B => routerB vr end.

(** The other router. *)
Definition across (r : Router) : Router :=
  match r with A => B | B => A end.

(** The virtual input reported for a visible output of router [r] that is
    physically routed to input [physIn] of [r]: the body shared by the two
    loops of [getVirtualRouting]. *)
Definition virtualSource (vr : t) (tieLineState : TieLineState) (r : Router)
    (physIn : nat) : Z :=
  match list_find (feeds physIn) (pool (poolInto r) tieLineState) with
  | Some (_, tieLine) => sourceToVirtual vr (across r) (sourceInput tieLine)
  | None => physicalInputToVirtual vr r physIn
  end.

End VirtualTables.

(** ** The projection after scenario 3

    The mirrors as the routers report them once scenario 3 is done:
    output 7 of A takes input 0 (the cable), outputs 0 and 1 of B take
    input 0 of B (the cable), and output 2 of B takes input 5 of B. *)

Module ScenarioTables.

Definition vr3 : VirtualRouter.t :=
  VirtualRouter.mk (Scenario.router8 {[7 := 0]})
    (Scenario.router8 (<[0 := 0]> (<[1 := 0]> {[2 := 5]}))) Scenario.cfg.

End ScenarioTables.

(** ** main.js: the CSV helpers of the salvo export and import

    A JavaScript string is the list of its characters. *)

From Stdlib Require Ascii.

Module Csv.
Import Ascii.

Local Open Scope char_scope.

Definition comma : ascii := ",".
(** The double quote character, code 34. *)
Definition quote : ascii := "034".
Definition newline : ascii := "010".

(** The replacement of every double quote by two of them. *)
Definition doubleQuotes (str : list ascii) : list ascii :=
  flat_map (λ ch, if decide (ch = quote) then [quote; quote] else [ch]) str.

(** [csvEscape], on a string value. *)
Definition csvEscape (str : list ascii) : list ascii :=
  if decide (comma ∈ str ∨ quote ∈ str ∨ newline ∈ str)
  then [quote] ++ doubleQuotes str ++ [quote]
  else str.

(** The loop of [csvParseLine], from position [i] on: [line] is what is
    left of the line from [i].  The step [i++] inside the body, after a
    doubled quote, skips one more character. *)
Fixpoint csvParseLoop (line : list ascii) (fields : list (list ascii))
    (current : list ascii) (inQuotes : bool) : list (list ascii) :=
  match line with
  | [] => fields ++ [current]
  | ch :: rest =>
      if inQuotes then
        if decide (ch = quote) then
          match rest with
          | next :: rest' =>
              if decide (next = quote)
              then csvParseLoop rest' fields (current ++ [quote]) true
              else csvParseLoop rest fields current false
          | [] => csvParseLoop rest fields current false
          end
        else csvParseLoop rest fields (current ++ [ch]) true
      else
        if decide (ch = quote) then csvParseLoop rest fields current true
        else if decide (ch = comma)
             then csvParseLoop rest (fields ++ [current]) [] false
             else csvParseLoop rest fields (current ++ [ch]) false
  end.

Definition csvParseLine (line : list ascii) : list (list ascii) :=
  csvParseLoop line [] [] false.

(** [cells.join(',')] *)
Fixpoint joinComma (cells : list (list ascii)) : list ascii :=
  match cells with
  | [] => []
  | [cell] => cell
  | cell :: rest => cell ++ [comma] ++ joinComma rest
  end.

End Csv.

(** ** videohub-bridge.js: the state sync of the northbound bridge

    Sockets are numbered; text is a list of characters.  What the bridge
    writes to its clients is kept as data (which section, which rows), not
    as the text of the protocol. *)

From Stdlib Require String.
From stdpp Require pretty.

Module Bridge.
Import Ascii.

Local Open Scope char_scope.

(** The object returned by [virtualRouter.getState()], as far as the bridge
    reads it.  An absent [outputLocks] object is the empty map. *)
Record VirtualState : Type := mkVirtualState {
  vsInputs : nat;
  vsOutputs : nat;
  vsRouting : gmap nat Z;
  vsInputLabels : gmap nat (list ascii);
  vsOutputLabels : gmap nat (list ascii);
  vsOutputLocks : gmap nat (list ascii)
}.

(** [lockOwners] maps an output to the socket that holds it; an entry set
    to [null] is an absent entry.  [clients] is the set of sockets, in
    insertion order. *)
Record t : Type := mk {
  lockOwners : gmap nat nat;
  clients : list nat;
  previousState : option VirtualState
}.

Inductive Broadcast : Type :=
  (** [client.write(this.getFullStatus(client))] *)
  | FullStatusTo (client : nat)
  (** [broadcastRoutingChange(changes)]: rows [output input], to all *)
  | RoutingChange (changes : list (nat * Z))
  (** [broadcastInputLabelChange(changes)]: rows [input label], to all *)
  | InputLabelChange (changes : list (nat * list ascii))
  (** [broadcastOutputLabelChange(changes)]: rows [output label], to all *)
  | OutputLabelChange (changes : list (nat * list ascii))
  (** one message of [broadcastLockChange]: rows [output state] *)
  | LockChangeTo (client : nat) (rows : list (nat * list ascii)).

(** The decimal digits of a number. *)
Definition decimal (n : nat) : list ascii :=
  String.list_ascii_of_string (pretty.pretty n).

(** [label || `Input ${i + 1}`] and [label || `Output ${i + 1}`]: an absent
    or empty label gives the default. *)
Definition orDefault (label : option (list ascii)) (default : list ascii)
    : list ascii :=
  match label with
  | Some (ch :: rest) => ch :: rest
  | _ => default
  end.

Definition defaultInputLabel (i : nat) : list ascii :=
  ["I"; "n"; "p"; "u"; "t"; " "] ++ decimal (i + 1).
Definition defaultOutputLabel (i : nat) : list ascii :=
  ["O"; "u"; "t"; "p"; "u"; "t"; " "] ++ decimal (i + 1).

(** [routing[i] !== undefined ? routing[i] : 0] *)
Definition shownInput (routing : gmap nat Z) (i : nat) : Z :=
  match routing !! i with Some v => v | None => 0%Z end.

Definition shownInputLabel (labels : gmap nat (list ascii)) (i : nat)
    : list ascii :=
  orDefault (labels !! i) (defaultInputLabel i).
Definition shownOutputLabel (labels : gmap nat (list ascii)) (i : nat)
    : list ascii :=
  orDefault (labels !! i) (defaultOutputLabel i).

(** [_getLockStateForClient(socket, output, vs)]; [vs] may be [null]. *)
Definition _getLockStateForClient (b : t) (socket output : nat)
    (vs : option VirtualState) : list ascii :=
  match lockOwners b !! output with
  | Some tcpOwner => if decide (tcpOwner = socket) then ["O"] else ["L"]
  | None =>
      let physLock :=
        orDefault (vs ≫= λ s, vsOutputLocks s !! output) ["U"] in
      if decide (physLock = ["U"]) then ["U"] else ["L"]
  end.

(** The loop [for (i = 0; i < n; i++) if (changed i) changes.push(row i)]. *)
Definition collectChanges {R} (n : nat) (changed : nat → bool) (row : nat → R)
    : list R :=
  row <$> filter (λ i, changed i = true) (seq 0 n).

(** [if (changes.length > 0) broadcast...(changes)] *)
Definition whenChanged {R} (changes : list R) (msg : list R → list Broadcast)
    : list Broadcast :=
  match changes with [] => [] | _ => msg changes end.

(** [broadcastLockChange(changes)]; [vs] is [this._getVirtualState()] at
    that moment. *)
Definition broadcastLockChange (b : t) (vs : option VirtualState)
    (changes : list nat) : list Broadcast :=
  (λ client,
     LockChangeTo client
       ((λ output, (output, _getLockStateForClient b client output vs))
          <$> changes)) <$> clients b.

(** [onVirtualStateChanged(newState)]: the bridge afterwards and what is
    written to the clients, in order.  [vsNow] is what
    [this._getVirtualState()] returns during the call. *)
Definition onVirtualStateChanged (b : t) (vsNow : option VirtualState)
    (newState : VirtualState) : t * list Broadcast :=
  match previousState b with
  | None => (mk (lockOwners b) (clients b) (Some newState), [])
  | Some prev =>
      if decide (length (clients b) = 0)
      then (mk (lockOwners b) (clients b) (Some newState), [])
      else if decide (vsInputs prev ≠ vsInputs newState
                      ∨ vsOutputs prev ≠ vsOutputs newState)
      then (mk ∅ (clients b) (Some newState), FullStatusTo <$> clients b)
      else
        let b' := mk (lockOwners b) (clients b) (Some newState) in
        let routingChanges :=
          collectChanges (vsOutputs newState)
            (λ i, bool_decide (vsRouting prev !! i ≠ vsRouting newState !! i))
            (λ i, (i, shownInput (vsRouting newState) i)) in
        let inputLabelChanges :=
          collectChanges (vsInputs newState)
            (λ i, bool_decide (vsInputLabels prev !! i ≠ vsInputLabels newState !! i))
            (λ i, (i, shownInputLabel (vsInputLabels newState) i)) in
        let outputLabelChanges :=
          collectChanges (vsOutputs newState)
            (λ i, bool_decide (vsOutputLabels prev !! i ≠ vsOutputLabels newState !! i))
            (λ i, (i, shownOutputLabel (vsOutputLabels newState) i)) in
        let lockChanges :=
          collectChanges (vsOutputs newState)
            (λ i, bool_decide (vsOutputLocks prev !! i ≠ vsOutputLocks newState !! i))
            (λ i, i) in
        (b',
         whenChanged routingChanges (λ c, [RoutingChange c])
         ++ whenChanged inputLabelChanges (λ c, [InputLabelChange c])
         ++ whenChanged outputLabelChanges (λ c, [OutputLabelChange c])
         ++ whenChanged lockChanges (broadcastLockChange b' vsNow))
  end.

End Bridge.

(** A bridge with one client (socket 1) that has seen virtual output 0 on
    virtual input 1, and the next state, with output 0 on input 2. *)
Module ScenarioBridge.

Definition seen : Bridge.VirtualState :=
  Bridge.mkVirtualState 15 15 {[0 := 1%Z]} ∅ ∅ ∅.
Definition next : Bridge.VirtualState :=
  Bridge.mkVirtualState 15 15 {[0 := 2%Z]} ∅ ∅ ∅.
Definition bridge : Bridge.t := Bridge.mk ∅ [1] (Some seen).

End ScenarioBridge.

(** ** main.js: recalling a salvo *)

Module Salvo.

(** One stored route; of its labels only [outputLabel] is read here, and
    only to word the error.  The two indices are integers, as
    [import-salvos] leaves them ([parseInt(field) || 0] keeps a negative
    number), and the handler hands them to the engine unchecked. *)
Record Route : Type := mkRoute {
  output : Z;
  input : Z
}.

Record t : Type := mk {
  id : nat;
  routes : list Route
}.

(** The result object of the handler: [errors] pairs the route that failed
    with the engine's error (the handler joins the route's label and the
    error text into one string). *)
Inductive Reply : Type :=
  (** [settings.salvos] is not set *)
  | NoSalvos
  (** no salvo has the id *)
  | NotFound
  | Recalled (success : bool) (errors : list (Route * Error)) (appliedCount : nat).

(** The loop over [salvo.routes].  [envAt k] is the behaviour of the two
    controllers during the [k]-th call. *)
Fixpoint recallLoop (envAt : nat → Controllers) (virtualRouter : VirtualRouter.t)
    (k : nat) (rs : list Route) (st : TieLineState)
    (errors : list (Route * Error)) (appliedCount : nat)
    : TieLineState * list (Route * Error) * nat :=
  match rs with
  | [] => (st, errors, appliedCount)
  | route :: rest =>
      let out :=
        executeVirtualRoute (envAt k) (output route) (input route)
          virtualRouter 0 st in
      match result out with
      | Failure err _ =>
          recallLoop envAt virtualRouter (S k) rest (stateAfter out)
            (errors ++ [(route, err)]) appliedCount
      | _ =>
          recallLoop envAt virtualRouter (S k) rest (stateAfter out)
            errors (appliedCount + 1)
      end
  end.

(** The handler of [recall-salvo], with an engine and a virtual router in
    place.  [salvos] is [settings.salvos] ([None] when it is not set); the
    ids, strings in the source, are only compared and are numbers here. *)
Definition recallSalvo (salvos : option (list t)) (salvoId : nat)
    (envAt : nat → Controllers) (virtualRouter : VirtualRouter.t)
    (st : TieLineState) : TieLineState * Reply :=
  match salvos with
  | None => (st, NoSalvos)
  | Some stored =>
      match list_find (λ s, id s = salvoId) stored with
      | None => (st, NotFound)
      | Some (_, salvo) =>
          let '(st', errors, appliedCount) :=
            recallLoop envAt virtualRouter 0 (routes salvo) st [] 0 in
          (st', Recalled (bool_decide (length errors = 0)) errors appliedCount)
      end
  end.

(** The salvo of scenarios 2 and 3 followed by a route to a virtual output
    that does not exist. *)
Definition example : t :=
  mk 7 [mkRoute 7 0; mkRoute 8 0; mkRoute 99 0].

End Salvo.

(** ** virtual-router.js: the label tables

    The label objects of the two router mirrors ([routerA.inputLabels] and
    so on) are passed next to the virtual router. *)

Module VirtualLabels.
Import Ascii VirtualRouter VirtualTables.

Record RouterLabels : Type := mkRouterLabels {
  inputLabels : gmap nat (list ascii);
  outputLabels : gmap nat (list ascii)
}.

(** [labels[p] || `Input ${p + 1}`], with the physical port [p]. *)
Definition inputLabelOf (labels : gmap nat (list ascii)) (p : nat) : list ascii :=
  Bridge.orDefault (labels !! p) (Bridge.defaultInputLabel p).
Definition outputLabelOf (labels : gmap nat (list ascii)) (p : nat) : list ascii :=
  Bridge.orDefault (labels !! p) (Bridge.defaultOutputLabel p).

Definition getInputLabels (vr : t) (labelsA labelsB : RouterLabels)
    : gmap nat (list ascii) :=
  let aInputs := visibleAInputs vr in
  let bInputs := visibleBInputs vr in
  loopAssign (length bInputs) (length aInputs)
    (λ v, inputLabelOf (inputLabels labelsB) <$> bInputs !! v)
    (loopAssign (length aInputs) 0
       (λ v, inputLabelOf (inputLabels labelsA) <$> aInputs !! v) ∅).

Definition getOutputLabels (vr : t) (labelsA labelsB : RouterLabels)
    : gmap nat (list ascii) :=
  let aOutputs := visibleAOutputs vr in
  let bOutputs := visibleBOutputs vr in
  loopAssign (length bOutputs) (length aOutputs)
    (λ v, outputLabelOf (outputLabels labelsB) <$> bOutputs !! v)
    (loopAssign (length aOutputs) 0
       (λ v, outputLabelOf (outputLabels labelsA) <$> aOutputs !! v) ∅).

(** The label object of router [r]. *)
Definition labelsOf (labelsA labelsB : RouterLabels) (r : Router) : RouterLabels :=
  match r with A => labelsA | B => labelsB end.

End VirtualLabels.

(** ** main.js: rebuilding the published state *)

Module Rebuild.

(** The object [virtualRouter]: the three fields the projection is
    computed from, and its field [tieLineState]. *)
Record Projection : Type := mkProjection {
  view : VirtualRouter.t;
  tieLineState : TieLineState
}.

(** The default of the constructor for a router state that is [null]. *)
Definition noRouter : RouterState := mkRouterState 0 0 ∅.

(** [new VirtualRouter(routerAState, routerBState, tieLineConfig,
    tieLineState)], the last two given. *)
Definition construct (routerAState routerBState : option RouterState)
    (tieLineConfig : TieLineConfig) (ts : TieLineState) : Projection :=
  mkProjection
    (VirtualRouter.mk (default noRouter routerAState)
       (default noRouter routerBState) tieLineConfig)
    ts.

(** [update(routerAState, routerBState, tieLineConfig, tieLineState)]: an
    argument that is [null] leaves its field as it is. *)
Definition update (routerAState routerBState : option RouterState)
    (tieLineConfig : option TieLineConfig) (ts : option TieLineState)
    (p : Projection) : Projection :=
  mkProjection
    (VirtualRouter.mk
       (default (VirtualRouter.routerA (view p)) routerAState)
       (default (VirtualRouter.routerB (view p)) routerBState)
       (default (VirtualRouter.tieLineConfig (view p)) tieLineConfig))
    (default (tieLineState p) ts).

(** [controller?.isConnected() ? controller.getState() : null] *)
Definition connectedState (c : Controller) : option RouterState :=
  if isConnected c then Some (getState c) else None.

(** [rebuildVirtualState], with an engine in place.  [tieLines] is
    [settings.tieLines] and [virtualRouter] the global of that name
    ([None] while it is not set).  The result is the new [virtualRouter]
    and the engine; what is sent to the renderer is [getState()] of the
    former, whose [routing] is [published] below. *)
Definition rebuildVirtualState (env : Controllers) (tieLines : TieLineConfig)
    (virtualRouter : option Projection) (tieLineEngine : Engine)
    : Projection * Engine :=
  let stateA := connectedState (controllerA env) in
  let stateB := connectedState (controllerB env) in
  let virtualRouter1 :=
    match virtualRouter with
    | None => construct stateA stateB tieLines (state tieLineEngine)
    | Some p =>
        update stateA stateB (Some tieLines) (Some (state tieLineEngine)) p
    end in
  if isConnected (controllerA env) && isConnected (controllerB env) then
    let tieLineEngine1 := reconstructStateFromRouting env tieLineEngine in
    (update None None None (Some (state tieLineEngine1)) virtualRouter1,
     tieLineEngine1)
  else (virtualRouter1, tieLineEngine).

(** The field [routing] of [virtualRouter.getState()]. *)
Definition published (p : Projection) : gmap nat Z :=
  VirtualTables.getVirtualRouting (view p) (tieLineState p).

End Rebuild.

(** ** The routers as they report after scenarios 2 and 3 *)

Module ScenarioRebuild.

(** After scenario 2: output 7 of A takes input 0, output 0 of B takes
    input 0 (the cable). *)
Definition env2 : Controllers :=
  mkControllers
    (mkController true (Scenario.router8 {[7 := 0]}) (λ _ _ _, true))
    (mkController true (Scenario.router8 {[0 := 0]}) (λ _ _ _, true)).

(** After scenario 3: output 1 of B takes input 0 as well. *)
Definition env3 : Controllers :=
  mkControllers
    (mkController true (Scenario.router8 {[7 := 0]}) (λ _ _ _, true))
    (mkController true (Scenario.router8 (<[0 := 0]> {[1 := 0]}))
       (λ _ _ _, true)).

End ScenarioRebuild.

(** * Properties of the virtual router *)

Module VirtualRouterFacts.
Import VirtualRouter.

Lemma elem_of_visiblePorts count excluded p :
  p ∈ visiblePorts count excluded ↔ p < count ∧ p ∉ excluded.
Proof.
  unfold visiblePorts. rewrite list_elem_of_filter, elem_of_seq.
  split; intros; split; try tauto; lia.
Qed.

Lemma NoDup_visiblePorts count excluded : NoDup (visiblePorts count excluded).
Proof. apply NoDup_filter, NoDup_seq. Qed.

Lemma at_index_Some arr v p :
  at_index arr v = Some p ↔ (0 ≤ v)%Z ∧ arr !! Z.to_nat v = Some p.
Proof.
  unfold at_index. case_decide.
  - split; [intros ?; by split | by intros [_ ?]].
  - split; [done | intros [? _]; lia].
Qed.

Lemma at_index_bound arr v p :
  at_index arr v = Some p → (0 ≤ v < Z.of_nat (length arr))%Z.
Proof.
  intros [Hv Hl]%at_index_Some. apply lookup_lt_Some in Hl. lia.
Qed.

Lemma at_index_in_range arr v :
  (0 ≤ v < Z.of_nat (length arr))%Z → ∃ p, at_index arr v = Some p.
Proof.
  intros Hv. destruct (lookup_lt_is_Some_2 arr (Z.to_nat v)) as [p Hp]; [lia|].
  exists p. apply at_index_Some. split; [lia|done].
Qed.

Lemma indexOf_lookup arr i p :
  NoDup arr → arr !! i = Some p → indexOf arr p = Z.of_nat i.
Proof.
  intros Hnd Hi. unfold indexOf.
  destruct (list_find (λ y, y = p) arr) as [[j q]|] eqn:Hf.
  - apply list_find_Some in Hf as (Hj & -> & _).
    f_equal. eapply NoDup_lookup; eauto.
  - apply list_find_None in Hf. rewrite Forall_forall in Hf.
    exfalso. eapply Hf; [|reflexivity]. eapply list_elem_of_lookup_2; eauto.
Qed.



(** On a position of the grid the resolved port is never [undefined]. *)
Lemma resolve_nat_defined vr (n : nat) r :
  (resolveInput vr (Z.of_nat n) = Some r → is_Some (physicalIndex r)) ∧
  (resolveOutput vr (Z.of_nat n) = Some r → is_Some (physicalIndex r)).
Proof.
  unfold resolveInput, resolveOutput.
  split; intros H; repeat case_decide; simplify_eq/=;
    match goal with
    | |- is_Some (at_index ?l ?v) =>
        destruct (at_index_in_range l v) as [p ->]; [lia|eauto]
    end.
Qed.

(** The shape shared by [resolveInput] and [resolveOutput], over the two
    visible sequences [la] (router A) and [lb] (router B). *)
Lemma resolve_shape (la lb : list nat) (v : Z) R p :
  (if decide (v < Z.of_nat (length la))%Z
   then Some (mkResolved A (at_index la v))
   else if decide (v - Z.of_nat (length la) < Z.of_nat (length lb))%Z
        then Some (mkResolved B (at_index lb (v - Z.of_nat (length la))))
        else None) = Some (mkResolved R (Some p)) ↔
  (R = A ∧ (0 ≤ v < Z.of_nat (length la))%Z ∧ la !! Z.to_nat v = Some p) ∨
  (R = B ∧ (Z.of_nat (length la) ≤ v < Z.of_nat (length la + length lb))%Z ∧
   lb !! Z.to_nat (v - Z.of_nat (length la)) = Some p).
Proof.
  split.
  - intros H. repeat case_decide; simplify_eq/=.
    + left. match goal with H : at_index _ _ = _ |- _ =>
        apply at_index_Some in H as [? ?] end. eauto with lia.
    + right. match goal with H : at_index _ _ = _ |- _ =>
        apply at_index_Some in H as [? ?] end. split_and!; eauto with lia.
  - intros [(-> & Hv & Hl)|(-> & Hv & Hl)].
    + rewrite decide_True by lia. do 2 f_equal. apply at_index_Some. eauto with lia.
    + rewrite decide_False by lia. rewrite decide_True by lia.
      do 2 f_equal. apply at_index_Some. eauto with lia.
Qed.



(** [indexOf] undoes the lookup, with the offset of router B. *)
Lemma toVirtual_shape (la lb : list nat) (v : Z) R p :
  NoDup la → NoDup lb →
  (R = A ∧ (0 ≤ v < Z.of_nat (length la))%Z ∧ la !! Z.to_nat v = Some p) ∨
  (R = B ∧ (Z.of_nat (length la) ≤ v < Z.of_nat (length la + length lb))%Z ∧
   lb !! Z.to_nat (v - Z.of_nat (length la)) = Some p) →
  match R with
  | A => let idx := indexOf la p in if decide (0 ≤ idx)%Z then idx else (-1)%Z
  | B => let idx := indexOf lb p in
         if decide (0 ≤ idx)%Z then (Z.of_nat (length la) + idx)%Z else (-1)%Z
  end = v.
Proof.
  intros Ha Hb [(-> & Hv & Hl)|(-> & Hv & Hl)]; cbv zeta.
  - rewrite (indexOf_lookup _ _ _ Ha Hl). rewrite decide_True by lia. lia.
  - rewrite (indexOf_lookup _ _ _ Hb Hl). rewrite decide_True by lia. lia.
Qed.

End VirtualRouterFacts.

(** * C9: the index mapping round trip *)

Section IndexMapping.
Import VirtualRouter VirtualRouterFacts.
Variable vr : VirtualRouter.t.


End IndexMapping.

(** * Properties of the tie-line engine *)

(** ** Pools and single-record updates *)

Lemma pool_setPool_eq d p st : pool d (setPool d p st) = p.
Proof. by destruct d. Qed.

Lemma pool_setPool_ne d d' p st : d ≠ d' → pool d' (setPool d p st) = pool d' st.
Proof. by destruct d, d'. Qed.

Lemma setPool_pool d st : setPool d (pool d st) st = st.
Proof. by destruct d, st. Qed.

Lemma routeAToB_cross env s d l st :
  _routeAToB env s d l st = routeCross dirAToB env s d l st.
Proof. reflexivity. Qed.

Lemma routeBToA_cross env s d l st :
  _routeBToA env s d l st = routeCross dirBToA env s d l st.
Proof. reflexivity. Qed.

Lemma cleanup_handle srcRouter dstRouter d st :
  _cleanupOutputTieLine srcRouter dstRouter d st
  = _handleOutputReassignment (poolInto dstRouter) d st.
Proof. by destruct dstRouter. Qed.

Lemma release_cases d idx dest st :
  _releaseTieLineDestination d idx dest st = st ∨
  ∃ tl, pool d st !! idx = Some tl ∧ status tl = in_use ∧
        _releaseTieLineDestination d idx dest st
        = setPool d (<[idx := released tl dest]> (pool d st)) st.
Proof.
  unfold _releaseTieLineDestination.
  destruct (pool d st !! idx) as [tl|] eqn:Hl; [|by left].
  case_decide as Hs; [by left|]. right. exists tl. split_and!; [done| |done].
  destruct (status tl); [by destruct Hs|done].
Qed.

Lemma handle_cases d dest st :
  (list_find (carries dest) (pool d st) = None ∧
   _handleOutputReassignment d dest st = st) ∨
  ∃ i old, list_find (carries dest) (pool d st) = Some (i, old) ∧
           _handleOutputReassignment d dest st
           = _releaseTieLineDestination d (index old) dest st.
Proof.
  unfold _handleOutputReassignment.
  destruct (list_find _ _) as [[i old]|] eqn:Hf; [right; eauto|by left].
Qed.

(** ** The records written by the engine *)

Lemma released_index tl d : index (released tl d) = index tl.
Proof. unfold released. by case_decide. Qed.

Lemma released_wiring tl d : wiring (released tl d) = wiring tl.
Proof. unfold released. by case_decide. Qed.

Lemma released_destinations tl d :
  destinations (released tl d) = filter (λ x, x ≠ d) (destinations tl).
Proof. unfold released. by case_decide. Qed.

Lemma released_consistent tl d :
  status tl = in_use → consistent tl → consistent (released tl d).
Proof.
  intros Hs [H1 H2]. unfold released.
  destruct (filter _ _) as [|x ds] eqn:Hf; simpl.
  - split; split; simpl; congruence.
  - split; split; simpl; intros; try done.
    apply H2, H1, Hs.
Qed.

Lemma addDestination_elem ds d x :
  x ∈ addDestination ds d ↔ x ∈ ds ∨ x = d.
Proof.
  unfold addDestination. case_decide.
  - split; [by left|]. intros [?| ->]; done.
  - rewrite elem_of_app, list_elem_of_singleton. done.
Qed.

Lemma addDestination_nonempty ds d : addDestination ds d ≠ [].
Proof.
  intros H. assert (d ∈ addDestination ds d) as Hd
    by (apply addDestination_elem; by right).
  rewrite H in Hd. by apply elem_of_nil in Hd.
Qed.

Lemma reused_consistent tl s d :
  carriesSource s tl →
  consistent (setDestinations tl (addDestination (destinations tl) d)).
Proof.
  intros [Hs Hsrc]. pose proof (addDestination_nonempty (destinations tl) d).
  split; split; simpl; intros; try done. congruence.
Qed.

Lemma markInUse_consistent tl s d : consistent (markInUse tl s [d]).
Proof. split; split; simpl; intros; done. Qed.

Lemma markFree_consistent tl : consistent (markFree tl []).
Proof. split; split; simpl; intros; done. Qed.

(** ** Invariants under the update of one record *)

Lemma positional_insert p i tl tl' :
  positional p → p !! i = Some tl → index tl' = index tl →
  positional (<[i := tl']> p).
Proof.
  intros Hp Hi Hidx j t Hj.
  apply list_lookup_insert_Some in Hj as [(-> & -> & _)|[? Hj]].
  - rewrite Hidx. by apply Hp.
  - by apply Hp.
Qed.

Lemma wiring_insert (p : list TieLine) i tl tl' :
  p !! i = Some tl → wiring tl' = wiring tl →
  wiring <$> <[i := tl']> p = wiring <$> p.
Proof.
  intros Hi Hin. rewrite list_fmap_insert, Hin.
  apply list_insert_id. by rewrite list_lookup_fmap, Hi.
Qed.

Lemma sinks_wiring (p : list TieLine) : tlInput <$> p = snd <$> (wiring <$> p).
Proof. by rewrite <- list_fmap_compose. Qed.

Lemma sameWiring_refl st : sameWiring st st.
Proof. by intros d. Qed.

Lemma sameWiring_trans st1 st2 st3 :
  sameWiring st1 st2 → sameWiring st2 st3 → sameWiring st1 st3.
Proof. intros H1 H2 d. by rewrite H2, H1. Qed.

Lemma sinksUnique_sameWiring st st' :
  sameWiring st st' → sinksUnique st → sinksUnique st'.
Proof. intros Hw Hs d. rewrite sinks_wiring, Hw, <- sinks_wiring. apply Hs. Qed.

Lemma exclusive_insert p i tl' :
  exclusive p →
  (∀ x j tj, x ∈ destinations tl' → j ≠ i → p !! j = Some tj →
             x ∉ destinations tj) →
  exclusive (<[i := tl']> p).
Proof.
  intros Hex Hnew a b ta tb d Ha Hb Hda Hdb.
  apply list_lookup_insert_Some in Ha as [(-> & -> & _)|[Hai Ha]];
    apply list_lookup_insert_Some in Hb as [(-> & -> & _)|[Hbi Hb]].
  - done.
  - exfalso. by eapply (Hnew d b tb).
  - exfalso. by eapply (Hnew d a ta).
  - by eapply Hex.
Qed.

Lemma exclusive_insert_shrink p i tl tl' :
  exclusive p → p !! i = Some tl →
  (∀ x, x ∈ destinations tl' → x ∈ destinations tl) →
  exclusive (<[i := tl']> p).
Proof.
  intros Hex Hi Hsub. apply exclusive_insert; [done|].
  intros x j tj Hx Hj Hlj Hxj. apply Hj. symmetry.
  eapply (Hex i j tl tj x); eauto.
Qed.

Lemma filter_none {X} (P : X → Prop) `{!∀ x, Decision (P x)} (l : list X) :
  Forall (λ x, ¬ P x) l → filter P l = [].
Proof.
  induction 1 as [|x l Hx _ IH]; [done|]. by rewrite filter_cons_False.
Qed.

(** Exclusivity as a count. *)
Lemma exclusive_holders p d : exclusive p → holders d p ≤ 1.
Proof.
  unfold holders. induction p as [|t p IH]; intros Hex; [simpl; lia|].
  assert (exclusive p) as Hp.
  { intros i j ti tj x Hi Hj ? ?.
    assert (S i = S j) by (eapply (Hex (S i) (S j)); eauto). lia. }
  rewrite filter_cons. case_decide as Ht; [|by apply IH].
  assert (filter (λ tl, d ∈ destinations tl) p = []) as ->; [|simpl; lia].
  apply filter_none, Forall_forall. intros tj [j Hj]%list_elem_of_lookup_1 Hd.
  assert (0 = S j) by (eapply (Hex 0 (S j) t tj d); eauto). lia.
Qed.

(** ** Invariants under the update of one record of one pool *)

Lemma wellFormed_update d i tl tl' st :
  wellFormed st → pool d st !! i = Some tl →
  index tl' = index tl → consistent tl' →
  wellFormed (setPool d (<[i := tl']> (pool d st)) st).
Proof.
  intros Hwf Hi Hidx Hc d'. destruct (decide (d = d')) as [<-|Hne].
  - rewrite pool_setPool_eq. destruct (Hwf d) as [Hp Hf]. split.
    + by eapply positional_insert.
    + by apply Forall_insert.
  - rewrite pool_setPool_ne by done. apply Hwf.
Qed.

Lemma sameWiring_update d i tl tl' st :
  pool d st !! i = Some tl → wiring tl' = wiring tl →
  sameWiring st (setPool d (<[i := tl']> (pool d st)) st).
Proof.
  intros Hi Hin d'. destruct (decide (d = d')) as [<-|Hne].
  - rewrite pool_setPool_eq. by erewrite wiring_insert.
  - by rewrite pool_setPool_ne.
Qed.

Lemma exclusiveState_update d i tl' st :
  exclusiveState st →
  (∀ x j tj, x ∈ destinations tl' → j ≠ i → pool d st !! j = Some tj →
             x ∉ destinations tj) →
  exclusiveState (setPool d (<[i := tl']> (pool d st)) st).
Proof.
  intros Hex Hnew d'. destruct (decide (d = d')) as [<-|Hne].
  - rewrite pool_setPool_eq. by apply exclusive_insert.
  - rewrite pool_setPool_ne by done. apply Hex.
Qed.

(** ** [_releaseTieLineDestination] and its two callers *)

Lemma release_wellFormed d idx dest st :
  wellFormed st → wellFormed (_releaseTieLineDestination d idx dest st).
Proof.
  intros Hwf. destruct (release_cases d idx dest st) as [->|(tl & Hl & Hs & ->)];
    [done|].
  eapply wellFormed_update; eauto using released_index.
  apply released_consistent; [done|].
  destruct (Hwf d) as [_ Hf]. by eapply (Forall_lookup_1 _ _ _ _ Hf).
Qed.

Lemma release_sameWiring d idx dest st :
  sameWiring st (_releaseTieLineDestination d idx dest st).
Proof.
  destruct (release_cases d idx dest st) as [->|(tl & Hl & _ & ->)];
    [apply sameWiring_refl|].
  eapply sameWiring_update; eauto using released_wiring.
Qed.

Lemma release_exclusiveState d idx dest st :
  exclusiveState st → exclusiveState (_releaseTieLineDestination d idx dest st).
Proof.
  intros Hex. destruct (release_cases d idx dest st) as [->|(tl & Hl & _ & ->)];
    [done|].
  apply exclusiveState_update; [done|].
  intros x j tj Hx Hj Hlj Hxj. apply Hj. symmetry.
  rewrite released_destinations in Hx. apply list_elem_of_filter in Hx as [_ Hx].
  eapply (Hex d idx j tl tj x); eauto.
Qed.

Lemma handle_wellFormed d dest st :
  wellFormed st → wellFormed (_handleOutputReassignment d dest st).
Proof.
  intros Hwf. destruct (handle_cases d dest st) as [[_ ->]|(i & old & _ & ->)];
    auto using release_wellFormed.
Qed.

Lemma handle_sameWiring d dest st :
  sameWiring st (_handleOutputReassignment d dest st).
Proof.
  destruct (handle_cases d dest st) as [[_ ->]|(i & old & _ & ->)];
    auto using release_sameWiring, sameWiring_refl.
Qed.

Lemma handle_exclusiveState d dest st :
  exclusiveState st → exclusiveState (_handleOutputReassignment d dest st).
Proof.
  intros Hwf. destruct (handle_cases d dest st) as [[_ ->]|(i & old & _ & ->)];
    auto using release_exclusiveState.
Qed.

(** With positional indices the record found by the search is the record
    released. *)
Lemma handle_found d dest st i old :
  positional (pool d st) →
  list_find (carries dest) (pool d st) = Some (i, old) →
  index old = i ∧
  _handleOutputReassignment d dest st
  = setPool d (<[i := released old dest]> (pool d st)) st.
Proof.
  intros Hp Hf. pose proof Hf as (Hi & [Hs _] & _)%list_find_Some.
  pose proof (Hp _ _ Hi) as Hidx. split; [done|].
  unfold _handleOutputReassignment, _releaseTieLineDestination.
  rewrite Hf, Hidx, Hi. rewrite decide_False by (intros ?; congruence).
  done.
Qed.

(** After the reassignment step no record of the pool holds the output. *)
Lemma handle_clears d dest st j tj :
  wellFormed st → exclusiveState st →
  pool d (_handleOutputReassignment d dest st) !! j = Some tj →
  dest ∉ destinations tj.
Proof.
  intros Hwf Hex Hj Hd. destruct (Hwf d) as [Hp Hc].
  destruct (list_find (carries dest) (pool d st)) as [[i old]|] eqn:Hf.
  - destruct (handle_found _ _ _ _ _ Hp Hf) as [_ Heq].
    rewrite Heq, pool_setPool_eq in Hj.
    pose proof Hf as (Hi & [_ Hin] & _)%list_find_Some.
    apply list_lookup_insert_Some in Hj as [(-> & <- & _)|[Hne Hj]].
    + rewrite released_destinations in Hd.
      apply list_elem_of_filter in Hd as [Hd _]. done.
    + apply Hne. eapply (Hex d i j old tj dest); eauto.
  - unfold _handleOutputReassignment in Hj. rewrite Hf in Hj.
    apply list_find_None in Hf.
    pose proof (Forall_lookup_1 _ _ _ _ Hf Hj) as Hnc.
    pose proof (Forall_lookup_1 _ _ _ _ Hc Hj) as [Hst _].
    apply Hnc. split; [|done]. apply Hst. intros E. rewrite E in Hd.
    by apply elem_of_nil in Hd.
Qed.

(** ** The cross-router functions *)

Lemma routeCross_state d env s dest l st :
  stateAfter (routeCross d env s dest l st) = st ∨
  (∃ i tl, list_find (carriesSource s) (pool d st) = Some (i, tl) ∧
     stateAfter (routeCross d env s dest l st)
     = setPool d (<[i := setDestinations tl
                           (addDestination (destinations tl) dest)]> (pool d st)) st) ∨
  (∃ i tl, list_find (carriesSource s) (pool d st) = None ∧
     list_find isFree (pool d st) = Some (i, tl) ∧
     stateAfter (routeCross d env s dest l st)
     = setPool d (<[i := markInUse tl s [dest]]> (pool d st)) st).
Proof.
  unfold routeCross.
  repeat (case_match; simpl; simplify_eq; eauto 10).
Qed.

Lemma routeCross_wellFormed d env s dest l st :
  wellFormed st → wellFormed (stateAfter (routeCross d env s dest l st)).
Proof.
  intros Hwf.
  destruct (routeCross_state d env s dest l st)
    as [->|[(i & tl & Hf & ->)|(i & tl & _ & Hf & ->)]]; [done| |];
    apply list_find_Some in Hf as (Hi & HP & _);
    eapply wellFormed_update; eauto using reused_consistent, markInUse_consistent.
Qed.

Lemma routeCross_sameWiring d env s dest l st :
  sameWiring st (stateAfter (routeCross d env s dest l st)).
Proof.
  destruct (routeCross_state d env s dest l st)
    as [->|[(i & tl & Hf & ->)|(i & tl & _ & Hf & ->)]]; [apply sameWiring_refl| |];
    apply list_find_Some in Hf as (Hi & HP & _);
    eapply sameWiring_update; eauto.
Qed.

Lemma routeCross_exclusiveState d env s dest l st :
  exclusiveState st →
  (∀ j tj, pool d st !! j = Some tj → dest ∉ destinations tj) →
  exclusiveState (stateAfter (routeCross d env s dest l st)).
Proof.
  intros Hex Hfree.
  destruct (routeCross_state d env s dest l st)
    as [->|[(i & tl & Hf & ->)|(i & tl & _ & Hf & ->)]]; [done| |];
    apply list_find_Some in Hf as (Hi & HP & _);
    apply exclusiveState_update; try done; simpl.
  - intros x j tj [Hx| ->]%addDestination_elem Hj Hlj Hxj.
    + apply Hj. symmetry. eapply (Hex d i j tl tj x); eauto.
    + by eapply Hfree.
  - intros x j tj ->%list_elem_of_singleton Hj Hlj. by eapply Hfree.
Qed.

(** ** [executeVirtualRoute]: the three ways a call can go *)

Lemma execute_cases env vo vi vr l st :
  executeVirtualRoute env vo vi vr l st
    = mkOutcome st [] (Failure InvalidVirtualIndex false) ∨
  (∃ r s d,
     VirtualRouter.resolveInput vr vi = Some (VirtualRouter.mkResolved r s) ∧
     VirtualRouter.resolveOutput vr vo = Some (VirtualRouter.mkResolved r d) ∧
     executeVirtualRoute env vo vi vr l st
       = _routeDirect env r s d l (_handleOutputReassignment (poolInto r) d st)) ∨
  (∃ dir s d,
     VirtualRouter.resolveInput vr vi
       = Some (VirtualRouter.mkResolved (nearRouter dir) s) ∧
     VirtualRouter.resolveOutput vr vo
       = Some (VirtualRouter.mkResolved (farRouter dir) d) ∧
     executeVirtualRoute env vo vi vr l st
       = routeCross dir env s d l (_handleOutputReassignment dir d st)).
Proof.
  unfold executeVirtualRoute.
  destruct (VirtualRouter.resolveInput vr _) as [[rs s]|];
    destruct (VirtualRouter.resolveOutput vr _) as [[rd d]|]; auto.
  simpl. destruct rs, rd.
  - right; left. exists A, s, d. by rewrite cleanup_handle.
  - right; right. by exists dirAToB, s, d.
  - right; right. by exists dirBToA, s, d.
  - right; left. exists B, s, d. by rewrite cleanup_handle.
Qed.

Lemma routeDirect_state env r s d l st :
  stateAfter (_routeDirect env r s d l st) = st.
Proof. unfold _routeDirect. by repeat case_match. Qed.

Lemma execute_wellFormed env vo vi vr l st :
  wellFormed st → wellFormed (stateAfter (executeVirtualRoute env vo vi vr l st)).
Proof.
  intros Hwf.
  destruct (execute_cases env vo vi vr l st)
    as [->|[(r & s & d & _ & _ & ->)|(dir & s & d & _ & _ & ->)]]; [done| |].
  - rewrite routeDirect_state. by apply handle_wellFormed.
  - by apply routeCross_wellFormed, handle_wellFormed.
Qed.

Lemma execute_sameWiring env vo vi vr l st :
  sameWiring st (stateAfter (executeVirtualRoute env vo vi vr l st)).
Proof.
  destruct (execute_cases env vo vi vr l st)
    as [->|[(r & s & d & _ & _ & ->)|(dir & s & d & _ & _ & ->)]];
    [apply sameWiring_refl| |].
  - rewrite routeDirect_state. apply handle_sameWiring.
  - eapply sameWiring_trans; [apply handle_sameWiring|apply routeCross_sameWiring].
Qed.

Lemma execute_exclusiveState env vo vi vr l st :
  wellFormed st → exclusiveState st →
  exclusiveState (stateAfter (executeVirtualRoute env vo vi vr l st)).
Proof.
  intros Hwf Hex.
  destruct (execute_cases env vo vi vr l st)
    as [->|[(r & s & d & _ & _ & ->)|(dir & s & d & _ & _ & ->)]]; [done| |].
  - rewrite routeDirect_state. by apply handle_exclusiveState.
  - apply routeCross_exclusiveState; [by apply handle_exclusiveState|].
    intros j tj Hj. by eapply handle_clears.
Qed.

(** ** [initializeState] and [releaseAllTieLines] *)

Lemma lookup_imap_fresh (l : list TieLineMapping) i tl :
  imap freshTieLine l !! i = Some tl → ∃ m, l !! i = Some m ∧ tl = freshTieLine i m.
Proof.
  rewrite list_lookup_imap. intros (m & Hm & ->)%fmap_Some. eauto.
Qed.

Lemma imap_fresh_wiring (l : list TieLineMapping) :
  wiring <$> imap freshTieLine l = cable <$> l.
Proof.
  apply list_eq. intros i. rewrite !list_lookup_fmap, list_lookup_imap.
  by destruct (l !! i).
Qed.

Lemma fresh_pool (l : list TieLineMapping) :
  positional (imap freshTieLine l) ∧ Forall consistent (imap freshTieLine l) ∧
  exclusive (imap freshTieLine l).
Proof.
  split_and!.
  - intros i tl (m & _ & ->)%lookup_imap_fresh. done.
  - apply Forall_lookup. intros i tl (m & _ & ->)%lookup_imap_fresh.
    apply (markFree_consistent (freshTieLine i m)).
  - intros i j ti tj d (m & _ & ->)%lookup_imap_fresh _ Hd. simpl in Hd.
    by apply elem_of_nil in Hd.
Qed.

Lemma initializeState_wellFormed cfg : wellFormed (initializeState cfg).
Proof. intros []; simpl; split; apply fresh_pool. Qed.

Lemma initializeState_exclusiveState cfg : exclusiveState (initializeState cfg).
Proof. intros []; simpl; apply fresh_pool. Qed.

Lemma initializeState_sinksUnique cfg :
  inputsUnique cfg → sinksUnique (initializeState cfg).
Proof.
  intros [Ha Hb] []; simpl; rewrite sinks_wiring, imap_fresh_wiring,
    <- list_fmap_compose; done.
Qed.

Lemma newEngine_wired cfg : wired (newEngine cfg).
Proof. split; apply imap_fresh_wiring. Qed.

Lemma releaseAll_pool d st :
  pool d (releaseAllTieLines st) = (λ tieLine, markFree tieLine []) <$> pool d st.
Proof. by destruct d. Qed.

Lemma releaseAll_wellFormed st :
  wellFormed st → wellFormed (releaseAllTieLines st).
Proof.
  intros Hwf d. rewrite releaseAll_pool. destruct (Hwf d) as [Hp _]. split.
  - intros i tl. rewrite list_lookup_fmap. intros (t & Ht & ->)%fmap_Some.
    simpl. by apply Hp.
  - apply Forall_fmap, Forall_forall. intros t _. apply markFree_consistent.
Qed.

Lemma releaseAll_exclusiveState st : exclusiveState (releaseAllTieLines st).
Proof.
  intros d. rewrite releaseAll_pool. intros i j ti tj x.
  rewrite list_lookup_fmap. intros (t & _ & ->)%fmap_Some _ Hx.
  by apply elem_of_nil in Hx.
Qed.

Lemma releaseAll_sameWiring st : sameWiring st (releaseAllTieLines st).
Proof. intros d. by rewrite releaseAll_pool, <- list_fmap_compose. Qed.

(** ** Reconstruction *)

Lemma elem_of_entries (m : gmap nat nat) o i :
  (o, i) ∈ entries m ↔ m !! o = Some i.
Proof.
  unfold entries. rewrite merge_sort_Permutation. apply elem_of_map_to_list.
Qed.

Lemma elem_of_collectDestinations farRouting farOutputs sinkInput o :
  o ∈ collectDestinations farRouting farOutputs sinkInput ↔
  farRouting !! o = Some sinkInput ∧ (o ∉ farOutputs) ∧ o ≠ sinkInput.
Proof.
  unfold collectDestinations. rewrite list_elem_of_fmap. split.
  - intros ([o' i] & -> & H). apply list_elem_of_filter in H as [(Hi & Hn & Hne) H].
    simpl in *. subst i. by apply elem_of_entries in H.
  - intros (Hl & Hn & Hne). exists (o, sinkInput). split; [done|].
    apply list_elem_of_filter. split; [done|]. by apply elem_of_entries.
Qed.

Lemma reconstructTieLine_cases nearRouting farRouting farOutputs tl :
  let ds := collectDestinations farRouting farOutputs (tlInput tl) in
  (∃ s, nearRouting !! tlOutput tl = Some s ∧ ds ≠ [] ∧
        reconstructTieLine nearRouting farRouting farOutputs tl
          = markInUse tl (Some s) (Some <$> ds)) ∨
  ((nearRouting !! tlOutput tl = None ∨ ds = []) ∧
   reconstructTieLine nearRouting farRouting farOutputs tl = markFree tl []).
Proof.
  unfold reconstructTieLine.
  destruct (nearRouting !! tlOutput tl) as [s|]; [|right; auto].
  destruct (collectDestinations _ _ _) as [|x ds] eqn:Hd.
  - right. auto.
  - left. exists s. rewrite decide_True by (simpl; lia). done.
Qed.

Lemma reconstructTieLine_index n f o tl :
  index (reconstructTieLine n f o tl) = index tl.
Proof.
  destruct (reconstructTieLine_cases n f o tl) as [(s & _ & _ & ->)|[_ ->]]; done.
Qed.

Lemma reconstructTieLine_wiring n f o tl :
  wiring (reconstructTieLine n f o tl) = wiring tl.
Proof.
  destruct (reconstructTieLine_cases n f o tl) as [(s & _ & _ & ->)|[_ ->]]; done.
Qed.

Lemma reconstructTieLine_consistent n f o tl :
  consistent (reconstructTieLine n f o tl).
Proof.
  destruct (reconstructTieLine_cases n f o tl) as [(s & _ & Hd & ->)|[_ ->]].
  - destruct (collectDestinations _ _ _); [done|].
    split; split; simpl; intros; done.
  - apply markFree_consistent.
Qed.

Lemma reconstructTieLine_routed n f o tl d :
  d ∈ destinations (reconstructTieLine n f o tl) →
  ∃ x, d = Some x ∧ f !! x = Some (tlInput tl).
Proof.
  destruct (reconstructTieLine_cases n f o tl) as [(s & _ & _ & ->)|[_ ->]]; simpl.
  - intros (x & -> & (? & _)%elem_of_collectDestinations)%list_elem_of_fmap. eauto.
  - by intros ?%elem_of_nil.
Qed.

Lemma reconstruct_pool_wf n f o (p : list TieLine) :
  positional p →
  positional (reconstructTieLine n f o <$> p) ∧
  Forall consistent (reconstructTieLine n f o <$> p).
Proof.
  intros Hp. split.
  - intros i tl. rewrite list_lookup_fmap. intros (t & Ht & ->)%fmap_Some.
    rewrite reconstructTieLine_index. by apply Hp.
  - apply Forall_fmap, Forall_forall. intros t _.
    apply reconstructTieLine_consistent.
Qed.

Lemma reconstruct_pool_exclusive n f o (p : list TieLine) :
  NoDup (tlInput <$> p) → exclusive (reconstructTieLine n f o <$> p).
Proof.
  intros Hnd i j ti tj d. rewrite !list_lookup_fmap.
  intros (t1 & H1 & ->)%fmap_Some (t2 & H2 & ->)%fmap_Some
         (x1 & -> & Hd1)%reconstructTieLine_routed
         (x2 & [= <-] & Hd2)%reconstructTieLine_routed.
  eapply (NoDup_lookup _ _ _ _ Hnd); rewrite list_lookup_fmap.
  - by rewrite H1.
  - rewrite H2. simpl. congruence.
Qed.

Lemma reconstruct_pool_wiring n f o (p : list TieLine) :
  wiring <$> (reconstructTieLine n f o <$> p) = wiring <$> p.
Proof.
  rewrite <- list_fmap_compose. apply list_fmap_ext.
  intros i t _. apply reconstructTieLine_wiring.
Qed.

Lemma reconstruct_config env e :
  config (reconstructStateFromRouting env e) = config e.
Proof. unfold reconstructStateFromRouting. by case_match. Qed.

Lemma reconstruct_wellFormed env e :
  wellFormed (state e) → wellFormed (state (reconstructStateFromRouting env e)).
Proof.
  intros Hwf. unfold reconstructStateFromRouting. case_match; [done|].
  intros []; simpl; apply reconstruct_pool_wf;
    [apply (Hwf dirAToB)|apply (Hwf dirBToA)].
Qed.

Lemma reconstruct_sameWiring env e :
  sameWiring (state e) (state (reconstructStateFromRouting env e)).
Proof.
  unfold reconstructStateFromRouting. case_match; [apply sameWiring_refl|].
  intros []; simpl; apply reconstruct_pool_wiring.
Qed.

Lemma reconstruct_exclusiveState env e :
  sinksUnique (state e) → exclusiveState (state e) →
  exclusiveState (state (reconstructStateFromRouting env e)).
Proof.
  intros Hs Hex. unfold reconstructStateFromRouting. case_match; [done|].
  intros []; simpl; apply reconstruct_pool_exclusive;
    [apply (Hs dirAToB)|apply (Hs dirBToA)].
Qed.

Lemma updateConfig_cases env cfg e :
  updateConfig env cfg e = newEngine cfg ∨
  updateConfig env cfg e = reconstructStateFromRouting env (newEngine cfg).
Proof. unfold updateConfig, newEngine. case_match; auto. Qed.

(** * Invariants of the reachable states *)

Lemma step_wellFormed accept e e' :
  step accept e e' → wellFormed (state e) → wellFormed (state e').
Proof.
  intros [] Hwf; cbn [state].
  - by apply execute_wellFormed.
  - by apply release_wellFormed.
  - by apply releaseAll_wellFormed.
  - match goal with |- context [updateConfig ?a ?b ?c] =>
      destruct (updateConfig_cases a b c) as [->| ->] end.
    + apply initializeState_wellFormed.
    + apply reconstruct_wellFormed, initializeState_wellFormed.
  - by apply reconstruct_wellFormed.
Qed.

Lemma reachable_wellFormed accept e :
  reachable accept e → wellFormed (state e).
Proof.
  induction 1 as [cfg _|e e' _ IH Hstep].
  - apply initializeState_wellFormed.
  - by eapply step_wellFormed.
Qed.

Lemma wired_sameWiring cfg st st' :
  sameWiring st st' → wired (mkEngine cfg st) → wired (mkEngine cfg st').
Proof.
  intros Hw [Ha Hb]. pose proof (Hw dirAToB) as HA. pose proof (Hw dirBToA) as HB.
  split; simpl in *; congruence.
Qed.

Lemma reconstruct_wired env e : wired e → wired (reconstructStateFromRouting env e).
Proof.
  intros Hw. pose proof (reconstruct_sameWiring env e) as Hs.
  pose proof (reconstruct_config env e) as Hc.
  destruct (reconstructStateFromRouting env e) as [c st]. simpl in *. subst c.
  destruct e as [c0 st0]. by eapply wired_sameWiring.
Qed.

Lemma step_wired accept e e' : step accept e e' → wired e → wired e'.
Proof.
  intros [] Hw.
  - destruct e as [c st]. eapply wired_sameWiring; [apply execute_sameWiring|done].
  - destruct e as [c st]. eapply wired_sameWiring; [apply release_sameWiring|done].
  - destruct e as [c st]. eapply wired_sameWiring; [apply releaseAll_sameWiring|done].
  - match goal with |- context [updateConfig ?a ?b ?c] =>
      destruct (updateConfig_cases a b c) as [->| ->] end.
    + apply newEngine_wired.
    + apply reconstruct_wired, newEngine_wired.
  - by apply reconstruct_wired.
Qed.

Lemma reachable_wired accept e : reachable accept e → wired e.
Proof.
  induction 1 as [cfg _|e e' _ IH Hstep].
  - apply newEngine_wired.
  - by eapply step_wired.
Qed.

Lemma step_exclusive e e' :
  step inputsUnique e e' → wellFormed (state e) →
  sinksUnique (state e) ∧ exclusiveState (state e) →
  sinksUnique (state e') ∧ exclusiveState (state e').
Proof.
  intros [] Hwf [Hs Hex]; cbn [state].
  - split; [|by apply execute_exclusiveState].
    eapply sinksUnique_sameWiring; [apply execute_sameWiring|done].
  - split; [|by apply release_exclusiveState].
    eapply sinksUnique_sameWiring; [apply release_sameWiring|done].
  - split; [|apply releaseAll_exclusiveState].
    eapply sinksUnique_sameWiring; [apply releaseAll_sameWiring|done].
  - match goal with |- context [updateConfig ?a ?b ?c] =>
      pose proof (initializeState_sinksUnique b ltac:(done)) as Hs0;
      pose proof (initializeState_exclusiveState b) as Hex0;
      destruct (updateConfig_cases a b c) as [->| ->]; [done|] end.
    split; [|by apply reconstruct_exclusiveState].
    eapply sinksUnique_sameWiring; [apply reconstruct_sameWiring|done].
  - split; [|by apply reconstruct_exclusiveState].
    eapply sinksUnique_sameWiring; [apply reconstruct_sameWiring|done].
Qed.

Lemma reachable_exclusive e :
  reachable inputsUnique e → sinksUnique (state e) ∧ exclusiveState (state e).
Proof.
  induction 1 as [cfg Hcfg|e e' Hr IH Hstep].
  - split; [by apply initializeState_sinksUnique|apply initializeState_exclusiveState].
  - eapply step_exclusive; eauto using reachable_wellFormed.
Qed.

Lemma scenario_e2_reachable accept :
  accept Scenario.cfg → reachable accept Scenario.e2.
Proof.
  intros Hc. apply (reachable_step _ Scenario.e0); [by apply reachable_new|].
  exact (step_executeVirtualRoute accept Scenario.env 7 0 Scenario.vr 0 Scenario.e0).
Defined.

Lemma scenario_e3_reachable accept :
  accept Scenario.cfg → reachable accept Scenario.e3.
Proof.
  intros Hc. apply (reachable_step _ Scenario.e2); [by apply scenario_e2_reachable|].
  exact (step_executeVirtualRoute accept Scenario.env 8 0 Scenario.vr 0 Scenario.e2).
Defined.

Lemma scenario_eNegative_reachable accept :
  accept Scenario.cfg → reachable accept Scenario.eNegative.
Proof.
  intros Hc. apply (reachable_step _ Scenario.e0); [by apply reachable_new|].
  exact (step_executeVirtualRoute accept Scenario.env 7 (-1) Scenario.vr 0
           Scenario.e0).
Defined.

Lemma scenario_cfg_inputsUnique : inputsUnique Scenario.cfg.
Proof. split; simpl; [apply NoDup_singleton|apply NoDup_nil_2]. Defined.

(** ** The scenario states, evaluated *)

Example scenario_e2_state :
  state Scenario.e2 = mkState [Scenario.carrying 0 [0]] [].
Proof. reflexivity. Qed.

Example scenario_e3_state :
  state Scenario.e3 = mkState [Scenario.carrying 0 [0; 1]] [].
Proof. reflexivity. Qed.

Example scenario_eTwo_state : state Scenario.eTwo = Scenario.twoBusy.
Proof. reflexivity. Qed.

(** A negative index passes the comparison with the length and reads
    [undefined] from the array. *)
Example resolveInput_negative :
  VirtualRouter.resolveInput Scenario.vr (-1)
  = Some (VirtualRouter.mkResolved A None).
Proof. reflexivity. Qed.

Lemma scenario_cfg2_inputsUnique : inputsUnique Scenario.cfg2.
Proof.
  split; simpl; [|apply NoDup_nil_2].
  apply NoDup_cons. split; [|apply NoDup_singleton].
  intros H%list_elem_of_singleton. discriminate H.
Defined.

Lemma scenario_eTwo1_reachable accept :
  accept Scenario.cfg2 → reachable accept Scenario.eTwo1.
Proof.
  intros Hc. apply (reachable_step _ Scenario.eTwo0); [by apply reachable_new|].
  exact (step_executeVirtualRoute accept Scenario.env 8 0 Scenario.vr2 0
           Scenario.eTwo0).
Defined.

Lemma scenario_eTwo_reachable accept :
  accept Scenario.cfg2 → reachable accept Scenario.eTwo.
Proof.
  intros Hc. apply (reachable_step _ Scenario.eTwo1);
    [by apply scenario_eTwo1_reachable|].
  exact (step_executeVirtualRoute accept Scenario.env 9 1 Scenario.vr2 0
           Scenario.eTwo1).
Defined.

Lemma scenario_eTwoMoved_reachable accept :
  accept Scenario.cfg2 → reachable accept Scenario.eTwoMoved.
Proof.
  intros Hc. apply (reachable_step _ Scenario.eTwo); [by apply scenario_eTwo_reachable|].
  exact (step_executeVirtualRoute accept Scenario.env 8 1 Scenario.vr2 0
           Scenario.eTwo).
Defined.

Example scenario_eTwoMoved_state :
  state Scenario.eTwoMoved
  = mkState [mkTieLine 0 6 0 free None [];
             mkTieLine 1 7 1 in_use (Some (Some 1)) [Some 3; Some 2]] [].
Proof. reflexivity. Qed.

(** ** Status consistency

    After every operation a record is in use iff it has destinations iff
    its [sourceInput] is not [null]. *)
Lemma reachable_consistent accept e d i tl :
  reachable accept e → pool d (state e) !! i = Some tl → consistent tl.
Proof.
  intros Hr Hl. destruct (reachable_wellFormed _ _ Hr d) as [_ Hc].
  exact (Forall_lookup_1 _ _ _ _ Hc Hl).
Qed.

(** C1. The call [executeVirtualRoute(7, -1, virtualRouter, 0)] on the
    fresh engine of the scenarios (one cable from output 7 of A to input 0
    of B, both controllers connected and acknowledging): the virtual input
    -1 resolves to router A with an undefined port, the call is not
    rejected, it sends [setRoute(7, undefined, 0)] to A and
    [setRoute(0, 0, 0)] to B, returns success, and leaves the record in use
    with destinations [0] and a [sourceInput] that is undefined.  So the
    state reached breaks status consistency as the claim states it: an
    in-use record whose [sourceInput] is not defined. *)
Theorem negative_input_commits_undefined_source :
  let out :=
    executeVirtualRoute Scenario.env 7 (-1) Scenario.vr 0 (state Scenario.e0) in
  VirtualRouter.resolveInput Scenario.vr (-1)
    = Some (VirtualRouter.mkResolved A None) ∧
  result out = SuccessTieLine 0 false ∧
  issued out = [SetRoute A (Some 7) None 0; SetRoute B (Some 0) (Some 0) 0] ∧
  aToB (stateAfter out) = [mkTieLine 0 7 0 in_use (Some None) [Some 0]] ∧
  Scenario.eNegative = mkEngine (config Scenario.e0) (stateAfter out) ∧
  reachable anyConfig Scenario.eNegative ∧
  ¬ (∀ d i tl, pool d (state Scenario.eNegative) !! i = Some tl →
       status tl = in_use → ∃ s : nat, sourceInput tl = Some (Some s)).
Proof.
  cbv zeta. split_and!; try reflexivity.
  - exact (scenario_eNegative_reachable anyConfig I).
  - intros H.
    destruct (H dirAToB 0 (mkTieLine 0 7 0 in_use (Some None) [Some 0]))
      as [s Hs]; [reflexivity|reflexivity|discriminate Hs].
Qed.

(** C2. In every state reachable under configurations in which no input
    index repeats within a direction, each physical destination port is in
    the destinations of at most one record of each pool. *)
Theorem exclusivity e d p :
  reachable inputsUnique e → holders p (pool d (state e)) ≤ 1.
Proof.
  intros Hr. apply exclusive_holders. by apply reachable_exclusive.
Qed.

Lemma exclusivity_witness :
  holders (Some 2) (pool dirAToB (state Scenario.eTwoMoved)) ≤ 1.
Proof.
  apply (exclusivity Scenario.eTwoMoved dirAToB (Some 2)).
  apply scenario_eTwoMoved_reachable. exact scenario_cfg2_inputsUnique.
Defined.

(** C10. In every reachable state the record at position [i] of a pool has
    [index = i]; hence the release that follows a search (which passes the
    [index] field of the record found, and reads the pool at that position)
    rewrites exactly the record that was found. *)
Theorem positional_index e d :
  reachable anyConfig e →
  (∀ i tl, pool d (state e) !! i = Some tl → index tl = i) ∧
  (∀ dest i old,
     list_find (carries dest) (pool d (state e)) = Some (i, old) →
     pool d (state e) !! index old = Some old ∧
     _releaseTieLineDestination d (index old) dest (state e)
     = setPool d (<[i := released old dest]> (pool d (state e))) (state e)).
Proof.
  intros Hr. destruct (reachable_wellFormed _ _ Hr d) as [Hp _].
  split; [exact Hp|]. intros dest i old Hf.
  destruct (handle_found _ _ _ _ _ Hp Hf) as [Hidx Heq].
  pose proof Hf as (Hi & _)%list_find_Some. split; [by rewrite Hidx|].
  rewrite <- Heq. unfold _handleOutputReassignment. by rewrite Hf.
Qed.

Lemma positional_index_witness :
  index (Scenario.carrying 0 [0; 1]) = 0 ∧
  _releaseTieLineDestination dirAToB (index (Scenario.carrying 0 [0; 1])) (Some 1)
    (state Scenario.e3)
  = setPool dirAToB
      (<[0 := released (Scenario.carrying 0 [0; 1]) (Some 1)]>
         (pool dirAToB (state Scenario.e3)))
      (state Scenario.e3).
Proof.
  pose proof (positional_index Scenario.e3 dirAToB
                (scenario_e3_reachable anyConfig I)) as [Hpos Hrel].
  split.
  - apply (Hpos 0). reflexivity.
  - apply (Hrel (Some 1) 0 (Scenario.carrying 0 [0; 1])). reflexivity.
Defined.

(** * What one call does *)

(** ** Dispatch *)

Lemma execute_cross env vo vi vr l st dir s d :
  VirtualRouter.resolveInput vr vi
    = Some (VirtualRouter.mkResolved (nearRouter dir) s) →
  VirtualRouter.resolveOutput vr vo
    = Some (VirtualRouter.mkResolved (farRouter dir) d) →
  executeVirtualRoute env vo vi vr l st
  = routeCross dir env s d l (_handleOutputReassignment dir d st).
Proof.
  intros Hi Ho. unfold executeVirtualRoute. rewrite Hi, Ho. by destruct dir.
Qed.

Lemma execute_direct env vo vi vr l st r s d :
  VirtualRouter.resolveInput vr vi
    = Some (VirtualRouter.mkResolved r s) →
  VirtualRouter.resolveOutput vr vo
    = Some (VirtualRouter.mkResolved r d) →
  executeVirtualRoute env vo vi vr l st
  = _routeDirect env r s d l (_handleOutputReassignment (poolInto r) d st).
Proof.
  intros Hi Ho. unfold executeVirtualRoute. rewrite Hi, Ho.
  destruct r; by rewrite cleanup_handle.
Qed.

Lemma connected_both env dir :
  isConnected (controllerA env) = true → isConnected (controllerB env) = true →
  isConnected (controllerOf env (nearRouter dir)) = true ∧
  isConnected (controllerOf env (farRouter dir)) = true.
Proof. by destruct dir. Qed.

(** ** Counting in-use records *)

Lemma inUseCount_app p q : inUseCount (p ++ q) = inUseCount p + inUseCount q.
Proof. unfold inUseCount. by rewrite filter_app, length_app. Qed.

Lemma inUseCount_cons tl p : inUseCount (tl :: p) = inUseBit tl + inUseCount p.
Proof.
  unfold inUseCount, inUseBit. rewrite filter_cons. by case_decide.
Qed.

Lemma inUseCount_insert p i tl tl' :
  p !! i = Some tl →
  inUseCount (<[i := tl']> p) + inUseBit tl = inUseCount p + inUseBit tl'.
Proof.
  intros Hi. pose proof (lookup_lt_Some _ _ _ Hi) as Hlt.
  rewrite insert_take_drop by done.
  rewrite <- (take_drop_middle p i tl Hi) at 3.
  rewrite !inUseCount_app, !inUseCount_cons. lia.
Qed.

Lemma released_inUseBit old d :
  status old = in_use →
  inUseBit (released old d)
  = if decide (length (filter (λ x, x ≠ d) (destinations old)) = 0) then 0 else 1.
Proof.
  intros Hs. unfold released, inUseBit. cbv zeta.
  destruct (decide (length (filter (λ x, x ≠ d) (destinations old)) = 0)); simpl.
  - done.
  - by rewrite decide_True.
Qed.

(** The reassignment step lowers the number of in-use records of its pool
    by [freedByReassignment]. *)
Lemma handle_inUseCount dir d st :
  positional (pool dir st) →
  inUseCount (pool dir (_handleOutputReassignment dir d st))
    + freedByReassignment dir d st
  = inUseCount (pool dir st).
Proof.
  intros Hp. unfold freedByReassignment.
  destruct (list_find (carries d) (pool dir st)) as [[i old]|] eqn:Hf.
  - destruct (handle_found _ _ _ _ _ Hp Hf) as [_ ->].
    rewrite pool_setPool_eq.
    apply list_find_Some in Hf as (Hi & [Hs _] & _).
    pose proof (inUseCount_insert _ _ _ (released old d) Hi) as Hc.
    rewrite (released_inUseBit _ _ Hs) in Hc.
    unfold inUseBit in Hc. rewrite decide_True in Hc by done.
    case_decide; lia.
  - unfold _handleOutputReassignment. rewrite Hf. lia.
Qed.

(** A free record stays as it is through the reassignment step. *)
Lemma handle_keeps_free dir d st i tl :
  positional (pool dir st) →
  pool dir st !! i = Some tl → status tl = free →
  pool dir (_handleOutputReassignment dir d st) !! i = Some tl.
Proof.
  intros Hp Hi Hs.
  destruct (list_find (carries d) (pool dir st)) as [[k old]|] eqn:Hf.
  - destruct (handle_found _ _ _ _ _ Hp Hf) as [_ ->].
    rewrite pool_setPool_eq.
    apply list_find_Some in Hf as (Hk & [Hso _] & _).
    rewrite list_lookup_insert_ne; [done|]. intros ->. congruence.
  - unfold _handleOutputReassignment. by rewrite Hf.
Qed.

Lemma handle_other_pool dir dir' d st :
  dir ≠ dir' → pool dir' (_handleOutputReassignment dir d st) = pool dir' st.
Proof.
  intros Hne. destruct (handle_cases dir d st) as [[_ ->]|(i & old & _ & ->)];
    [done|].
  destruct (release_cases dir (index old) d st) as [->|(tl & _ & _ & ->)]; [done|].
  by apply pool_setPool_ne.
Qed.

Lemma handle_length dir dir' d st :
  length (pool dir' (_handleOutputReassignment dir d st)) = length (pool dir' st).
Proof.
  pose proof (handle_sameWiring dir d st dir') as H.
  apply (f_equal length) in H. by rewrite !length_fmap in H.
Qed.

(** ** The branches of [routeCross] *)

Lemma routeCross_reused dir env s d l st idx :
  result (routeCross dir env s d l st) = SuccessTieLine idx true →
  ∃ i tl,
    list_find (carriesSource s) (pool dir st) = Some (i, tl) ∧ idx = index tl ∧
    issued (routeCross dir env s d l st)
      = [SetRoute (farRouter dir) d (Some (tlInput tl)) l] ∧
    stateAfter (routeCross dir env s d l st)
      = setPool dir (<[i := setDestinations tl
                              (addDestination (destinations tl) d)]> (pool dir st)) st.
Proof.
  unfold routeCross.
  repeat (case_match; simpl; simplify_eq; try done).
  intros [= <-]. eauto 10.
Qed.

Lemma routeCross_reuse_failure dir env s d l st i tl :
  isConnected (controllerOf env (nearRouter dir)) = true →
  isConnected (controllerOf env (farRouter dir)) = true →
  list_find (carriesSource s) (pool dir st) = Some (i, tl) →
  acks (controllerOf env (farRouter dir)) d (Some (tlInput tl)) l = false →
  routeCross dir env s d l st
  = mkOutcome st [SetRoute (farRouter dir) d (Some (tlInput tl)) l]
      (Failure (RouteFailed (farRouter dir)) false).
Proof.
  intros Hn Hf Hfind Hack. unfold routeCross.
  rewrite Hn, Hf, Hfind, Hack. done.
Qed.

Lemma routeCross_exhausted dir env s d l st :
  isConnected (controllerOf env (nearRouter dir)) = true →
  isConnected (controllerOf env (farRouter dir)) = true →
  list_find (carriesSource s) (pool dir st) = None →
  list_find isFree (pool dir st) = None →
  routeCross dir env s d l st
  = mkOutcome st []
      (Failure (AllTieLinesInUse dir (length (pool dir st))) false).
Proof.
  intros Hn Hf Hfind Hfree. unfold routeCross.
  rewrite Hn, Hf, Hfind, Hfree. done.
Qed.

Lemma routeCross_partial dir env s d l st i tl :
  isConnected (controllerOf env (nearRouter dir)) = true →
  isConnected (controllerOf env (farRouter dir)) = true →
  list_find (carriesSource s) (pool dir st) = None →
  list_find isFree (pool dir st) = Some (i, tl) →
  acks (controllerOf env (nearRouter dir)) (Some (tlOutput tl)) s l = true →
  acks (controllerOf env (farRouter dir)) d (Some (tlInput tl)) l = false →
  routeCross dir env s d l st
  = mkOutcome st
      [SetRoute (nearRouter dir) (Some (tlOutput tl)) s l;
       SetRoute (farRouter dir) d (Some (tlInput tl)) l]
      (Failure (RouteFailed (farRouter dir)) true).
Proof.
  intros Hn Hf Hfind Hfree Hack1 Hack2. unfold routeCross.
  rewrite Hn, Hf, Hfind, Hfree, Hack1, Hack2. done.
Qed.

(** * C3: reuse *)

(** The claim as stated fails: cable 0 carries input 0 of A to output 2 of
    B and cable 1 carries input 1 to output 3; routing output 2 of B
    (virtual output 8) to input 1 succeeds with [reused = true] on cable 1,
    and the reassignment step has set cable 0 free: two in-use records
    before the call, one after. *)
Lemma reuse_minimality_counterexample :
  result (executeVirtualRoute Scenario.env 8 1 Scenario.vr2 0 (state Scenario.eTwo))
    = SuccessTieLine 1 true ∧
  inUseCount (aToB (state Scenario.eTwo)) = 2 ∧
  inUseCount
    (aToB (stateAfter
             (executeVirtualRoute Scenario.env 8 1 Scenario.vr2 0
                (state Scenario.eTwo)))) = 1.
Proof. split_and!; reflexivity. Qed.

(** C3, amended.  After an inter-router call that succeeds with
    [reused = true], the number of in-use records of the pool is the number
    before the call minus the records set free by the reassignment step of
    that call (one when the destination was the only destination of the
    record that carried it, none otherwise); so it never grows.  Every
    record that was free before the call is unchanged, and the other pool is
    unchanged. *)
Theorem reuse_minimality e env vo vi vr l dir s d idx :
  reachable anyConfig e →
  VirtualRouter.resolveInput vr vi
    = Some (VirtualRouter.mkResolved (nearRouter dir) s) →
  VirtualRouter.resolveOutput vr vo
    = Some (VirtualRouter.mkResolved (farRouter dir) d) →
  result (executeVirtualRoute env vo vi vr l (state e)) = SuccessTieLine idx true →
  inUseCount (pool dir (stateAfter (executeVirtualRoute env vo vi vr l (state e))))
    + freedByReassignment dir d (state e)
  = inUseCount (pool dir (state e)) ∧
  inUseCount (pool dir (stateAfter (executeVirtualRoute env vo vi vr l (state e))))
    ≤ inUseCount (pool dir (state e)) ∧
  (∀ i tl, pool dir (state e) !! i = Some tl → status tl = free →
     pool dir (stateAfter (executeVirtualRoute env vo vi vr l (state e))) !! i
     = Some tl) ∧
  (∀ dir', dir ≠ dir' →
     pool dir' (stateAfter (executeVirtualRoute env vo vi vr l (state e)))
     = pool dir' (state e)).
Proof.
  intros Hr Hi Ho Hres. rewrite (execute_cross _ _ _ _ _ _ _ _ _ Hi Ho) in *.
  destruct (reachable_wellFormed _ _ Hr dir) as [Hp _].
  apply routeCross_reused in Hres as (i & tl & Hf & _ & _ & ->).
  pose proof Hf as (Hl & [Hs _] & _)%list_find_Some.
  pose proof (handle_inUseCount dir d (state e) Hp) as Hcount.
  assert (inUseCount
            (<[i := setDestinations tl (addDestination (destinations tl) d)]>
               (pool dir (_handleOutputReassignment dir d (state e))))
          = inUseCount (pool dir (_handleOutputReassignment dir d (state e))))
    as Hsame.
  { pose proof (inUseCount_insert _ _ _
      (setDestinations tl (addDestination (destinations tl) d)) Hl) as Hc.
    unfold inUseBit in Hc; simpl in Hc. lia. }
  rewrite pool_setPool_eq, Hsame. split_and!; [lia|lia| |].
  - intros k t Hk Hfree.
    pose proof (handle_keeps_free dir d _ _ _ Hp Hk Hfree) as Hk'.
    rewrite list_lookup_insert_ne; [done|]. intros ->. congruence.
  - intros dir' Hne. rewrite pool_setPool_ne by done.
    by apply handle_other_pool.
Qed.

Lemma reuse_minimality_witness :
  inUseCount
    (pool dirAToB
       (stateAfter (executeVirtualRoute Scenario.env 8 1 Scenario.vr2 0
                      (state Scenario.eTwo))))
    + freedByReassignment dirAToB (Some 2) (state Scenario.eTwo)
  = inUseCount (pool dirAToB (state Scenario.eTwo)).
Proof.
  apply (reuse_minimality Scenario.eTwo Scenario.env 8 1 Scenario.vr2 0
           dirAToB (Some 1) (Some 2) 1).
  - apply scenario_eTwo_reachable. exact I.
  - reflexivity.
  - reflexivity.
  - reflexivity.
Defined.

(** * C4: exhaustion *)

(** The claim as stated fails: the only cable carries input 0 of A to
    output 0 of B (virtual output 7), so the pool has no record carrying
    input 1 and no free record; yet routing virtual output 7 to input 1
    succeeds and issues two commands, because the reassignment step first
    sets the cable free.  And when the cable also feeds output 1 of B but
    router B is not connected, the same request fails with "Router B is
    not connected", not with "all tie-lines in use". *)
Lemma exhaustion_counterexample :
  list_find (carriesSource (Some 1)) (aToB (state Scenario.e2)) = None ∧
  list_find isFree (aToB (state Scenario.e2)) = None ∧
  result (executeVirtualRoute Scenario.env 7 1 Scenario.vr 0 (state Scenario.e2))
    = SuccessTieLine 0 false ∧
  issued (executeVirtualRoute Scenario.env 7 1 Scenario.vr 0 (state Scenario.e2))
    = [SetRoute A (Some 7) (Some 1) 0; SetRoute B (Some 0) (Some 0) 0] ∧
  list_find (carriesSource (Some 1)) (aToB (state Scenario.e3)) = None ∧
  list_find isFree (aToB (state Scenario.e3)) = None ∧
  result (executeVirtualRoute Scenario.envBDown 7 1 Scenario.vr 0
            (state Scenario.e3))
    = Failure (RouterNotConnected B) false.
Proof. split_and!; reflexivity. Qed.

Lemma find_insert_None {X} (P : X → Prop) `{!∀ x, Decision (P x)}
    (p : list X) i x :
  list_find P p = None → ¬ P x → list_find P (<[i := x]> p) = None.
Proof.
  rewrite !list_find_None. intros Hp Hx. by apply Forall_insert.
Qed.

(** C4, amended.  With both controllers connected, when the pool has no
    in-use record carrying the source and no free record, and the
    destination is not the only destination of an in-use record of the pool,
    the call fails with "all N of N in use" and issues no [setRoute].  The
    state it leaves is the one left by the reassignment step: the state
    before the call when no in-use record of the pool carried the
    destination, and otherwise the state before the call with the
    destination removed from the record that carried it, which keeps its
    source and stays in use. *)
Theorem exhaustion e env vo vi vr l dir s d :
  reachable anyConfig e →
  VirtualRouter.resolveInput vr vi
    = Some (VirtualRouter.mkResolved (nearRouter dir) s) →
  VirtualRouter.resolveOutput vr vo
    = Some (VirtualRouter.mkResolved (farRouter dir) d) →
  isConnected (controllerA env) = true →
  isConnected (controllerB env) = true →
  list_find (carriesSource s) (pool dir (state e)) = None →
  list_find isFree (pool dir (state e)) = None →
  freedByReassignment dir d (state e) = 0 →
  result (executeVirtualRoute env vo vi vr l (state e))
    = Failure (AllTieLinesInUse dir (length (pool dir (state e)))) false ∧
  issued (executeVirtualRoute env vo vi vr l (state e)) = [] ∧
  stateAfter (executeVirtualRoute env vo vi vr l (state e))
    = _handleOutputReassignment dir d (state e) ∧
  (list_find (carries d) (pool dir (state e)) = None →
   stateAfter (executeVirtualRoute env vo vi vr l (state e)) = state e) ∧
  (∀ k old, list_find (carries d) (pool dir (state e)) = Some (k, old) →
   stateAfter (executeVirtualRoute env vo vi vr l (state e))
   = setPool dir (<[k := released old d]> (pool dir (state e))) (state e) ∧
   status (released old d) = in_use ∧
   sourceInput (released old d) = sourceInput old ∧
   destinations (released old d) = filter (λ x, x ≠ d) (destinations old)).
Proof.
  intros Hr Hi Ho HA HB Hsrc Hfree Hfreed.
  rewrite (execute_cross _ _ _ _ _ _ _ _ _ Hi Ho).
  destruct (reachable_wellFormed _ _ Hr dir) as [Hp _].
  destruct (connected_both env dir HA HB) as [Hn Hf].
  assert (∀ (P : TieLine → Prop) `{!∀ x, Decision (P x)},
            (∀ tl x, P tl → status tl = in_use → P (setDestinations tl x)) →
            (∀ tl x, ¬ P tl → status tl = in_use → ¬ P (setDestinations tl x)) →
            list_find P (pool dir (state e)) = None →
            list_find P (pool dir (_handleOutputReassignment dir d (state e))) = None)
    as Hkeep.
  { intros P HP _ Hneg Hnone. unfold freedByReassignment in Hfreed.
    destruct (list_find (carries d) (pool dir (state e))) as [[k old]|] eqn:Hc.
    - destruct (handle_found _ _ _ _ _ Hp Hc) as [_ ->].
      rewrite pool_setPool_eq. apply find_insert_None; [done|].
      apply list_find_Some in Hc as (Hk & [Hin _] & _).
      apply list_find_None in Hnone.
      pose proof (Forall_lookup_1 _ _ _ _ Hnone Hk) as Hn'.
      unfold released. case_decide; [done|]. by apply Hneg.
    - unfold _handleOutputReassignment. by rewrite Hc. }
  rewrite routeCross_exhausted; try done.
  - simpl. rewrite handle_length. split_and!; try done.
    + intros Hnone. unfold _handleOutputReassignment. by rewrite Hnone.
    + intros k old Hc. destruct (handle_found _ _ _ _ _ Hp Hc) as [_ ->].
      split; [done|]. unfold freedByReassignment in Hfreed. rewrite Hc in Hfreed.
      apply list_find_Some in Hc as (_ & [Hin _] & _).
      unfold released. case_decide; [done|]. done.
  - apply Hkeep; [| |done].
    + intros tl x [H1 H2] _. by split.
    + intros tl x Hn' _ [H1 H2]. apply Hn'. by split.
  - apply Hkeep; [| |done].
    + by intros tl x H _.
    + intros tl x Hn' Hin H. unfold isFree in H. simpl in H. congruence.
Qed.

Lemma exhaustion_witness :
  result (executeVirtualRoute Scenario.env 7 1 Scenario.vr 0 (state Scenario.e3))
    = Failure (AllTieLinesInUse dirAToB 1) false ∧
  issued (executeVirtualRoute Scenario.env 7 1 Scenario.vr 0 (state Scenario.e3))
    = [] ∧
  stateAfter (executeVirtualRoute Scenario.env 7 1 Scenario.vr 0 (state Scenario.e3))
    = mkState [Scenario.carrying 0 [1]] [].
Proof.
  destruct (exhaustion Scenario.e3 Scenario.env 7 1 Scenario.vr 0 dirAToB
              (Some 1) (Some 0) (scenario_e3_reachable anyConfig I)
              eq_refl eq_refl eq_refl eq_refl eq_refl eq_refl eq_refl)
    as (Hres & Hiss & _ & _ & Hrel).
  split_and!; [exact Hres|exact Hiss|].
  exact (proj1 (Hrel 0 (Scenario.carrying 0 [0; 1]) eq_refl)).
Defined.

(** * C5: partial failure *)

(** C5. On the allocation path of an inter-router call (after the
    reassignment step no in-use record carries the source, and [tl] at
    position [i] is the first free record), if the source-side [setRoute]
    is acknowledged and the destination-side one is not, the call returns a
    failure with [partialFailure = true], the commands issued are exactly
    those two (nothing undoes the source leg), and the chosen record is
    still [tl]: free, [sourceInput] null, no destinations. *)
Theorem partial_failure e env vo vi vr l dir s d i tl :
  reachable anyConfig e →
  VirtualRouter.resolveInput vr vi
    = Some (VirtualRouter.mkResolved (nearRouter dir) s) →
  VirtualRouter.resolveOutput vr vo
    = Some (VirtualRouter.mkResolved (farRouter dir) d) →
  isConnected (controllerA env) = true →
  isConnected (controllerB env) = true →
  list_find (carriesSource s)
    (pool dir (_handleOutputReassignment dir d (state e))) = None →
  list_find isFree
    (pool dir (_handleOutputReassignment dir d (state e))) = Some (i, tl) →
  acks (controllerOf env (nearRouter dir)) (Some (tlOutput tl)) s l = true →
  acks (controllerOf env (farRouter dir)) d (Some (tlInput tl)) l = false →
  result (executeVirtualRoute env vo vi vr l (state e))
    = Failure (RouteFailed (farRouter dir)) true ∧
  issued (executeVirtualRoute env vo vi vr l (state e))
    = [SetRoute (nearRouter dir) (Some (tlOutput tl)) s l;
       SetRoute (farRouter dir) d (Some (tlInput tl)) l] ∧
  pool dir (stateAfter (executeVirtualRoute env vo vi vr l (state e))) !! i
    = Some tl ∧
  status tl = free ∧ sourceInput tl = None ∧ destinations tl = [].
Proof.
  intros Hr Hi Ho HA HB Hsrc Hfree Hack1 Hack2.
  rewrite (execute_cross _ _ _ _ _ _ _ _ _ Hi Ho).
  destruct (connected_both env dir HA HB) as [Hn Hf].
  rewrite (routeCross_partial _ _ _ _ _ _ _ _ Hn Hf Hsrc Hfree Hack1 Hack2).
  simpl. apply list_find_Some in Hfree as (Hl & Hst & _).
  pose proof (handle_wellFormed dir d _ (reachable_wellFormed _ _ Hr) dir)
    as [_ Hc].
  pose proof (Forall_lookup_1 _ _ _ _ Hc Hl) as [H1 H2].
  unfold isFree in Hst.
  assert (destinations tl = []) as Hd.
  { destruct (destinations tl) eqn:E; [done|].
    assert (status tl = in_use) by (apply H1; done). congruence. }
  split_and!; try done.
  destruct (sourceInput tl) eqn:E; [|done].
  exfalso. apply H2; [done|done].
Qed.

Lemma partial_failure_witness :
  result (executeVirtualRoute Scenario.envBRejects 7 0 Scenario.vr 0
            (state Scenario.e0))
    = Failure (RouteFailed B) true ∧
  issued (executeVirtualRoute Scenario.envBRejects 7 0 Scenario.vr 0
            (state Scenario.e0))
    = [SetRoute A (Some 7) (Some 0) 0; SetRoute B (Some 0) (Some 0) 0] ∧
  pool dirAToB
    (stateAfter (executeVirtualRoute Scenario.envBRejects 7 0 Scenario.vr 0
                   (state Scenario.e0))) !! 0
    = Some (mkTieLine 0 7 0 free None []) ∧
  status (mkTieLine 0 7 0 free None []) = free ∧
  sourceInput (mkTieLine 0 7 0 free None []) = None ∧
  destinations (mkTieLine 0 7 0 free None []) = [].
Proof.
  apply (partial_failure Scenario.e0 Scenario.envBRejects 7 0 Scenario.vr 0
           dirAToB (Some 0) (Some 0) 0 (mkTieLine 0 7 0 free None [])).
  - apply reachable_new. exact I.
  - reflexivity.
  - reflexivity.
  - reflexivity.
  - reflexivity.
  - reflexivity.
  - reflexivity.
  - reflexivity.
  - reflexivity.
Defined.

(** * C8: failure on the reuse path *)

(** The claim as stated fails: with cable 0 carrying input 0 to output 2 of
    B and cable 1 carrying input 1 to output 3, routing output 2 (virtual
    output 8) to input 1 takes the reuse path on cable 1; router B rejects
    the command and the call fails, but the reassignment step has already
    set cable 0 free. *)
Lemma reuse_failure_counterexample :
  list_find (carriesSource (Some 1)) (aToB (state Scenario.eTwo))
    = Some (1, mkTieLine 1 7 1 in_use (Some (Some 1)) [Some 3]) ∧
  result (executeVirtualRoute Scenario.envBRejects 8 1 Scenario.vr2 0
            (state Scenario.eTwo))
    = Failure (RouteFailed B) false ∧
  stateAfter (executeVirtualRoute Scenario.envBRejects 8 1 Scenario.vr2 0
                (state Scenario.eTwo))
    = mkState [mkTieLine 0 6 0 free None [];
               mkTieLine 1 7 1 in_use (Some (Some 1)) [Some 3]] [] ∧
  stateAfter (executeVirtualRoute Scenario.envBRejects 8 1 Scenario.vr2 0
                (state Scenario.eTwo))
    ≠ state Scenario.eTwo.
Proof. split_and!; [reflexivity..|]. intros H. discriminate H. Qed.

(** C8, amended.  When an inter-router call takes the reuse path (after the
    reassignment step an in-use record [tl] carries the source) and the
    destination-side [setRoute] is not acknowledged, the call returns a
    failure, that command is the only one issued, and the state is the one
    left by the reassignment step: the state before the call when no in-use
    record carried the destination, and otherwise the state before the call
    with the destination removed from the record that carried it (set free
    if that empties it). *)
Theorem reuse_failure_state e env vo vi vr l dir s d i tl :
  reachable anyConfig e →
  VirtualRouter.resolveInput vr vi
    = Some (VirtualRouter.mkResolved (nearRouter dir) s) →
  VirtualRouter.resolveOutput vr vo
    = Some (VirtualRouter.mkResolved (farRouter dir) d) →
  isConnected (controllerA env) = true →
  isConnected (controllerB env) = true →
  list_find (carriesSource s)
    (pool dir (_handleOutputReassignment dir d (state e))) = Some (i, tl) →
  acks (controllerOf env (farRouter dir)) d (Some (tlInput tl)) l = false →
  result (executeVirtualRoute env vo vi vr l (state e))
    = Failure (RouteFailed (farRouter dir)) false ∧
  issued (executeVirtualRoute env vo vi vr l (state e))
    = [SetRoute (farRouter dir) d (Some (tlInput tl)) l] ∧
  stateAfter (executeVirtualRoute env vo vi vr l (state e))
    = _handleOutputReassignment dir d (state e) ∧
  (list_find (carries d) (pool dir (state e)) = None →
   stateAfter (executeVirtualRoute env vo vi vr l (state e)) = state e) ∧
  (∀ k old, list_find (carries d) (pool dir (state e)) = Some (k, old) →
   stateAfter (executeVirtualRoute env vo vi vr l (state e))
   = setPool dir (<[k := released old d]> (pool dir (state e))) (state e)).
Proof.
  intros Hr Hi Ho HA HB Hsrc Hack.
  rewrite (execute_cross _ _ _ _ _ _ _ _ _ Hi Ho).
  destruct (connected_both env dir HA HB) as [Hn Hf].
  rewrite (routeCross_reuse_failure _ _ _ _ _ _ _ _ Hn Hf Hsrc Hack). simpl.
  destruct (reachable_wellFormed _ _ Hr dir) as [Hp _].
  split_and!; try done.
  - intros Hnone. unfold _handleOutputReassignment. by rewrite Hnone.
  - intros k old Hc. by destruct (handle_found _ _ _ _ _ Hp Hc) as [_ ->].
Qed.

Lemma reuse_failure_state_witness :
  stateAfter (executeVirtualRoute Scenario.envBRejects 8 1 Scenario.vr2 0
                (state Scenario.eTwo))
  = _handleOutputReassignment dirAToB (Some 2) (state Scenario.eTwo).
Proof.
  exact (proj1 (proj2 (proj2
    (reuse_failure_state Scenario.eTwo Scenario.envBRejects 8 1 Scenario.vr2 0
       dirAToB (Some 1) (Some 2) 1 (mkTieLine 1 7 1 in_use (Some (Some 1)) [Some 3])
       (scenario_eTwo_reachable anyConfig I)
       eq_refl eq_refl eq_refl eq_refl eq_refl eq_refl)))).
Defined.

(** * C6: a route inside one router *)

(** The claim as stated fails, in two ways.  Router B is not connected:
    routing virtual output 8 (output 1 of B) to virtual input 13 (input 6
    of B) removes output 1 from the cable's destinations and then issues no
    [setRoute] at all.  And two cables end in the same input of B and the
    reconstruction has given output 3 of B to both records: routing virtual
    output 9 (output 3 of B) to virtual input 12 (input 5 of B) sets the
    first record free and leaves output 3 in the second. *)
Lemma intra_router_counterexample :
  VirtualRouter.resolveInput Scenario.vr 13
    = Some (VirtualRouter.mkResolved B (Some 6)) ∧
  VirtualRouter.resolveOutput Scenario.vr 8
    = Some (VirtualRouter.mkResolved B (Some 1)) ∧
  executeVirtualRoute Scenario.envBDown 8 13 Scenario.vr 0 (state Scenario.e3)
    = mkOutcome (mkState [Scenario.carrying 0 [0]] []) []
        (Failure (RouterNotConnected B) false) ∧
  reachable anyConfig Scenario.eShared ∧
  state Scenario.eShared
    = mkState [mkTieLine 0 6 0 in_use (Some (Some 1)) [Some 3];
               mkTieLine 1 7 0 in_use (Some (Some 2)) [Some 3]] [] ∧
  VirtualRouter.resolveInput Scenario.vrShared 12
    = Some (VirtualRouter.mkResolved B (Some 5)) ∧
  VirtualRouter.resolveOutput Scenario.vrShared 9
    = Some (VirtualRouter.mkResolved B (Some 3)) ∧
  executeVirtualRoute Scenario.envShared 9 12 Scenario.vrShared 0
    (state Scenario.eShared)
    = mkOutcome
        (mkState [mkTieLine 0 6 0 free None [];
                  mkTieLine 1 7 0 in_use (Some (Some 2)) [Some 3]] [])
        [SetRoute B (Some 3) (Some 5) 0] SuccessDirect.
Proof.
  split_and!; try reflexivity.
  apply (reachable_step _ (newEngine Scenario.cfgShared));
    [by apply reachable_new|].
  exact (step_reconstruct anyConfig Scenario.envShared
           (newEngine Scenario.cfgShared)).
Qed.

Lemma released_status old d :
  status old = in_use →
  (destinations (released old d) = [] →
     status (released old d) = free ∧ sourceInput (released old d) = None) ∧
  (destinations (released old d) ≠ [] →
     status (released old d) = in_use ∧
     sourceInput (released old d) = sourceInput old).
Proof.
  intros Hs. unfold released. cbv zeta.
  destruct (filter (λ x, x ≠ d) (destinations old)) as [|x ds] eqn:Hf; simpl.
  - split; [done|]. intros H. by destruct H.
  - split; [intros [=]|done].
Qed.

Lemma reachable_mono (accept accept' : TieLineConfig → Prop) e :
  (∀ cfg, accept cfg → accept' cfg) → reachable accept e → reachable accept' e.
Proof.
  intros Hsub. induction 1 as [cfg Hc|e e' _ IH Hstep].
  - apply reachable_new. by apply Hsub.
  - apply (reachable_step _ e); [done|].
    destruct Hstep; try (by constructor). constructor. by apply Hsub.
Qed.

(** C6, amended.  For a call whose source and destination are on the same
    router [r], whatever the configurations: the state after the call is
    the state before it, except that the first in-use record of the pool
    directed into [r] that holds the destination has the destination
    removed, and is set free with [sourceInput] null exactly when that
    empties its destinations; the other records and the other pool are
    untouched.  When no in-use record holds the destination the state is
    unchanged.  That first record is the only record holding the
    destination when no input index repeats within a direction of the
    configurations.  If the controller of [r] is connected, exactly one
    command is issued, [setRoute(dstPort, srcPort, level)] on [r]; if it is
    not connected no command is issued and the call fails. *)
Theorem intra_router_release e env vo vi vr l r s d :
  reachable anyConfig e →
  VirtualRouter.resolveInput vr vi
    = Some (VirtualRouter.mkResolved r s) →
  VirtualRouter.resolveOutput vr vo
    = Some (VirtualRouter.mkResolved r d) →
  match list_find (carries d) (pool (poolInto r) (state e)) with
  | None =>
      stateAfter (executeVirtualRoute env vo vi vr l (state e)) = state e ∧
      (∀ j tj, pool (poolInto r) (state e) !! j = Some tj →
               status tj = in_use → d ∉ destinations tj)
  | Some (i, old) =>
      stateAfter (executeVirtualRoute env vo vi vr l (state e))
      = setPool (poolInto r)
          (<[i := released old d]> (pool (poolInto r) (state e))) (state e) ∧
      pool (poolInto r) (state e) !! i = Some old ∧
      status old = in_use ∧ d ∈ destinations old ∧
      (∀ j tj, pool (poolInto r) (state e) !! j = Some tj → j < i →
               ¬ (status tj = in_use ∧ d ∈ destinations tj)) ∧
      destinations (released old d) = filter (λ x, x ≠ d) (destinations old) ∧
      (destinations (released old d) = [] →
         status (released old d) = free ∧ sourceInput (released old d) = None) ∧
      (destinations (released old d) ≠ [] →
         status (released old d) = in_use ∧
         sourceInput (released old d) = sourceInput old) ∧
      (reachable inputsUnique e →
       ∀ j tj, pool (poolInto r) (state e) !! j = Some tj →
               d ∈ destinations tj → j = i)
  end ∧
  issued (executeVirtualRoute env vo vi vr l (state e))
    = (if isConnected (controllerOf env r) then [SetRoute r d s l] else []) ∧
  (isConnected (controllerOf env r) = false →
   result (executeVirtualRoute env vo vi vr l (state e))
   = Failure (RouterNotConnected r) false).
Proof.
  intros Hr Hi Ho. rewrite (execute_direct _ _ _ _ _ _ _ _ _ Hi Ho).
  rewrite routeDirect_state.
  destruct (reachable_wellFormed _ _ Hr (poolInto r)) as [Hp _].
  split_and!.
  - destruct (list_find (carries d) (pool (poolInto r) (state e)))
      as [[i old]|] eqn:Hf.
    + destruct (handle_found _ _ _ _ _ Hp Hf) as [_ ->].
      apply list_find_Some in Hf as (Hl & [Hs Hin] & Hfirst).
      destruct (released_status old d Hs) as [H1 H2].
      split_and!; try done.
      * apply released_destinations.
      * intros Hu j tj Hj Hd. destruct (reachable_exclusive _ Hu) as [_ Hex].
        eapply (Hex (poolInto r) j i tj old d); eauto.
    + split; [unfold _handleOutputReassignment; by rewrite Hf|].
      apply list_find_None in Hf. intros j tj Hj Hs Hd.
      apply (Forall_lookup_1 _ _ _ _ Hf Hj). by split.
  - unfold _routeDirect.
    replace (match r with A => controllerA env | B => controllerB env end)
      with (controllerOf env r) by done.
    destruct (isConnected (controllerOf env r)); simpl; [|done].
    by case_match.
  - intros Hc. unfold _routeDirect.
    replace (match r with A => controllerA env | B => controllerB env end)
      with (controllerOf env r) by done.
    by rewrite Hc.
Qed.

Lemma intra_router_release_witness :
  stateAfter (executeVirtualRoute Scenario.env 8 13 Scenario.vr 0 (state Scenario.e3))
    = mkState [Scenario.carrying 0 [0]] [] ∧
  issued (executeVirtualRoute Scenario.env 8 13 Scenario.vr 0 (state Scenario.e3))
    = [SetRoute B (Some 1) (Some 6) 0].
Proof.
  pose proof (intra_router_release Scenario.e3 Scenario.env 8 13 Scenario.vr 0 B
                (Some 6) (Some 1) (scenario_e3_reachable anyConfig I)
                eq_refl eq_refl) as [Hstate [Hissued _]].
  split; [exact (proj1 Hstate)|exact Hissued].
Defined.

(** * C7: reconstruction *)

Lemma reconstructTieLine_as near far (farSources : list nat) m tl :
  wiring tl = cable m →
  reconstructedAs near far farSources m
    (reconstructTieLine near far (list_to_set farSources) tl).
Proof.
  intros Hw. unfold wiring, cable in Hw.
  assert (tlOutput tl = cableOutput m ∧ tlInput tl = cableInput m) as [HO HI]
    by (split; congruence).
  assert (∀ o, o ∈ collectDestinations far (list_to_set farSources) (tlInput tl)
               ↔ inD far farSources (cableInput m) o) as HD.
  { intros o. rewrite elem_of_collectDestinations, HI. unfold inD.
    by rewrite elem_of_list_to_set. }
  unfold reconstructedAs. cbv zeta. split_and!.
  - by rewrite reconstructTieLine_wiring.
  - intros [[s Hs] [o Ho]].
    destruct (reconstructTieLine_cases near far (list_to_set farSources) tl)
      as [(s' & Hs' & Hne & ->)|[[Hnone|Hnil] ->]]; simpl.
    + rewrite <- HO, Hs'. split_and!; [done|done|].
      intros p. rewrite list_elem_of_fmap. split.
      * intros (x & -> & Hx). exists x. split; [done|]. by apply HD.
      * intros (x & -> & Hx). exists x. split; [done|]. by apply HD.
    + rewrite HO in Hnone. congruence.
    + apply (proj2 (HD o)) in Ho. rewrite Hnil in Ho. by apply elem_of_nil in Ho.
  - intros Hnot.
    destruct (reconstructTieLine_cases near far (list_to_set farSources) tl)
      as [(s' & Hs' & Hne & ->)|[_ ->]]; simpl; [|done].
    exfalso. apply Hnot. split.
    + rewrite <- HO. eauto.
    + destruct (collectDestinations far (list_to_set farSources) (tlInput tl))
        as [|o ds] eqn:E; [done|].
      exists o. apply HD. apply list_elem_of_here.
Qed.

Lemma wired_lookup (p : list TieLine) (c : list TieLineMapping) i m :
  wiring <$> p = cable <$> c → c !! i = Some m →
  ∃ tl, p !! i = Some tl ∧ wiring tl = cable m.
Proof.
  intros Hw Hm. assert ((wiring <$> p) !! i = Some (cable m)) as H
    by (by rewrite Hw, list_lookup_fmap, Hm).
  rewrite list_lookup_fmap in H. apply fmap_Some in H as (tl & Hl & Heq). eauto.
Qed.

(** C7. With both routers connected, reconstruction leaves in the record of
    every configured A→B cable (aOut, bIn): in-use with
    [sourceInput = routingA[aOut]] and destinations the set
    [{ o | routingB[o] = bIn, o not a configured B→A source output, o <> bIn }]
    when [routingA[aOut]] is defined and that set is nonempty, and free with
    null [sourceInput] and no destinations otherwise; and the same for every
    B→A cable with the two routers exchanged.  On the routing tables of
    scenario 6 the record becomes
    [{sourceInput: 3, destinations: [4, 5]}]. *)
Theorem reconstruction_correct env e :
  reachable anyConfig e →
  isConnected (controllerA env) = true →
  isConnected (controllerB env) = true →
  (∀ i m, cfg_aToB (config e) !! i = Some m →
     ∃ tl, aToB (state (reconstructStateFromRouting env e)) !! i = Some tl ∧
           reconstructedAs (routing (getState (controllerA env)))
             (routing (getState (controllerB env)))
             (cableOutput <$> cfg_bToA (config e)) m tl) ∧
  (∀ i m, cfg_bToA (config e) !! i = Some m →
     ∃ tl, bToA (state (reconstructStateFromRouting env e)) !! i = Some tl ∧
           reconstructedAs (routing (getState (controllerB env)))
             (routing (getState (controllerA env)))
             (cableOutput <$> cfg_aToB (config e)) m tl) ∧
  aToB (state (reconstructStateFromRouting Scenario.envReconstruct Scenario.e0))
    = [mkTieLine 0 7 0 in_use (Some (Some 3)) [Some 4; Some 5]].
Proof.
  intros Hr HA HB. destruct (reachable_wired _ _ Hr) as [Hwa Hwb].
  unfold reconstructStateFromRouting. rewrite HA, HB. simpl.
  split_and!.
  - intros i m Hm. destruct (wired_lookup _ _ _ _ Hwa Hm) as (tl & Hl & Hw).
    eexists. rewrite list_lookup_fmap, Hl. split; [done|].
    by apply reconstructTieLine_as.
  - intros i m Hm. destruct (wired_lookup _ _ _ _ Hwb Hm) as (tl & Hl & Hw).
    eexists. rewrite list_lookup_fmap, Hl. split; [done|].
    by apply reconstructTieLine_as.
  - reflexivity.
Qed.

Lemma reconstruction_correct_witness :
  ∃ tl,
    aToB (state (reconstructStateFromRouting Scenario.envReconstruct Scenario.e0))
      !! 0 = Some tl ∧
    reconstructedAs
      (routing (getState (controllerA Scenario.envReconstruct)))
      (routing (getState (controllerB Scenario.envReconstruct)))
      (cableOutput <$> cfg_bToA (config Scenario.e0)) (mkMapping 7 0) tl.
Proof.
  exact (proj1
    (reconstruction_correct Scenario.envReconstruct Scenario.e0
       (reachable_new anyConfig Scenario.cfg I) eq_refl eq_refl)
    0 (mkMapping 7 0) eq_refl).
Defined.

(** * Further properties of the tie-line engine *)

(** ** Reconstruction *)

Lemma reconstructTieLine_ext n f o tl tl' :
  index tl = index tl' → wiring tl = wiring tl' →
  reconstructTieLine n f o tl = reconstructTieLine n f o tl'.
Proof.
  intros Hi Hw. unfold wiring in Hw.
  assert (tlOutput tl = tlOutput tl' ∧ tlInput tl = tlInput tl') as [HO HI]
    by (split; congruence).
  unfold reconstructTieLine, markInUse, markFree. rewrite Hi, HO, HI.
  done.
Qed.

Lemma reconstructTieLine_idem n f o tl :
  reconstructTieLine n f o (reconstructTieLine n f o tl)
  = reconstructTieLine n f o tl.
Proof.
  apply reconstructTieLine_ext;
    [apply reconstructTieLine_index|apply reconstructTieLine_wiring].
Qed.

(** X1. Running the reconstruction twice in a row gives the same engine as
    running it once (whether or not the controllers are connected). *)
Theorem reconstruct_idempotent env e :
  reconstructStateFromRouting env (reconstructStateFromRouting env e)
  = reconstructStateFromRouting env e.
Proof.
  unfold reconstructStateFromRouting.
  destruct (negb (isConnected (controllerA env))
            || negb (isConnected (controllerB env))) eqn:Hc.
  - done.
  - simpl. f_equal. f_equal.
    + rewrite <- list_fmap_compose. apply list_fmap_ext.
      intros i tl _. apply reconstructTieLine_idem.
    + rewrite <- list_fmap_compose. apply list_fmap_ext.
      intros i tl _. apply reconstructTieLine_idem.
Qed.

Lemma pools_agree (p q : list TieLine) :
  positional p → positional q → wiring <$> p = wiring <$> q →
  ∀ i, match p !! i, q !! i with
       | Some tl, Some tl' => index tl = index tl' ∧ wiring tl = wiring tl'
       | None, None => True
       | _, _ => False
       end.
Proof.
  intros Hp Hq Hw i.
  assert ((wiring <$> p) !! i = (wiring <$> q) !! i) as H by (by rewrite Hw).
  rewrite !list_lookup_fmap in H.
  destruct (p !! i) as [tl|] eqn:E1, (q !! i) as [tl'|] eqn:E2;
    simplify_eq/=; try done.
  split; [|unfold wiring; congruence]. by rewrite (Hp _ _ E1), (Hq _ _ E2).
Qed.

Lemma reconstruct_pool_ext n f o (p q : list TieLine) :
  positional p → positional q → wiring <$> p = wiring <$> q →
  reconstructTieLine n f o <$> p = reconstructTieLine n f o <$> q.
Proof.
  intros Hp Hq Hw. apply list_eq. intros i. rewrite !list_lookup_fmap.
  pose proof (pools_agree p q Hp Hq Hw i) as H.
  destruct (p !! i), (q !! i); simpl; try done.
  destruct H. f_equal. by apply reconstructTieLine_ext.
Qed.

(** X2. With both controllers connected, what the reconstruction leaves
    depends only on the configuration and on the routing tables, not on
    what the engine had recorded: two reachable engines with the same
    configuration are reconstructed to the same engine.  (So a
    [releaseAllTieLines] followed by a reconstruction is undone by it.) *)
Theorem reconstruct_forgets accept env e1 e2 :
  reachable accept e1 → reachable accept e2 → config e1 = config e2 →
  isConnected (controllerA env) = true →
  isConnected (controllerB env) = true →
  reconstructStateFromRouting env e1 = reconstructStateFromRouting env e2.
Proof.
  intros H1 H2 Hcfg HA HB.
  destruct (reachable_wired _ _ H1) as [Ha1 Hb1].
  destruct (reachable_wired _ _ H2) as [Ha2 Hb2].
  pose proof (reachable_wellFormed _ _ H1) as W1.
  pose proof (reachable_wellFormed _ _ H2) as W2.
  unfold reconstructStateFromRouting. rewrite HA, HB. simpl.
  rewrite Hcfg in *. f_equal. f_equal.
  - apply reconstruct_pool_ext;
      [apply (W1 dirAToB)|apply (W2 dirAToB)|congruence].
  - apply reconstruct_pool_ext;
      [apply (W1 dirBToA)|apply (W2 dirBToA)|congruence].
Qed.

Lemma reconstruct_forgets_witness :
  reconstructStateFromRouting Scenario.envReconstruct Scenario.e3
  = reconstructStateFromRouting Scenario.envReconstruct Scenario.e0.
Proof.
  apply (reconstruct_forgets anyConfig Scenario.envReconstruct
           Scenario.e3 Scenario.e0).
  - apply scenario_e3_reachable. exact I.
  - apply reachable_new. exact I.
  - reflexivity.
  - reflexivity.
  - reflexivity.
Defined.

(** ** [releaseAllTieLines] *)

(** X3. In a reachable state, [releaseAllTieLines] gives back exactly the
    state the constructor builds from the current configuration. *)
Theorem releaseAll_is_initial accept e :
  reachable accept e →
  releaseAllTieLines (state e) = initializeState (config e).
Proof.
  intros Hr. destruct (reachable_wired _ _ Hr) as [Ha Hb].
  pose proof (reachable_wellFormed _ _ Hr) as W.
  assert (∀ (p : list TieLine) (c : list TieLineMapping),
            positional p → wiring <$> p = cable <$> c →
            (λ tieLine, markFree tieLine []) <$> p = imap freshTieLine c) as Hpool.
  { intros p c Hp Hw. apply list_eq. intros i.
    rewrite list_lookup_fmap, list_lookup_imap.
    assert ((wiring <$> p) !! i = (cable <$> c) !! i) as H by (by rewrite Hw).
    rewrite !list_lookup_fmap in H.
    destruct (p !! i) as [tl|] eqn:E1, (c !! i) as [m|] eqn:E2;
      simplify_eq/=; try done.
    unfold markFree, freshTieLine. unfold wiring, cable in H.
    rewrite (Hp _ _ E1). f_equal; congruence. }
  unfold releaseAllTieLines, initializeState. f_equal.
  - apply Hpool; [apply (W dirAToB)|done].
  - apply Hpool; [apply (W dirBToA)|done].
Qed.

Lemma releaseAll_is_initial_witness :
  releaseAllTieLines (state Scenario.e3) = initializeState (config Scenario.e3).
Proof.
  apply (releaseAll_is_initial anyConfig Scenario.e3).
  apply scenario_e3_reachable. exact I.
Defined.

(** X4. In every reachable state the pools mirror the configuration: the
    record at position [i] of a pool has the two ports of the [i]-th
    configured cable of that direction, and there are no other records. *)
Theorem pools_mirror_config accept e d :
  reachable accept e →
  length (pool d (state e)) = length (cablesOf d (config e)) ∧
  ∀ i m, cablesOf d (config e) !! i = Some m →
    ∃ tl, pool d (state e) !! i = Some tl ∧
          tlOutput tl = cableOutput m ∧ tlInput tl = cableInput m.
Proof.
  intros Hr. destruct (reachable_wired _ _ Hr) as [Ha Hb].
  assert (wiring <$> pool d (state e) = cable <$> cablesOf d (config e)) as Hw
    by (by destruct d).
  split.
  - apply (f_equal length) in Hw. by rewrite !length_fmap in Hw.
  - intros i m Hm. destruct (wired_lookup _ _ _ _ Hw Hm) as (tl & Hl & Heq).
    exists tl. unfold wiring, cable in Heq. split_and!; [done|congruence..].
Qed.

Lemma pools_mirror_config_witness :
  ∃ tl, pool dirAToB (state Scenario.eTwo) !! 1 = Some tl ∧
        tlOutput tl = cableOutput (mkMapping 7 1) ∧
        tlInput tl = cableInput (mkMapping 7 1).
Proof.
  exact (proj2 (pools_mirror_config anyConfig Scenario.eTwo dirAToB
                  (scenario_eTwo_reachable anyConfig I))
           1 (mkMapping 7 1) eq_refl).
Defined.

(** ** All the ways [routeCross] can end *)

Lemma routeCross_outcomes dir env s d l st :
  let near := nearRouter dir in
  let far := farRouter dir in
  let out := routeCross dir env s d l st in
  out = mkOutcome st [] (Failure (RouterNotConnected near) false) ∨
  out = mkOutcome st [] (Failure (RouterNotConnected far) false) ∨
  (∃ i tl, list_find (carriesSource s) (pool dir st) = Some (i, tl) ∧
     (out = mkOutcome st [SetRoute far d (Some (tlInput tl)) l]
              (Failure (RouteFailed far) false) ∨
      out = mkOutcome
              (setPool dir
                 (<[i := setDestinations tl
                           (addDestination (destinations tl) d)]> (pool dir st)) st)
              [SetRoute far d (Some (tlInput tl)) l]
              (SuccessTieLine (index tl) true))) ∨
  (list_find (carriesSource s) (pool dir st) = None ∧
   list_find isFree (pool dir st) = None ∧
   out = mkOutcome st []
           (Failure (AllTieLinesInUse dir (length (pool dir st))) false)) ∨
  (∃ i tl, list_find (carriesSource s) (pool dir st) = None ∧
     list_find isFree (pool dir st) = Some (i, tl) ∧
     (out = mkOutcome st [SetRoute near (Some (tlOutput tl)) s l]
              (Failure (RouteFailed near) false) ∨
      out = mkOutcome st
              [SetRoute near (Some (tlOutput tl)) s l;
               SetRoute far d (Some (tlInput tl)) l]
              (Failure (RouteFailed far) true) ∨
      out = mkOutcome
              (setPool dir (<[i := markInUse tl s [d]]> (pool dir st)) st)
              [SetRoute near (Some (tlOutput tl)) s l;
               SetRoute far d (Some (tlInput tl)) l]
              (SuccessTieLine (index tl) false))).
Proof.
  cbv zeta. unfold routeCross.
  destruct (isConnected (controllerOf env (nearRouter dir))); simpl; [|by left].
  destruct (isConnected (controllerOf env (farRouter dir))); simpl;
    [|by right; left].
  destruct (list_find (carriesSource s) (pool dir st)) as [[i tl]|] eqn:Hs.
  - right; right; left. exists i, tl. split; [done|].
    destruct (acks _ _ _ _); auto.
  - destruct (list_find isFree (pool dir st)) as [[i tl]|] eqn:Hf.
    + do 4 right. exists i, tl. split_and!; [done..|].
      destruct (acks (controllerOf env (nearRouter dir)) _ _ _); simpl; [|by left].
      destruct (acks (controllerOf env (farRouter dir)) _ _ _); simpl; auto.
    + right; right; right; left. done.
Qed.

Lemma near_far_ne dir : nearRouter dir ≠ farRouter dir.
Proof. by destruct dir. Qed.

Lemma poolInto_far dir : poolInto (farRouter dir) = dir.
Proof. by destruct dir. Qed.

(** The two resolutions decide which branch of the dispatcher runs. *)
Lemma execute_resolved env vo vi vr l st rs s rd d :
  VirtualRouter.resolveInput vr vi
    = Some (VirtualRouter.mkResolved rs s) →
  VirtualRouter.resolveOutput vr vo
    = Some (VirtualRouter.mkResolved rd d) →
  (rs = rd ∧
   executeVirtualRoute env vo vi vr l st
   = _routeDirect env rd s d l (_handleOutputReassignment (poolInto rd) d st)) ∨
  (∃ dir, rs = nearRouter dir ∧ rd = farRouter dir ∧
     executeVirtualRoute env vo vi vr l st
     = routeCross dir env s d l (_handleOutputReassignment dir d st)).
Proof.
  intros Hi Ho. destruct rs, rd.
  - left. split; [done|]. by apply execute_direct.
  - right. exists dirAToB. split_and!; [done..|]. by apply execute_cross.
  - right. exists dirBToA. split_and!; [done..|]. by apply execute_cross.
  - left. split; [done|]. by apply execute_direct.
Qed.

Lemma holders_zero d (p : list TieLine) :
  (∀ j tj, p !! j = Some tj → d ∉ destinations tj) → holders d p = 0.
Proof.
  intros H. unfold holders. rewrite filter_none; [done|].
  apply Forall_lookup. intros j tj Hj. exact (H j tj Hj).
Qed.

Lemma holders_insert d (p : list TieLine) i tl tl' :
  p !! i = Some tl → d ∉ destinations tl → d ∈ destinations tl' →
  holders d (<[i := tl']> p) = S (holders d p).
Proof.
  intros Hi Hn Hy. pose proof (lookup_lt_Some _ _ _ Hi) as Hlt.
  unfold holders. rewrite insert_take_drop by done.
  rewrite <- (take_drop_middle p i tl Hi) at 3.
  rewrite !filter_app, !filter_cons, !length_app.
  rewrite decide_True by done. rewrite decide_False by done. simpl. lia.
Qed.

(** X5. After a call whose two indices resolve the requested destination is held
    by exactly one record of the pool directed into its router when the
    call returns a tie-line success, and by no record of that pool
    otherwise (a route inside one router, or any failure past index
    resolution). *)
Theorem destination_holders_after e env vo vi vr l rs s rd d :
  reachable inputsUnique e →
  VirtualRouter.resolveInput vr vi
    = Some (VirtualRouter.mkResolved rs s) →
  VirtualRouter.resolveOutput vr vo
    = Some (VirtualRouter.mkResolved rd d) →
  holders d
    (pool (poolInto rd)
       (stateAfter (executeVirtualRoute env vo vi vr l (state e))))
  = match result (executeVirtualRoute env vo vi vr l (state e)) with
    | SuccessTieLine _ _ => 1
    | _ => 0
    end.
Proof.
  intros Hr Hi Ho.
  pose proof (reachable_wellFormed _ _ Hr) as Hwf.
  destruct (reachable_exclusive _ Hr) as [_ Hex].
  assert (∀ dir j tj,
            pool dir (_handleOutputReassignment dir d (state e)) !! j = Some tj →
            d ∉ destinations tj) as Hclear
    by (intros dir j tj; by apply handle_clears).
  destruct (execute_resolved env vo vi vr l (state e) _ _ _ _ Hi Ho)
    as [[-> ->]|(dir & -> & -> & ->)].
  - rewrite routeDirect_state.
    rewrite holders_zero by exact (Hclear _).
    unfold _routeDirect. by repeat case_match.
  - rewrite poolInto_far.
    pose proof (routeCross_outcomes dir env s d l
                  (_handleOutputReassignment dir d (state e))) as H.
    cbv zeta in H.
    destruct H as [->|[->|[(i & tl & Hf & [->| ->])|[(_ & _ & ->)|
                   (i & tl & _ & Hf & [->|[->| ->]])]]]]; simpl;
      try (by apply holders_zero; exact (Hclear _)).
    + rewrite pool_setPool_eq.
      apply list_find_Some in Hf as (Hl & _).
      erewrite holders_insert; [|done|by eapply Hclear|].
      * by rewrite holders_zero by exact (Hclear _).
      * simpl. apply addDestination_elem. by right.
    + rewrite pool_setPool_eq.
      apply list_find_Some in Hf as (Hl & _).
      erewrite holders_insert; [|done|by eapply Hclear|].
      * by rewrite holders_zero by exact (Hclear _).
      * simpl. apply list_elem_of_here.
Qed.

Lemma destination_holders_after_witness :
  holders (Some 2)
    (pool (poolInto B)
       (stateAfter (executeVirtualRoute Scenario.env 8 1 Scenario.vr2 0
                      (state Scenario.eTwo))))
  = match result (executeVirtualRoute Scenario.env 8 1 Scenario.vr2 0
                    (state Scenario.eTwo)) with
    | SuccessTieLine _ _ => 1
    | _ => 0
    end.
Proof.
  apply (destination_holders_after Scenario.eTwo Scenario.env 8 1 Scenario.vr2 0
           A (Some 1) B (Some 2)).
  - apply scenario_eTwo_reachable. exact scenario_cfg2_inputsUnique.
  - reflexivity.
  - reflexivity.
Defined.

(** X6. What a tie-line success guarantees.  After an inter-router call
    that returns [tieLineIndex = idx], the record at position [idx] of the
    pool is in use, carries the requested source and lists the requested
    destination (as its only destination when [reused] is false).  The
    commands issued switch that record's cable: the destination onto the
    cable's input on the far router and, when the cable is newly allocated,
    before that the source onto the cable's output on the near router. *)
Theorem tie_line_success e env vo vi vr l dir s d idx reused :
  reachable anyConfig e →
  VirtualRouter.resolveInput vr vi
    = Some (VirtualRouter.mkResolved (nearRouter dir) s) →
  VirtualRouter.resolveOutput vr vo
    = Some (VirtualRouter.mkResolved (farRouter dir) d) →
  result (executeVirtualRoute env vo vi vr l (state e))
    = SuccessTieLine idx reused →
  ∃ tl,
    pool dir (stateAfter (executeVirtualRoute env vo vi vr l (state e))) !! idx
      = Some tl ∧
    status tl = in_use ∧ sourceInput tl = Some s ∧ d ∈ destinations tl ∧
    (reused = false → destinations tl = [d]) ∧
    issued (executeVirtualRoute env vo vi vr l (state e))
      = (if reused then [SetRoute (farRouter dir) d (Some (tlInput tl)) l]
         else [SetRoute (nearRouter dir) (Some (tlOutput tl)) s l;
               SetRoute (farRouter dir) d (Some (tlInput tl)) l]).
Proof.
  intros Hr Hi Ho. rewrite (execute_cross _ _ _ _ _ _ _ _ _ Hi Ho).
  pose proof (handle_wellFormed dir d _ (reachable_wellFormed _ _ Hr) dir)
    as [Hp _].
  pose proof (routeCross_outcomes dir env s d l
                (_handleOutputReassignment dir d (state e))) as H.
  cbv zeta in H.
  destruct H as [->|[->|[(i & tl & Hf & [->| ->])|[(_ & _ & ->)|
                 (i & tl & _ & Hf & [->|[->| ->]])]]]]; simpl; try done;
    intros [= <- <-]; apply list_find_Some in Hf as (Hl & HP & _);
    rewrite (Hp _ _ Hl), pool_setPool_eq;
    rewrite list_lookup_insert_eq by (by eapply lookup_lt_Some);
    (eexists; split; [done|]); simpl.
  - destruct HP as [Hs Hsrc]. split_and!; try done.
    apply addDestination_elem. by right.
  - split_and!; try done. apply list_elem_of_here.
Qed.

Lemma tie_line_success_witness :
  ∃ tl,
    pool dirAToB
      (stateAfter (executeVirtualRoute Scenario.env 8 0 Scenario.vr 0
                     (state Scenario.e2))) !! 0 = Some tl ∧
    status tl = in_use ∧ sourceInput tl = Some (Some 0) ∧
    Some 1 ∈ destinations tl ∧
    (true = false → destinations tl = [Some 1]) ∧
    issued (executeVirtualRoute Scenario.env 8 0 Scenario.vr 0 (state Scenario.e2))
      = (if true then [SetRoute (farRouter dirAToB) (Some 1) (Some (tlInput tl)) 0]
         else [SetRoute (nearRouter dirAToB) (Some (tlOutput tl)) (Some 0) 0;
               SetRoute (farRouter dirAToB) (Some 1) (Some (tlInput tl)) 0]).
Proof.
  exact (tie_line_success Scenario.e2 Scenario.env 8 0 Scenario.vr 0
           dirAToB (Some 0) (Some 1) 0 true (scenario_e2_reachable anyConfig I)
           eq_refl eq_refl eq_refl).
Defined.

(** A record that carries the source and has another destination than [d]
    still carries the source after the reassignment step. *)
Lemma handle_keeps_carrier dir d st s k t x :
  positional (pool dir st) →
  pool dir st !! k = Some t → carriesSource s t →
  x ∈ destinations t → x ≠ d →
  ∃ t', pool dir (_handleOutputReassignment dir d st) !! k = Some t' ∧
        carriesSource s t'.
Proof.
  intros Hp Hk [Hs Hsrc] Hx Hne.
  destruct (list_find (carries d) (pool dir st)) as [[i old]|] eqn:Hf.
  - destruct (handle_found _ _ _ _ _ Hp Hf) as [_ ->].
    rewrite pool_setPool_eq.
    apply list_find_Some in Hf as (Hi & _).
    destruct (decide (i = k)) as [->|Hik].
    + rewrite list_lookup_insert_eq by (by eapply lookup_lt_Some).
      eexists; split; [done|]. simplify_eq.
      unfold released. cbv zeta.
      assert (x ∈ filter (λ y, y ≠ d) (destinations t)) as Hin
        by (by apply list_elem_of_filter).
      case_decide as Hlen; [|done].
      apply length_zero_iff_nil in Hlen. rewrite Hlen in Hin.
      by apply elem_of_nil in Hin.
    + rewrite list_lookup_insert_ne by done. exists t. by split.
  - unfold _handleOutputReassignment. rewrite Hf. exists t. by split.
Qed.

(** X7. Reuse comes first.  If both controllers are connected, the far
    router acknowledges, and some in-use record of the pool carries the
    requested source and has a destination other than the requested one,
    then the call succeeds with [reused = true] and issues exactly one
    command, on the far router: no cable is allocated, whether or not a free
    one exists. *)
Theorem reuse_comes_first e env vo vi vr l dir s d k t x :
  reachable anyConfig e →
  VirtualRouter.resolveInput vr vi
    = Some (VirtualRouter.mkResolved (nearRouter dir) s) →
  VirtualRouter.resolveOutput vr vo
    = Some (VirtualRouter.mkResolved (farRouter dir) d) →
  isConnected (controllerA env) = true →
  isConnected (controllerB env) = true →
  (∀ o i, acks (controllerOf env (farRouter dir)) o i l = true) →
  pool dir (state e) !! k = Some t → carriesSource s t →
  x ∈ destinations t → x ≠ d →
  ∃ idx sink,
    result (executeVirtualRoute env vo vi vr l (state e))
      = SuccessTieLine idx true ∧
    issued (executeVirtualRoute env vo vi vr l (state e))
      = [SetRoute (farRouter dir) d (Some sink) l].
Proof.
  intros Hr Hi Ho HA HB Hack Hk Hc Hx Hne.
  rewrite (execute_cross _ _ _ _ _ _ _ _ _ Hi Ho).
  destruct (reachable_wellFormed _ _ Hr dir) as [Hp _].
  destruct (connected_both env dir HA HB) as [Hn Hf].
  destruct (handle_keeps_carrier dir d _ s k t x Hp Hk Hc Hx Hne)
    as (t' & Hk' & Hc').
  destruct (list_find_elem_of (carriesSource s) _ t'
              (list_elem_of_lookup_2 _ _ _ Hk') Hc') as [[i tl] Hfind].
  exists (index tl), (tlInput tl).
  unfold routeCross. rewrite Hn, Hf, Hfind, Hack. done.
Qed.

Lemma reuse_comes_first_witness :
  ∃ idx sink,
    result (executeVirtualRoute Scenario.env 7 0 Scenario.vr 0 (state Scenario.e3))
      = SuccessTieLine idx true ∧
    issued (executeVirtualRoute Scenario.env 7 0 Scenario.vr 0 (state Scenario.e3))
      = [SetRoute (farRouter dirAToB) (Some 0) (Some sink) 0].
Proof.
  apply (reuse_comes_first Scenario.e3 Scenario.env 7 0 Scenario.vr 0
           dirAToB (Some 0) (Some 0) 0 (Scenario.carrying 0 [0; 1]) (Some 1)).
  - apply scenario_e3_reachable. exact I.
  - reflexivity.
  - reflexivity.
  - reflexivity.
  - reflexivity.
  - reflexivity.
  - reflexivity.
  - split; reflexivity.
  - apply list_elem_of_further, list_elem_of_here.
  - discriminate.
Defined.

(** X8. Allocation is first-fit and happens only without a carrier.  When
    an inter-router call succeeds with [reused = false], then, once the
    destination has been released from its old record, no in-use record
    carried the source, the record at the returned index was free, and every
    record before it was in use. *)
Theorem allocation_first_fit e env vo vi vr l dir s d idx :
  reachable anyConfig e →
  VirtualRouter.resolveInput vr vi
    = Some (VirtualRouter.mkResolved (nearRouter dir) s) →
  VirtualRouter.resolveOutput vr vo
    = Some (VirtualRouter.mkResolved (farRouter dir) d) →
  result (executeVirtualRoute env vo vi vr l (state e))
    = SuccessTieLine idx false →
  (∀ j tj, pool dir (_handleOutputReassignment dir d (state e)) !! j = Some tj →
           ¬ carriesSource s tj) ∧
  (∃ tl, pool dir (_handleOutputReassignment dir d (state e)) !! idx = Some tl ∧
         status tl = free) ∧
  (∀ j tj, pool dir (_handleOutputReassignment dir d (state e)) !! j = Some tj →
           j < idx → status tj = in_use).
Proof.
  intros Hr Hi Ho. rewrite (execute_cross _ _ _ _ _ _ _ _ _ Hi Ho).
  pose proof (handle_wellFormed dir d _ (reachable_wellFormed _ _ Hr) dir)
    as [Hp _].
  pose proof (routeCross_outcomes dir env s d l
                (_handleOutputReassignment dir d (state e))) as H.
  cbv zeta in H.
  destruct H as [->|[->|[(i & tl & Hf & [->| ->])|[(_ & _ & ->)|
                 (i & tl & Hnone & Hf & [->|[->| ->]])]]]]; simpl; try done.
  intros [= <-]. apply list_find_Some in Hf as (Hl & HP & Hmin).
  rewrite (Hp _ _ Hl). split_and!.
  - intros j tj Hj. apply list_find_None in Hnone.
    exact (Forall_lookup_1 _ _ _ _ Hnone Hj).
  - eauto.
  - intros j tj Hj Hlt. specialize (Hmin j tj Hj Hlt). unfold isFree in Hmin.
    by destruct (status tj).
Qed.

Lemma allocation_first_fit_witness :
  (∃ tl, pool dirAToB
           (_handleOutputReassignment dirAToB (Some 3) (state Scenario.eTwo1)) !! 1
         = Some tl ∧ status tl = free) ∧
  (∀ j tj, pool dirAToB
             (_handleOutputReassignment dirAToB (Some 3) (state Scenario.eTwo1)) !! j
           = Some tj → j < 1 → status tj = in_use).
Proof.
  exact (proj2
    (allocation_first_fit Scenario.eTwo1 Scenario.env 9 1 Scenario.vr2 0
       dirAToB (Some 1) (Some 3) 1 (scenario_eTwo1_reachable anyConfig I)
       eq_refl eq_refl eq_refl)).
Defined.

(** ** Index resolution at the boundary *)

Lemma resolve_shape_None (la lb : list nat) (v : Z) :
  (if decide (v < Z.of_nat (length la))%Z
   then Some (VirtualRouter.mkResolved A (VirtualRouter.at_index la v))
   else if decide (v - Z.of_nat (length la) < Z.of_nat (length lb))%Z
        then Some (VirtualRouter.mkResolved B
                     (VirtualRouter.at_index lb (v - Z.of_nat (length la))))
        else None) = None ↔
  (Z.of_nat (length la + length lb) ≤ v)%Z.
Proof. repeat case_decide; split; intros; try done; lia. Qed.

Lemma resolveInput_nat vr (n : nat) :
  (VirtualRouter.resolveInput vr (Z.of_nat n) = None
     ∧ VirtualRouter.totalInputs vr ≤ n) ∨
  (∃ r p, VirtualRouter.resolveInput vr (Z.of_nat n)
            = Some (VirtualRouter.mkResolved r (Some p))
          ∧ n < VirtualRouter.totalInputs vr).
Proof.
  destruct (VirtualRouter.resolveInput vr (Z.of_nat n)) as [[r [p|]]|] eqn:E.
  - right. exists r, p. split; [done|].
    unfold VirtualRouter.resolveInput in E. cbv zeta in E.
    apply VirtualRouterFacts.resolve_shape in E.
    unfold VirtualRouter.totalInputs. destruct E as [(_&?&_)|(_&?&_)]; lia.
  - destruct (proj1 (VirtualRouterFacts.resolve_nat_defined vr n _) E) as [? [=]].
  - left. split; [done|].
    unfold VirtualRouter.resolveInput in E. cbv zeta in E.
    apply resolve_shape_None in E. unfold VirtualRouter.totalInputs. lia.
Qed.

Lemma resolveOutput_nat vr (n : nat) :
  (VirtualRouter.resolveOutput vr (Z.of_nat n) = None
     ∧ VirtualRouter.totalOutputs vr ≤ n) ∨
  (∃ r p, VirtualRouter.resolveOutput vr (Z.of_nat n)
            = Some (VirtualRouter.mkResolved r (Some p))
          ∧ n < VirtualRouter.totalOutputs vr).
Proof.
  destruct (VirtualRouter.resolveOutput vr (Z.of_nat n)) as [[r [p|]]|] eqn:E.
  - right. exists r, p. split; [done|].
    unfold VirtualRouter.resolveOutput in E. cbv zeta in E.
    apply VirtualRouterFacts.resolve_shape in E.
    unfold VirtualRouter.totalOutputs. destruct E as [(_&?&_)|(_&?&_)]; lia.
  - destruct (proj2 (VirtualRouterFacts.resolve_nat_defined vr n _) E) as [? [=]].
  - left. split; [done|].
    unfold VirtualRouter.resolveOutput in E. cbv zeta in E.
    apply resolve_shape_None in E. unfold VirtualRouter.totalOutputs. lia.
Qed.

Lemma routeDirect_not_invalid env r s d l st :
  result (_routeDirect env r s d l st) ≠ Failure InvalidVirtualIndex false.
Proof. unfold _routeDirect. by repeat case_match. Qed.

Lemma routeCross_not_invalid dir env s d l st :
  result (routeCross dir env s d l st) ≠ Failure InvalidVirtualIndex false.
Proof.
  pose proof (routeCross_outcomes dir env s d l st) as H. cbv zeta in H.
  destruct H as [->|[->|[(i & tl & Hf & [->| ->])|[(_ & _ & ->)|
                 (i & tl & _ & Hf & [->|[->| ->]])]]]]; done.
Qed.

Lemma resolveInput_None vr (v : Z) :
  VirtualRouter.resolveInput vr v = None
  ↔ (Z.of_nat (VirtualRouter.totalInputs vr) ≤ v)%Z.
Proof.
  unfold VirtualRouter.resolveInput, VirtualRouter.totalInputs. cbv zeta.
  apply resolve_shape_None.
Qed.

Lemma resolveOutput_None vr (v : Z) :
  VirtualRouter.resolveOutput vr v = None
  ↔ (Z.of_nat (VirtualRouter.totalOutputs vr) ≤ v)%Z.
Proof.
  unfold VirtualRouter.resolveOutput, VirtualRouter.totalOutputs. cbv zeta.
  apply resolve_shape_None.
Qed.

(** X9. For integer indices, a call fails with "Invalid virtual index"
    exactly when the virtual input is not below [totalInputs] or the
    virtual output is not below [totalOutputs]; in that case the tie-line
    state is untouched and no command is issued.  (So an index below zero
    is not rejected.) *)
Theorem invalid_index_iff env vo vi vr l st :
  (result (executeVirtualRoute env vo vi vr l st)
     = Failure InvalidVirtualIndex false
   ↔ (Z.of_nat (VirtualRouter.totalInputs vr) ≤ vi)%Z
     ∨ (Z.of_nat (VirtualRouter.totalOutputs vr) ≤ vo)%Z) ∧
  ((Z.of_nat (VirtualRouter.totalInputs vr) ≤ vi)%Z
   ∨ (Z.of_nat (VirtualRouter.totalOutputs vr) ≤ vo)%Z →
   executeVirtualRoute env vo vi vr l st
   = mkOutcome st [] (Failure InvalidVirtualIndex false)).
Proof.
  rewrite <- resolveInput_None, <- resolveOutput_None.
  destruct (VirtualRouter.resolveInput vr vi) as [[ri pi]|] eqn:Hi;
    destruct (VirtualRouter.resolveOutput vr vo) as [[ro po]|] eqn:Ho.
  - split; [|by intros [[=]|[=]]]. split; [|by intros [[=]|[=]]].
    intros Hres. exfalso.
    destruct (execute_resolved env vo vi vr l st _ _ _ _ Hi Ho)
      as [[_ E]|(dir & _ & _ & E)]; rewrite E in Hres.
    + by eapply routeDirect_not_invalid.
    + by eapply routeCross_not_invalid.
  - unfold executeVirtualRoute. rewrite Hi, ?Ho. split; [split|]; auto.
  - unfold executeVirtualRoute. rewrite Hi, ?Ho. split; [split|]; auto.
  - unfold executeVirtualRoute. rewrite Hi, ?Ho. split; [split|]; auto.
Qed.

(** ** Failures *)

(** Record by record, the reassignment step only takes away. *)
Lemma handle_shrinks dir0 d st dir i tl' :
  wellFormed st →
  pool dir (_handleOutputReassignment dir0 d st) !! i = Some tl' →
  ∃ tl, pool dir st !! i = Some tl ∧
        (∀ x, x ∈ destinations tl' → x ∈ destinations tl) ∧
        (status tl' = in_use →
         status tl = in_use ∧ sourceInput tl' = sourceInput tl).
Proof.
  intros Hwf Hl. destruct (Hwf dir0) as [Hp _].
  destruct (list_find (carries d) (pool dir0 st)) as [[k old]|] eqn:Hf.
  - destruct (handle_found _ _ _ _ _ Hp Hf) as [_ Heq]. rewrite Heq in Hl.
    apply list_find_Some in Hf as (Hk & [Hs _] & _).
    destruct (decide (dir0 = dir)) as [->|Hne].
    + rewrite pool_setPool_eq in Hl.
      apply list_lookup_insert_Some in Hl as [(-> & <- & _)|[_ Hl]];
        [|by exists tl'].
      exists old. split_and!; [done| |].
      * intros x. rewrite released_destinations.
        intros Hx. by apply list_elem_of_filter in Hx as [_ Hx].
      * intros Hst. split; [done|].
        destruct (released_status old d Hs) as [H1 H2].
        destruct (destinations (released old d)) eqn:E.
        -- destruct H1 as [H1 _]; [done|]. congruence.
        -- by destruct H2.
    + rewrite pool_setPool_ne in Hl by done. by exists tl'.
  - unfold _handleOutputReassignment in Hl. rewrite Hf in Hl. by exists tl'.
Qed.

Lemma failure_state env vo vi vr l st :
  isSuccess (result (executeVirtualRoute env vo vi vr l st)) = false →
  stateAfter (executeVirtualRoute env vo vi vr l st) = st ∨
  ∃ dir d, stateAfter (executeVirtualRoute env vo vi vr l st)
           = _handleOutputReassignment dir d st.
Proof.
  intros Hfail.
  destruct (execute_cases env vo vi vr l st)
    as [E|[(r & s & d & _ & _ & E)|(dir & s & d & _ & _ & E)]];
    rewrite E in *.
  - by left.
  - right. exists (poolInto r), d. apply routeDirect_state.
  - right. exists dir, d.
    pose proof (routeCross_outcomes dir env s d l
                  (_handleOutputReassignment dir d st)) as H.
    cbv zeta in H.
    destruct H as [E2|[E2|[(i & tl & Hf & [E2|E2])|[(_ & _ & E2)|
                   (i & tl & _ & Hf & [E2|[E2|E2]])]]]];
      rewrite E2 in *; simpl in *; done.
Qed.

(** X10. A call that does not succeed claims nothing: in both pools every
    record keeps at most the destinations it had, and a record that is in
    use afterwards was in use before, with the same source.  (The only
    change a failed call can leave is the release of the requested
    destination.) *)
Theorem failed_call_claims_nothing e env vo vi vr l dir i tl' :
  reachable anyConfig e →
  isSuccess (result (executeVirtualRoute env vo vi vr l (state e))) = false →
  pool dir (stateAfter (executeVirtualRoute env vo vi vr l (state e))) !! i
    = Some tl' →
  ∃ tl, pool dir (state e) !! i = Some tl ∧
        (∀ x, x ∈ destinations tl' → x ∈ destinations tl) ∧
        (status tl' = in_use →
         status tl = in_use ∧ sourceInput tl' = sourceInput tl).
Proof.
  intros Hr Hfail Hl.
  destruct (failure_state _ _ _ _ _ _ Hfail) as [E|(dir0 & d & E)];
    rewrite E in Hl.
  - by exists tl'.
  - eapply handle_shrinks; eauto using reachable_wellFormed.
Qed.

Lemma failed_call_claims_nothing_witness :
  ∃ tl, pool dirAToB (state Scenario.e3) !! 0 = Some tl ∧
        (∀ x, x ∈ destinations (Scenario.carrying 0 [1]) → x ∈ destinations tl) ∧
        (status (Scenario.carrying 0 [1]) = in_use →
         status tl = in_use ∧
         sourceInput (Scenario.carrying 0 [1]) = sourceInput tl).
Proof.
  exact (failed_call_claims_nothing Scenario.e3 Scenario.env 7 1 Scenario.vr 0
           dirAToB 0 (Scenario.carrying 0 [1])
           (scenario_e3_reachable anyConfig I) eq_refl eq_refl).
Defined.

(** ** The commands *)

Lemma handle_record_cable accept e dir0 d dir i tl :
  reachable accept e →
  pool dir (_handleOutputReassignment dir0 d (state e)) !! i = Some tl →
  ∃ m, cablesOf dir (config e) !! i = Some m ∧
       tlOutput tl = cableOutput m ∧ tlInput tl = cableInput m.
Proof.
  intros Hr Hl. destruct (reachable_wired _ _ Hr) as [Ha Hb].
  assert (wiring <$> pool dir (_handleOutputReassignment dir0 d (state e))
          = cable <$> cablesOf dir (config e)) as Hw.
  { rewrite (handle_sameWiring dir0 d (state e) dir). by destruct dir. }
  assert ((cable <$> cablesOf dir (config e)) !! i = Some (wiring tl)) as H
    by (by rewrite <- Hw, list_lookup_fmap, Hl).
  rewrite list_lookup_fmap in H. apply fmap_Some in H as (m & Hm & Heq).
  exists m. unfold wiring, cable in Heq. split_and!; [done|congruence..].
Qed.

(** X11. The engine only ever sends the commands of the requested route.
    A call whose two indices resolve issues at most two commands.  For a route inside one router the
    only possible command is [setRoute(dstPort, srcPort, level)] on that
    router.  For a route across routers every command switches one end of a
    configured cable of the direction used: the source onto the cable's
    output on the source router, or the cable's input onto the destination
    on the destination router. *)
Theorem issued_commands_shape accept e env vo vi vr l rs s rd d :
  reachable accept e →
  VirtualRouter.resolveInput vr vi
    = Some (VirtualRouter.mkResolved rs s) →
  VirtualRouter.resolveOutput vr vo
    = Some (VirtualRouter.mkResolved rd d) →
  length (issued (executeVirtualRoute env vo vi vr l (state e))) ≤ 2 ∧
  ∀ c, c ∈ issued (executeVirtualRoute env vo vi vr l (state e)) →
    (rs = rd ∧ c = SetRoute rd d s l) ∨
    (rs ≠ rd ∧
     ∃ i m, cablesOf (poolInto rd) (config e) !! i = Some m ∧
            (c = SetRoute rs (Some (cableOutput m)) s l ∨
             c = SetRoute rd d (Some (cableInput m)) l)).
Proof.
  intros Hr Hi Ho.
  destruct (execute_resolved env vo vi vr l (state e) _ _ _ _ Hi Ho)
    as [[-> ->]|(dir & -> & -> & ->)].
  - unfold _routeDirect.
    replace (match rd with A => controllerA env | B => controllerB env end)
      with (controllerOf env rd) by done.
    repeat case_match; simpl; (split; [lia|]); intros c Hc;
      try (by apply elem_of_nil in Hc);
      apply list_elem_of_singleton in Hc as ->; by left.
  - rewrite poolInto_far.
    pose proof (routeCross_outcomes dir env s d l
                  (_handleOutputReassignment dir d (state e))) as H.
    cbv zeta in H.
    assert (∀ i tl,
              pool dir (_handleOutputReassignment dir d (state e)) !! i = Some tl →
              ∀ c, c = SetRoute (nearRouter dir) (Some (tlOutput tl)) s l ∨
                   c = SetRoute (farRouter dir) d (Some (tlInput tl)) l →
              nearRouter dir ≠ farRouter dir ∧
              ∃ i m, cablesOf dir (config e) !! i = Some m ∧
                     (c = SetRoute (nearRouter dir) (Some (cableOutput m)) s l ∨
                      c = SetRoute (farRouter dir) d (Some (cableInput m)) l))
      as Hcab.
    { intros i tl Hl c Hc. split; [apply near_far_ne|].
      destruct (handle_record_cable _ _ _ _ _ _ _ Hr Hl) as (m & Hm & HO & HI).
      exists i, m. split; [done|]. rewrite <- HO, <- HI. done. }
    destruct H as [->|[->|[(i & tl & Hf & [->| ->])|[(_ & _ & ->)|
                   (i & tl & _ & Hf & [->|[->| ->]])]]]]; simpl;
      (split; [lia|]); intros c Hc;
      try (by apply elem_of_nil in Hc);
      apply list_find_Some in Hf as (Hl & _);
      right; apply (Hcab i tl Hl);
      repeat (apply elem_of_cons in Hc as [->|Hc]; [by auto|]);
      by apply elem_of_nil in Hc.
Qed.

Lemma issued_commands_shape_witness :
  length (issued (executeVirtualRoute Scenario.env 7 0 Scenario.vr 0
                    (state Scenario.e0))) ≤ 2.
Proof.
  exact (proj1
    (issued_commands_shape anyConfig Scenario.e0 Scenario.env 7 0 Scenario.vr 0
       A (Some 0) B (Some 0) (reachable_new anyConfig Scenario.cfg I)
       eq_refl eq_refl)).
Defined.

(** ** Status consistency and the source of a record *)

Lemma sourcesDefined_update d i tl' st :
  sourcesDefined st → sourceDefined tl' →
  sourcesDefined (setPool d (<[i := tl']> (pool d st)) st).
Proof.
  intros H Htl d'. destruct (decide (d = d')) as [<-|Hne].
  - rewrite pool_setPool_eq. by apply Forall_insert.
  - by rewrite pool_setPool_ne.
Qed.

Lemma released_sourceDefined tl d :
  sourceDefined tl → sourceDefined (released tl d).
Proof. unfold released, sourceDefined. by case_decide. Qed.

Lemma release_sourcesDefined d idx dest st :
  sourcesDefined st → sourcesDefined (_releaseTieLineDestination d idx dest st).
Proof.
  intros H. destruct (release_cases d idx dest st) as [->|(tl & Hl & _ & ->)];
    [done|].
  apply sourcesDefined_update; [done|]. apply released_sourceDefined.
  exact (Forall_lookup_1 _ _ _ _ (H d) Hl).
Qed.

Lemma handle_sourcesDefined d dest st :
  sourcesDefined st → sourcesDefined (_handleOutputReassignment d dest st).
Proof.
  intros H. destruct (handle_cases d dest st) as [[_ ->]|(i & old & _ & ->)];
    [done|by apply release_sourcesDefined].
Qed.

Lemma routeCross_sourcesDefined d env s dest l st :
  is_Some s → sourcesDefined st →
  sourcesDefined (stateAfter (routeCross d env s dest l st)).
Proof.
  intros [n ->] H.
  destruct (routeCross_state d env (Some n) dest l st)
    as [->|[(i & tl & Hf & ->)|(i & tl & _ & Hf & ->)]]; [done| |].
  - apply sourcesDefined_update; [done|].
    apply list_find_Some in Hf as (Hl & _).
    exact (Forall_lookup_1 _ _ _ _ (H d) Hl).
  - apply sourcesDefined_update; [done|]. unfold sourceDefined. simpl. congruence.
Qed.

(** An index that is not negative never resolves to an undefined port. *)
Lemma resolve_defined vr (v : Z) r :
  (0 ≤ v)%Z →
  (VirtualRouter.resolveInput vr v = Some r →
   is_Some (VirtualRouter.physicalIndex r)) ∧
  (VirtualRouter.resolveOutput vr v = Some r →
   is_Some (VirtualRouter.physicalIndex r)).
Proof.
  intros Hv. rewrite <- (Z2Nat.id v Hv).
  apply VirtualRouterFacts.resolve_nat_defined.
Qed.

Lemma execute_sourcesDefined env vo vi vr l st :
  (0 ≤ vi)%Z → sourcesDefined st →
  sourcesDefined (stateAfter (executeVirtualRoute env vo vi vr l st)).
Proof.
  intros Hvi H.
  destruct (execute_cases env vo vi vr l st)
    as [->|[(r & s & d & _ & _ & ->)|(dir & s & d & Hi & _ & ->)]]; [done| |].
  - rewrite routeDirect_state. by apply handle_sourcesDefined.
  - apply routeCross_sourcesDefined; [|by apply handle_sourcesDefined].
    exact (proj1 (resolve_defined vr vi _ Hvi) Hi).
Qed.

Lemma initializeState_sourcesDefined cfg : sourcesDefined (initializeState cfg).
Proof.
  intros []; simpl; apply Forall_lookup;
    intros i tl (m & _ & ->)%lookup_imap_fresh; done.
Qed.

Lemma releaseAll_sourcesDefined st : sourcesDefined (releaseAllTieLines st).
Proof.
  intros d. rewrite releaseAll_pool. apply Forall_fmap, Forall_forall.
  by intros tl _.
Qed.

Lemma reconstructTieLine_sourceDefined n f o tl :
  sourceDefined (reconstructTieLine n f o tl).
Proof.
  destruct (reconstructTieLine_cases n f o tl) as [(s & _ & _ & ->)|[_ ->]];
    done.
Qed.

Lemma reconstruct_sourcesDefined env e :
  sourcesDefined (state e) →
  sourcesDefined (state (reconstructStateFromRouting env e)).
Proof.
  intros H. unfold reconstructStateFromRouting. case_match; [done|].
  intros []; simpl; apply Forall_fmap, Forall_forall; intros tl _;
    apply reconstructTieLine_sourceDefined.
Qed.

Lemma stepInputChecked_step e e' : stepInputChecked e e' → step anyConfig e e'.
Proof. intros []; by constructor. Qed.

Lemma reachableInputChecked_reachable e :
  reachableInputChecked e → reachable anyConfig e.
Proof.
  induction 1 as [cfg|e e' _ IH Hstep].
  - by apply reachable_new.
  - eapply reachable_step; [exact IH|by apply stepInputChecked_step].
Qed.

Lemma reachableInputChecked_sourcesDefined e :
  reachableInputChecked e → sourcesDefined (state e).
Proof.
  induction 1 as [cfg|e e' _ IH Hstep].
  - apply initializeState_sourcesDefined.
  - destruct Hstep; cbn [state].
    + by apply execute_sourcesDefined.
    + by apply release_sourcesDefined.
    + apply releaseAll_sourcesDefined.
    + match goal with |- context [updateConfig ?a ?b ?c] =>
        destruct (updateConfig_cases a b c) as [->| ->] end.
      * apply initializeState_sourcesDefined.
      * apply reconstruct_sourcesDefined, initializeState_sourcesDefined.
    + by apply reconstruct_sourcesDefined.
Qed.

Lemma scenario_e3_checked : reachableInputChecked Scenario.e3.
Proof.
  apply (checked_step Scenario.e2).
  - apply (checked_step Scenario.e0); [apply checked_new|].
    exact (checked_executeVirtualRoute Scenario.env 7 0 Scenario.vr 0 Scenario.e0
             ltac:(done)).
  - exact (checked_executeVirtualRoute Scenario.env 8 0 Scenario.vr 0 Scenario.e2
             ltac:(done)).
Defined.

(** X27. Status consistency when the virtual input index is checked.  In
    every state reached from the constructor by operations in which each
    [executeVirtualRoute] is given a virtual input index that is not
    negative (the other operations and the virtual output index are
    unrestricted), every record of both pools is in use iff its
    destinations are nonempty iff its [sourceInput] is a number; and it has
    no destinations iff its [sourceInput] is null. *)
Theorem status_consistency_checked_input e d i tl :
  reachableInputChecked e → pool d (state e) !! i = Some tl →
  (status tl = in_use ↔ destinations tl ≠ []) ∧
  (destinations tl ≠ [] ↔ ∃ s : nat, sourceInput tl = Some (Some s)) ∧
  (destinations tl = [] ↔ sourceInput tl = None).
Proof.
  intros Hr Hl.
  pose proof (reachable_consistent _ _ _ _ _
                (reachableInputChecked_reachable _ Hr) Hl) as [H1 H2].
  pose proof (Forall_lookup_1 _ _ _ _
                (reachableInputChecked_sourcesDefined _ Hr d) Hl) as Hdef.
  unfold sourceDefined in Hdef. split_and!; [done| |].
  - split.
    + intros Hne. apply H2 in Hne.
      destruct (sourceInput tl) as [[s|]|]; [by exists s|done|done].
    + intros [s Hs]. apply H2. by rewrite Hs.
  - split.
    + intros Hnil. destruct (sourceInput tl) as [x|]; [|done].
      exfalso. apply (proj2 H2); [done|exact Hnil].
    + intros Hnone. destruct (destinations tl) as [|x ds]; [done|].
      exfalso. apply (proj1 H2); [done|exact Hnone].
Qed.

Lemma status_consistency_checked_input_witness :
  (status (Scenario.carrying 0 [0; 1]) = in_use
     ↔ destinations (Scenario.carrying 0 [0; 1]) ≠ []) ∧
  (destinations (Scenario.carrying 0 [0; 1]) ≠ []
     ↔ ∃ s : nat, sourceInput (Scenario.carrying 0 [0; 1]) = Some (Some s)) ∧
  (destinations (Scenario.carrying 0 [0; 1]) = []
     ↔ sourceInput (Scenario.carrying 0 [0; 1]) = None).
Proof.
  exact (status_consistency_checked_input Scenario.e3 dirAToB 0
           (Scenario.carrying 0 [0; 1]) scenario_e3_checked eq_refl).
Defined.

(** X28. What is left of status consistency for arbitrary indices.  In
    every state reached from the constructor by any sequence of operations,
    with any integers as virtual indices, every record of both pools is in
    use iff its destinations are nonempty iff its [sourceInput] is not
    null.  (It can then be undefined, as in the state reached by a route
    from virtual input -1.) *)
Theorem status_consistency_not_null accept e d i tl :
  reachable accept e → pool d (state e) !! i = Some tl →
  (status tl = in_use ↔ destinations tl ≠ []) ∧
  (destinations tl ≠ [] ↔ sourceInput tl ≠ None).
Proof.
  intros Hr Hl. destruct (reachable_wellFormed _ _ Hr d) as [_ Hc].
  exact (Forall_lookup_1 _ _ _ _ Hc Hl).
Qed.

Lemma status_consistency_not_null_witness :
  (status (mkTieLine 0 7 0 in_use (Some None) [Some 0]) = in_use
     ↔ destinations (mkTieLine 0 7 0 in_use (Some None) [Some 0]) ≠ []) ∧
  (destinations (mkTieLine 0 7 0 in_use (Some None) [Some 0]) ≠ []
     ↔ sourceInput (mkTieLine 0 7 0 in_use (Some None) [Some 0]) ≠ None).
Proof.
  exact (status_consistency_not_null anyConfig Scenario.eNegative dirAToB 0
           (mkTieLine 0 7 0 in_use (Some None) [Some 0])
           (scenario_eNegative_reachable anyConfig I) eq_refl).
Defined.

(** * Further properties of the virtual router *)

Module VirtualTablesFacts.
Import VirtualRouter VirtualRouterFacts VirtualTables.

Lemma loopAssign_S {V} n offset (body : nat → option V) (m : gmap nat V) :
  loopAssign (S n) offset body m
  = match body n with
    | Some x => <[offset + n := x]> (loopAssign n offset body m)
    | None => loopAssign n offset body m
    end.
Proof. unfold loopAssign. by rewrite seq_S, foldl_app. Qed.

Lemma loopAssign_lookup {V} n offset (body : nat → option V) (m : gmap nat V) k :
  loopAssign n offset body m !! k
  = if decide (offset ≤ k < offset + n)
    then match body (k - offset) with Some x => Some x | None => m !! k end
    else m !! k.
Proof.
  induction n as [|n IH].
  - unfold loopAssign. simpl. rewrite decide_False by lia. done.
  - rewrite loopAssign_S.
    destruct (decide (k = offset + n)) as [->|Hne].
    + rewrite decide_True by lia. replace (offset + n - offset) with n by lia.
      destruct (body n) as [x|] eqn:Hb.
      * by rewrite lookup_insert_eq.
      * rewrite IH. rewrite decide_False by lia. done.
    + assert (loopAssign n offset body m !! k
              = match body n with
                | Some x => <[offset + n := x]> (loopAssign n offset body m)
                | None => loopAssign n offset body m
                end !! k) as <-.
      { destruct (body n); [by rewrite lookup_insert_ne|done]. }
      rewrite IH. repeat case_decide; try done; lia.
Qed.

(** The table built by the two loops over the A part and the B part. *)
Lemma twoLoops_lookup {V} (la lb : nat) (fa fb : nat → option V) k :
  loopAssign lb la fb (loopAssign la 0 fa ∅) !! k
  = if decide (k < la) then fa k
    else if decide (k < la + lb) then fb (k - la) else None.
Proof.
  rewrite !loopAssign_lookup, lookup_empty.
  repeat case_decide; try lia; try done;
    rewrite ?Nat.sub_0_r; by repeat case_match.
Qed.

Lemma resolve_nat_shape (la lb : list nat) (v : nat) R p :
  (R = A ∧ (0 ≤ Z.of_nat v < Z.of_nat (length la))%Z
     ∧ la !! Z.to_nat (Z.of_nat v) = Some p) ∨
  (R = B ∧ (Z.of_nat (length la) ≤ Z.of_nat v < Z.of_nat (length la + length lb))%Z
     ∧ lb !! Z.to_nat (Z.of_nat v - Z.of_nat (length la)) = Some p)
  ↔ (R = A ∧ la !! v = Some p) ∨
    (R = B ∧ length la ≤ v ∧ lb !! (v - length la) = Some p).
Proof.
  rewrite Nat2Z.id.
  replace (Z.to_nat (Z.of_nat v - Z.of_nat (length la))) with (v - length la) by lia.
  split.
  - intros [(-> & _ & H)|(-> & ? & H)]; [by left|right]. split_and!; [done|lia|done].
  - intros [(-> & H)|(-> & ? & H)]; [left|right].
    + pose proof (lookup_lt_Some _ _ _ H). split_and!; try done; lia.
    + pose proof (lookup_lt_Some _ _ _ H). split_and!; try done; lia.
Qed.

(** Resolution of a grid position, in terms of the two visible lists. *)
Lemma resolveInput_lists vr (v : nat) R p :
  resolveInput vr (Z.of_nat v) = Some (mkResolved R (Some p)) ↔
  (R = A ∧ visibleAInputs vr !! v = Some p) ∨
  (R = B ∧ length (visibleAInputs vr) ≤ v ∧
   visibleBInputs vr !! (v - length (visibleAInputs vr)) = Some p).
Proof.
  unfold resolveInput. cbv zeta. rewrite resolve_shape. apply resolve_nat_shape.
Qed.

Lemma resolveOutput_lists vr (v : nat) R p :
  resolveOutput vr (Z.of_nat v) = Some (mkResolved R (Some p)) ↔
  (R = A ∧ visibleAOutputs vr !! v = Some p) ∨
  (R = B ∧ length (visibleAOutputs vr) ≤ v ∧
   visibleBOutputs vr !! (v - length (visibleAOutputs vr)) = Some p).
Proof.
  unfold resolveOutput. cbv zeta. rewrite resolve_shape. apply resolve_nat_shape.
Qed.

Lemma routerMap_lists (la lb : list nat) (v : nat) R :
  loopAssign (length lb) (length la) (λ _, Some B)
    (loopAssign (length la) 0 (λ _, Some A) ∅) !! v = Some R
  ↔ ∃ p, (R = A ∧ la !! v = Some p) ∨
         (R = B ∧ length la ≤ v ∧ lb !! (v - length la) = Some p).
Proof.
  rewrite twoLoops_lookup. split.
  - repeat case_decide; intros [= <-].
    + destruct (lookup_lt_is_Some_2 la v) as [p Hp]; [lia|]. eauto.
    + destruct (lookup_lt_is_Some_2 lb (v - length la)) as [p Hp]; [lia|].
      exists p. right. split_and!; [done|lia|done].
  - intros [p [(-> & H)|(-> & ? & H)]]; apply lookup_lt_Some in H.
    + by rewrite decide_True by lia.
    + rewrite decide_False by lia. by rewrite decide_True by lia.
Qed.

Lemma physicalIndices_lists (la lb : list nat) (v n : nat) :
  loopAssign (length lb) (length la) (λ v, (λ p, p + 1) <$> lb !! v)
    (loopAssign (length la) 0 (λ v, (λ p, p + 1) <$> la !! v) ∅) !! v = Some n
  ↔ ∃ R p, n = p + 1 ∧
           ((R = A ∧ la !! v = Some p) ∨
            (R = B ∧ length la ≤ v ∧ lb !! (v - length la) = Some p)).
Proof.
  rewrite twoLoops_lookup. split.
  - repeat case_decide; try done.
    + intros (p & Hp & ->)%fmap_Some. exists A, p. auto.
    + intros (p & Hp & ->)%fmap_Some. exists B, p. split; [done|].
      right. split_and!; [done|lia|done].
  - intros (R & p & -> & [(-> & H)|(-> & ? & H)]);
      pose proof (lookup_lt_Some _ _ _ H).
    + rewrite decide_True by lia. by rewrite H.
    + rewrite decide_False by lia. rewrite decide_True by lia. by rewrite H.
Qed.

End VirtualTablesFacts.

Section Tables.
Import VirtualRouter VirtualRouterFacts VirtualTables VirtualTablesFacts.
Variable vr : VirtualRouter.t.

(** X12. The router maps agree with the resolution: [getInputRouterMap]
    has the entry [v ↦ R] exactly when [resolveInput v] gives a port of
    router [R], and [getOutputRouterMap] likewise with [resolveOutput]; in
    particular they have no entry outside the virtual matrix. *)
Theorem router_maps_agree (v : nat) (R : Router) :
  (getInputRouterMap vr !! v = Some R
     ↔ ∃ p, resolveInput vr (Z.of_nat v) = Some (mkResolved R (Some p))) ∧
  (getOutputRouterMap vr !! v = Some R
     ↔ ∃ p, resolveOutput vr (Z.of_nat v) = Some (mkResolved R (Some p))).
Proof.
  split.
  - unfold getInputRouterMap. cbv zeta. rewrite routerMap_lists.
    by setoid_rewrite resolveInput_lists.
  - unfold getOutputRouterMap. cbv zeta. rewrite routerMap_lists.
    by setoid_rewrite resolveOutput_lists.
Qed.

(** X13. The display tables give the physical port number, counted from 1:
    [getInputPhysicalIndices] has the entry [v ↦ n] exactly when
    [resolveInput v] gives the port [n - 1] (of either router), and
    [getOutputPhysicalIndices] likewise with [resolveOutput]. *)
Theorem physical_indices_agree (v n : nat) :
  (getInputPhysicalIndices vr !! v = Some n
     ↔ ∃ R p, n = p + 1 ∧
              resolveInput vr (Z.of_nat v) = Some (mkResolved R (Some p))) ∧
  (getOutputPhysicalIndices vr !! v = Some n
     ↔ ∃ R p, n = p + 1 ∧
              resolveOutput vr (Z.of_nat v) = Some (mkResolved R (Some p))).
Proof.
  split.
  - unfold getInputPhysicalIndices. cbv zeta. rewrite physicalIndices_lists.
    by setoid_rewrite resolveInput_lists.
  - unfold getOutputPhysicalIndices. cbv zeta. rewrite physicalIndices_lists.
    by setoid_rewrite resolveOutput_lists.
Qed.

End Tables.

(** ** [getVirtualRouting] *)

Module VirtualRoutingFacts.
Import VirtualRouter VirtualRouterFacts VirtualTables VirtualTablesFacts.

(** One entry of the table, in terms of the resolution of the output. *)
Lemma getVirtualRouting_lookup vr ts (vo : nat) (vi : Z) :
  getVirtualRouting vr ts !! vo = Some vi ↔
  ∃ r d q,
    resolveOutput vr (Z.of_nat vo) = Some (mkResolved r (Some d)) ∧
    routing (routerOf vr r) !! d = Some q ∧
    virtualSource vr ts r q = vi ∧ (0 ≤ vi)%Z.
Proof.
  unfold getVirtualRouting. cbv zeta. rewrite twoLoops_lookup.
  setoid_rewrite resolveOutput_lists.
  unfold virtualSource, ifNonNegative. split.
  - repeat case_decide; try done.
    + intros (d & Hd & (q & Hq & Hbody)%bind_Some)%bind_Some.
      exists A, d, q. simpl.
      destruct (list_find (feeds q) (bToA ts)) as [[? ?]|];
        case_decide; simplify_eq; auto 10.
    + intros (d & Hd & (q & Hq & Hbody)%bind_Some)%bind_Some.
      exists B, d, q. simpl.
      destruct (list_find (feeds q) (aToB ts)) as [[? ?]|];
        case_decide; simplify_eq; split_and!; auto with lia.
  - intros (r & d & q & [(-> & Hd)|(-> & Hle & Hd)] & Hq & Hv & Hpos);
      pose proof (lookup_lt_Some _ _ _ Hd); simpl in *.
    + rewrite decide_True by lia. rewrite Hd. simpl. rewrite Hq. simpl.
      destruct (list_find (feeds q) (bToA ts)) as [[? ?]|];
        rewrite Hv; by rewrite decide_True.
    + rewrite decide_False by lia. rewrite decide_True by lia.
      rewrite Hd. simpl. rewrite Hq. simpl.
      destruct (list_find (feeds q) (aToB ts)) as [[? ?]|];
        rewrite Hv; by rewrite decide_True.
Qed.

Lemma indexOf_bound (arr : list nat) x :
  (0 ≤ indexOf arr x)%Z → (indexOf arr x < Z.of_nat (length arr))%Z.
Proof.
  unfold indexOf. destruct (list_find _ arr) as [[i y]|] eqn:Hf; [|lia].
  apply list_find_Some in Hf as (Hi & _). apply lookup_lt_Some in Hi. lia.
Qed.

Lemma physicalInputToVirtual_bound vr r p :
  (0 ≤ physicalInputToVirtual vr r p)%Z →
  (physicalInputToVirtual vr r p < Z.of_nat (totalInputs vr))%Z.
Proof.
  unfold physicalInputToVirtual, totalInputs. destruct r; cbv zeta;
    case_decide as Hi; try lia; intros _; apply indexOf_bound in Hi; lia.
Qed.

Lemma virtualSource_bound vr ts r q :
  (0 ≤ virtualSource vr ts r q)%Z →
  (virtualSource vr ts r q < Z.of_nat (totalInputs vr))%Z.
Proof.
  unfold virtualSource, sourceToVirtual.
  destruct (list_find _ _) as [[i tl]|].
  - destruct (sourceInput tl) as [[p|]|];
      [apply physicalInputToVirtual_bound|lia..].
  - apply physicalInputToVirtual_bound.
Qed.

(** The round trip of [physicalInputToVirtual] after [resolveInput], for a
    position of the grid. *)
Lemma toVirtual_resolved vr (vi : nat) r p :
  resolveInput vr (Z.of_nat vi) = Some (mkResolved r (Some p)) →
  physicalInputToVirtual vr r p = Z.of_nat vi.
Proof.
  unfold resolveInput. cbv zeta. intros H%resolve_shape.
  unfold physicalInputToVirtual.
  apply (toVirtual_shape _ _ _ _ _
           (NoDup_visiblePorts _ _) (NoDup_visiblePorts _ _) H).
Qed.

Lemma entry_through_tie_line vr ts (vo vi : nat) r d q i tl s :
  resolveOutput vr (Z.of_nat vo) = Some (mkResolved r (Some d)) →
  routing (routerOf vr r) !! d = Some q →
  list_find (feeds q) (pool (poolInto r) ts) = Some (i, tl) →
  sourceInput tl = Some (Some s) →
  resolveInput vr (Z.of_nat vi) = Some (mkResolved (across r) (Some s)) →
  getVirtualRouting vr ts !! vo = Some (Z.of_nat vi).
Proof.
  intros Ho Hq Hf Hs Hi. apply getVirtualRouting_lookup.
  exists r, d, q. split_and!; [done..| |lia].
  unfold virtualSource. rewrite Hf. unfold sourceToVirtual. rewrite Hs.
  by apply toVirtual_resolved.
Qed.

Lemma entry_direct vr ts (vo vi : nat) r d q :
  resolveOutput vr (Z.of_nat vo) = Some (mkResolved r (Some d)) →
  routing (routerOf vr r) !! d = Some q →
  list_find (feeds q) (pool (poolInto r) ts) = None →
  resolveInput vr (Z.of_nat vi) = Some (mkResolved r (Some q)) →
  getVirtualRouting vr ts !! vo = Some (Z.of_nat vi).
Proof.
  intros Ho Hq Hf Hi. apply getVirtualRouting_lookup.
  exists r, d, q. split_and!; [done..| |lia].
  unfold virtualSource. rewrite Hf. by apply toVirtual_resolved.
Qed.

End VirtualRoutingFacts.

Section VirtualRouting.
Import VirtualRouter VirtualRouterFacts VirtualTables VirtualTablesFacts.
Import VirtualRoutingFacts.
Variable vr : VirtualRouter.t.
Variable ts : TieLineState.

(** X14. The virtual routing table stays inside the virtual matrix: every
    entry [vo ↦ vi] has [vo < totalOutputs] and [0 <= vi < totalInputs],
    whatever the physical routing and the tie-line state are. *)
Theorem virtual_routing_in_range (vo : nat) (vi : Z) :
  getVirtualRouting vr ts !! vo = Some vi →
  vo < totalOutputs vr ∧ (0 ≤ vi < Z.of_nat (totalInputs vr))%Z.
Proof.
  intros (r & d & q & Ho & _ & <- & Hpos)%getVirtualRouting_lookup.
  split.
  - destruct (resolveOutput_nat vr vo) as [[E _]|(? & ? & _ & ?)]; [|done].
    congruence.
  - split; [done|]. by apply virtualSource_bound.
Qed.

(** X15. A destination fed through a tie-line shows the far source.  If
    virtual output [vo] is the port [d] of router [r], [d] is physically
    routed to input [q] of [r], the first in-use record of the pool directed
    into [r] whose sink input is [q] carries source [s], and virtual input
    [vi] is the port [s] of the other router, then the table has
    [vo ↦ vi]. *)
Theorem virtual_routing_through_tie_line (vo vi : nat) r d q i tl s :
  resolveOutput vr (Z.of_nat vo) = Some (mkResolved r (Some d)) →
  routing (routerOf vr r) !! d = Some q →
  list_find (feeds q) (pool (poolInto r) ts) = Some (i, tl) →
  sourceInput tl = Some (Some s) →
  resolveInput vr (Z.of_nat vi) = Some (mkResolved (across r) (Some s)) →
  getVirtualRouting vr ts !! vo = Some (Z.of_nat vi).
Proof. apply entry_through_tie_line. Qed.

(** X16. A destination routed inside its router shows that source.  If
    virtual output [vo] is the port [d] of router [r], [d] is physically
    routed to input [q] of [r], no in-use record of the pool directed into
    [r] has [q] as its sink input, and virtual input [vi] is the port [q] of
    [r], then the table has [vo ↦ vi]. *)
Theorem virtual_routing_direct (vo vi : nat) r d q :
  resolveOutput vr (Z.of_nat vo) = Some (mkResolved r (Some d)) →
  routing (routerOf vr r) !! d = Some q →
  list_find (feeds q) (pool (poolInto r) ts) = None →
  resolveInput vr (Z.of_nat vi) = Some (mkResolved r (Some q)) →
  getVirtualRouting vr ts !! vo = Some (Z.of_nat vi).
Proof. apply entry_direct. Qed.

End VirtualRouting.

Lemma virtual_routing_in_range_witness :
  8 < VirtualRouter.totalOutputs ScenarioTables.vr3 ∧
  (0 ≤ 0 < Z.of_nat (VirtualRouter.totalInputs ScenarioTables.vr3))%Z.
Proof.
  apply (virtual_routing_in_range ScenarioTables.vr3 (state Scenario.e3) 8 0).
  vm_compute. reflexivity.
Defined.

Lemma virtual_routing_through_tie_line_witness :
  VirtualTables.getVirtualRouting ScenarioTables.vr3 (state Scenario.e3) !! 8
  = Some (Z.of_nat 0).
Proof.
  apply (virtual_routing_through_tie_line ScenarioTables.vr3 (state Scenario.e3)
           8 0 B 1 0 0 (Scenario.carrying 0 [0; 1]) 0).
  - reflexivity.
  - reflexivity.
  - reflexivity.
  - reflexivity.
  - reflexivity.
Defined.

Lemma virtual_routing_direct_witness :
  VirtualTables.getVirtualRouting ScenarioTables.vr3 (state Scenario.e3) !! 9
  = Some (Z.of_nat 12).
Proof.
  apply (virtual_routing_direct ScenarioTables.vr3 (state Scenario.e3)
           9 12 B 2 5).
  - reflexivity.
  - reflexivity.
  - reflexivity.
  - reflexivity.
Defined.

(** * The engine and the projection together *)

Section EndToEnd.
Import VirtualRouter VirtualRouterFacts VirtualTables VirtualTablesFacts.
Import VirtualRoutingFacts.

Lemma find_feeds_unique (p : list TieLine) i tl :
  NoDup (tlInput <$> p) → p !! i = Some tl → status tl = in_use →
  list_find (feeds (tlInput tl)) p = Some (i, tl).
Proof.
  intros Hnd Hi Hs. apply list_find_Some. split_and!; [done|by split|].
  intros j tj Hj Hlt [Hin _].
  assert (j = i); [|lia].
  eapply (NoDup_lookup _ _ _ _ Hnd); rewrite list_lookup_fmap.
  - by rewrite Hj.
  - rewrite Hi. simpl. congruence.
Qed.

Lemma across_far dir : across (farRouter dir) = nearRouter dir.
Proof. by destruct dir. Qed.

Lemma resolved_output_visible vr (v : nat) r p :
  resolveOutput vr (Z.of_nat v) = Some (mkResolved r (Some p)) →
  isVisibleOutput vr r p.
Proof.
  intros [(-> & H)|(-> & _ & H)]%resolveOutput_lists;
    apply list_elem_of_lookup_2, elem_of_visiblePorts in H; exact H.
Qed.

Lemma rebuild_connected env tieLines prev e :
  isConnected (controllerA env) = true →
  isConnected (controllerB env) = true →
  Rebuild.rebuildVirtualState env tieLines prev e
  = (Rebuild.mkProjection
       (VirtualRouter.mk (getState (controllerA env)) (getState (controllerB env))
          tieLines)
       (state (reconstructStateFromRouting env e)),
     reconstructStateFromRouting env e).
Proof.
  intros HA HB. unfold Rebuild.rebuildVirtualState, Rebuild.connectedState.
  rewrite HA, HB. by destruct prev.
Qed.

Lemma reconstruct_pool env e dir :
  isConnected (controllerA env) = true →
  isConnected (controllerB env) = true →
  pool dir (state (reconstructStateFromRouting env e))
  = reconstructTieLine
      (routing (getState (controllerOf env (nearRouter dir))))
      (routing (getState (controllerOf env (farRouter dir))))
      (list_to_set (cableOutput <$> cablesOf (poolInto (nearRouter dir)) (config e)))
    <$> pool dir (state e).
Proof.
  intros HA HB. unfold reconstructStateFromRouting. rewrite HA, HB.
  by destruct dir.
Qed.

(** The record that the reconstruction leaves for a cable whose two ends
    the routers report as switched. *)
Lemma reconstruct_carries env e dir i m s d :
  reachable anyConfig e →
  isConnected (controllerA env) = true →
  isConnected (controllerB env) = true →
  cablesOf dir (config e) !! i = Some m →
  routing (getState (controllerOf env (nearRouter dir))) !! cableOutput m = Some s →
  routing (getState (controllerOf env (farRouter dir))) !! d = Some (cableInput m) →
  d ∉ cableOutput <$> cablesOf (poolInto (nearRouter dir)) (config e) →
  d ≠ cableInput m →
  ∃ tl, pool dir (state (reconstructStateFromRouting env e)) !! i = Some tl ∧
        tlInput tl = cableInput m ∧
        status tl = in_use ∧ sourceInput tl = Some (Some s) ∧
        Some d ∈ destinations tl.
Proof.
  intros Hr HA HB Hm Hs Hd Hout Hne.
  destruct (reachable_wired _ _ Hr) as [Ha Hb].
  assert (wiring <$> pool dir (state e) = cable <$> cablesOf dir (config e)) as Hw
    by (by destruct dir).
  destruct (wired_lookup _ _ _ _ Hw Hm) as (tl0 & Hl0 & Hw0).
  rewrite (reconstruct_pool _ _ _ HA HB), list_lookup_fmap, Hl0. simpl.
  eexists. split; [done|].
  destruct (reconstructTieLine_as
              (routing (getState (controllerOf env (nearRouter dir))))
              (routing (getState (controllerOf env (farRouter dir))))
              (cableOutput <$> cablesOf (poolInto (nearRouter dir)) (config e))
              m tl0 Hw0) as (Hwire & Hdef & _).
  destruct Hdef as (Hst & Hsrc & Hds).
  { split; [by rewrite Hs|]. exists d. by split_and!. }
  split_and!.
  - unfold wiring, cable in Hwire. congruence.
  - done.
  - by rewrite Hsrc, Hs.
  - apply Hds. exists d. by split_and!.
Qed.

(** X17. What the operator is shown after a rebuild, for a path across the
    routers.  Both routers are connected, no input index repeats within a
    direction, and the routers report that the output of a configured cable
    takes input [s] and that output [d] of the far router takes the input
    of that cable, [d] not being that same index.  Then
    [rebuildVirtualState] leaves the record of the cable in use with source
    [s] and [d] among its destinations, and the routing it publishes shows,
    at the virtual output that is [d], the virtual input that is [s].
    When [d] is the index of the cable's input the path is not shown: with
    the tables of scenario 2 (output 0 of B takes input 0 of B, the cable)
    the rebuild sets the record free and publishes no entry for virtual
    output 7. *)
Theorem rebuild_reports_cross_route env e prev dir i m (vo vi : nat) s d :
  reachable inputsUnique e →
  isConnected (controllerA env) = true →
  isConnected (controllerB env) = true →
  cablesOf dir (config e) !! i = Some m →
  routing (getState (controllerOf env (nearRouter dir))) !! cableOutput m = Some s →
  routing (getState (controllerOf env (farRouter dir))) !! d = Some (cableInput m) →
  d ≠ cableInput m →
  resolveOutput (Rebuild.view (Rebuild.rebuildVirtualState env (config e) prev e).1)
    (Z.of_nat vo) = Some (mkResolved (farRouter dir) (Some d)) →
  resolveInput (Rebuild.view (Rebuild.rebuildVirtualState env (config e) prev e).1)
    (Z.of_nat vi) = Some (mkResolved (nearRouter dir) (Some s)) →
  (∃ tl, pool dir (state (Rebuild.rebuildVirtualState env (config e) prev e).2) !! i
           = Some tl ∧
         status tl = in_use ∧ sourceInput tl = Some (Some s) ∧
         Some d ∈ destinations tl) ∧
  Rebuild.published (Rebuild.rebuildVirtualState env (config e) prev e).1 !! vo
    = Some (Z.of_nat vi) ∧
  state (Rebuild.rebuildVirtualState ScenarioRebuild.env2 Scenario.cfg None
           Scenario.e2).2
    = mkState [mkTieLine 0 7 0 free None []] [] ∧
  Rebuild.published
    (Rebuild.rebuildVirtualState ScenarioRebuild.env2 Scenario.cfg None
       Scenario.e2).1 !! 7 = None.
Proof.
  intros Hr HA HB Hm Hs Hd Hne. rewrite (rebuild_connected _ _ _ _ HA HB).
  unfold Rebuild.published. cbn [fst snd Rebuild.view Rebuild.tieLineState].
  intros Ho Hi.
  assert (d ∉ cableOutput <$> cablesOf (poolInto (nearRouter dir)) (config e))
    as Hout.
  { apply resolved_output_visible in Ho. intros Hin.
    destruct dir; simpl in Ho, Hin; destruct Ho as [_ Hnot]; apply Hnot;
      unfold excludedAOutputs, excludedBOutputs; simpl;
      by apply elem_of_list_to_set. }
  destruct (reconstruct_carries env e dir i m s d
              (reachable_mono inputsUnique anyConfig e (λ _ _, I) Hr)
              HA HB Hm Hs Hd Hout Hne) as (tl & Hl & Hsink & Hst & Hsrc & Hin).
  split_and!; [by exists tl| |reflexivity|reflexivity].
  assert (reachable inputsUnique (reconstructStateFromRouting env e)) as Hr'
    by (eapply reachable_step; [exact Hr|constructor]).
  destruct (reachable_exclusive _ Hr') as [Hsinks _].
  eapply entry_through_tie_line; [exact Ho| | |exact Hsrc|].
  - instantiate (1 := cableInput m). by destruct dir.
  - rewrite poolInto_far, <- Hsink. apply find_feeds_unique; [apply Hsinks|done..].
  - by rewrite across_far.
Qed.

Lemma rebuild_reports_cross_route_witness :
  Rebuild.published
    (Rebuild.rebuildVirtualState ScenarioRebuild.env3 (config Scenario.e3) None
       Scenario.e3).1 !! 8
  = Some (Z.of_nat 0).
Proof.
  exact (proj1 (proj2
    (rebuild_reports_cross_route ScenarioRebuild.env3 Scenario.e3 None dirAToB
       0 (mkMapping 7 0) 8 0 0 1
       (scenario_e3_reachable inputsUnique scenario_cfg_inputsUnique)
       eq_refl eq_refl eq_refl eq_refl eq_refl
       (λ H : 1 = 0, eq_ind 1 (λ n, match n with 0 => False | S _ => True end)
                       I 0 H)
       eq_refl eq_refl))).
Defined.

Lemma resolved_input_visible vr (v : nat) r p :
  resolveInput vr (Z.of_nat v) = Some (mkResolved r (Some p)) →
  isVisibleInput vr r p.
Proof.
  intros [(-> & H)|(-> & _ & H)]%resolveInput_lists;
    apply list_elem_of_lookup_2, elem_of_visiblePorts in H; exact H.
Qed.

(** X18. A crosspoint inside one router is always reported as it is.  If
    the projection uses the configuration of the engine, virtual output
    [vo] is the port [d] of router [r], virtual input [vi] is the port [q]
    of the same router, and [d] is physically routed to [q], then in every
    reachable tie-line state the table has [vo ↦ vi]: no tie-line record
    can claim a visible input as its sink. *)
Theorem direct_crosspoint_is_reported accept e vr (vo vi : nat) r d q :
  reachable accept e →
  tieLineConfig vr = config e →
  resolveOutput vr (Z.of_nat vo) = Some (mkResolved r (Some d)) →
  resolveInput vr (Z.of_nat vi) = Some (mkResolved r (Some q)) →
  routing (routerOf vr r) !! d = Some q →
  getVirtualRouting vr (state e) !! vo = Some (Z.of_nat vi).
Proof.
  intros Hr Hcfg Ho Hi Hq.
  eapply entry_direct; [exact Ho|exact Hq| |exact Hi].
  apply list_find_None, Forall_lookup. intros i tl Hl [Hin _].
  apply resolved_input_visible in Hi.
  destruct (reachable_wired _ _ Hr) as [Ha Hb].
  assert (wiring <$> pool (poolInto r) (state e)
          = cable <$> cablesOf (poolInto r) (config e)) as Hw
    by (by destruct r).
  assert ((cable <$> cablesOf (poolInto r) (config e)) !! i = Some (wiring tl))
    as H by (by rewrite <- Hw, list_lookup_fmap, Hl).
  rewrite list_lookup_fmap in H. apply fmap_Some in H as (m & Hm & Heq).
  assert (q ∈ cableInput <$> cablesOf (poolInto r) (config e)) as Hex.
  { apply list_elem_of_fmap. exists m. split.
    - unfold wiring, cable in Heq. congruence.
    - by eapply list_elem_of_lookup_2. }
  rewrite <- Hcfg in Hex.
  destruct r; simpl in Hi, Hex; destruct Hi as [_ Hnot]; apply Hnot;
    unfold excludedAInputs, excludedBInputs; by apply elem_of_list_to_set.
Qed.

Lemma direct_crosspoint_is_reported_witness :
  getVirtualRouting ScenarioTables.vr3 (state Scenario.e3) !! 9
  = Some (Z.of_nat 12).
Proof.
  apply (direct_crosspoint_is_reported anyConfig Scenario.e3 ScenarioTables.vr3
           9 12 B 2 5).
  - apply scenario_e3_reachable. exact I.
  - reflexivity.
  - reflexivity.
  - reflexivity.
  - reflexivity.
Defined.

End EndToEnd.

(** * main.js: the CSV helpers *)

Module CsvFacts.
Import Ascii Csv.

Lemma quote_is_34 : nat_of_ascii quote = 34 ∧ nat_of_ascii comma = 44
                    ∧ nat_of_ascii newline = 10.
Proof. split_and!; reflexivity. Qed.

(** Outside quotes, a run of plain characters is appended to the current
    field. *)
Lemma parse_plain (str rest : list ascii) fields current :
  comma ∉ str → quote ∉ str →
  csvParseLoop (str ++ rest) fields current false
  = csvParseLoop rest fields (current ++ str) false.
Proof.
  revert current. induction str as [|ch str IH]; intros current Hc Hq.
  - by rewrite app_nil_r.
  - apply not_elem_of_cons in Hc as [Hc1 Hc2].
    apply not_elem_of_cons in Hq as [Hq1 Hq2].
    cbn [app csvParseLoop].
    rewrite decide_False by congruence. rewrite decide_False by congruence.
    rewrite IH by done. by rewrite <- app_assoc.
Qed.

Lemma doubleQuotes_cons ch str :
  doubleQuotes (ch :: str)
  = (if decide (ch = quote) then [quote; quote] else [ch]) ++ doubleQuotes str.
Proof. reflexivity. Qed.

(** Inside quotes, the doubled form of [str] followed by the closing quote
    is read back as [str], provided the closing quote is not followed by
    another quote. *)
Lemma parse_quoted (str rest : list ascii) fields current :
  head rest ≠ Some quote →
  csvParseLoop (doubleQuotes str ++ quote :: rest) fields current true
  = csvParseLoop rest fields (current ++ str) false.
Proof.
  intros Hrest. revert current.
  induction str as [|ch str IH]; intros current.
  - cbn [doubleQuotes flat_map app csvParseLoop].
    rewrite decide_True by done. rewrite app_nil_r.
    destruct rest as [|next rest']; [done|].
    rewrite decide_False; [done|]. intros ->. by apply Hrest.
  - rewrite doubleQuotes_cons.
    destruct (decide (ch = quote)) as [->|Hne]; cbn [app csvParseLoop].
    + rewrite decide_True by done. rewrite decide_True by done.
      rewrite IH. by rewrite <- app_assoc.
    + rewrite decide_False by done. rewrite IH. by rewrite <- app_assoc.
Qed.

(** One escaped cell, followed by the end of the line or by a comma. *)
Lemma parse_cell (str rest : list ascii) fields current :
  head rest ≠ Some quote →
  csvParseLoop (csvEscape str ++ rest) fields current false
  = csvParseLoop rest fields (current ++ str) false.
Proof.
  intros Hrest. unfold csvEscape. case_decide as Hsp.
  - rewrite <- !app_assoc. cbn [app csvParseLoop].
    rewrite decide_True by done. by apply parse_quoted.
  - apply parse_plain; intros ?; apply Hsp; auto.
Qed.

Lemma parse_row (cells : list (list ascii)) fields :
  cells ≠ [] →
  csvParseLoop (joinComma (csvEscape <$> cells)) fields [] false
  = fields ++ cells.
Proof.
  revert fields. induction cells as [|cell cells IH]; intros fields Hne; [done|].
  destruct cells as [|cell2 cells].
  - cbn [fmap list_fmap joinComma]. rewrite <- (app_nil_r (csvEscape cell)).
    rewrite parse_cell by done. done.
  - change (joinComma (csvEscape <$> cell :: cell2 :: cells))
      with (csvEscape cell ++ [comma] ++ joinComma (csvEscape <$> cell2 :: cells)).
    rewrite parse_cell by done.
    change ([comma] ++ joinComma (csvEscape <$> cell2 :: cells))
      with (comma :: joinComma (csvEscape <$> cell2 :: cells)).
    cbn [csvParseLoop]. rewrite decide_False by done.
    rewrite decide_True by done. rewrite IH by done.
    by rewrite <- app_assoc.
Qed.

Lemma parse_count n : ∀ (line : list ascii) fields current inQuotes,
  length line ≤ n →
  length fields + 1 ≤ length (csvParseLoop line fields current inQuotes) ∧
  length (csvParseLoop line fields current inQuotes)
    ≤ length fields + 1 + length (filter (λ ch, ch = comma) line).
Proof.
  induction n as [|n IH]; intros line fields current inQuotes Hlen.
  - destruct line; [|simpl in Hlen; lia]. simpl. rewrite length_app. simpl. lia.
  - destruct line as [|ch rest].
    { simpl. rewrite length_app. simpl. lia. }
    simpl in Hlen. rewrite filter_cons. cbn [csvParseLoop].
    destruct inQuotes.
    + destruct (decide (ch = quote)) as [->|Hq].
      * rewrite decide_False by done.
        destruct rest as [|next rest'].
        -- specialize (IH [] fields current false ltac:(simpl; lia)).
           simpl in *. lia.
        -- destruct (decide (next = quote)) as [->|Hn].
           ++ specialize (IH rest' fields (current ++ [quote]) true
                            ltac:(simpl in *; lia)).
              rewrite filter_cons. rewrite decide_False by done. lia.
           ++ specialize (IH (next :: rest') fields current false
                            ltac:(simpl in *; lia)). lia.
      * specialize (IH rest fields (current ++ [ch]) true ltac:(lia)).
        case_decide; simpl; lia.
    + destruct (decide (ch = quote)) as [->|Hq].
      * rewrite decide_False by done.
        specialize (IH rest fields current true ltac:(lia)). lia.
      * destruct (decide (ch = comma)) as [->|Hc].
        -- specialize (IH rest (fields ++ [current]) [] false ltac:(lia)).
           rewrite length_app in IH. simpl in *. lia.
        -- specialize (IH rest fields (current ++ [ch]) false ltac:(lia)). lia.
Qed.

Lemma parse_count_plain (line : list ascii) fields current :
  quote ∉ line →
  length (csvParseLoop line fields current false)
  = length fields + 1 + length (filter (λ ch, ch = comma) line).
Proof.
  revert fields current. induction line as [|ch rest IH]; intros fields current Hq.
  - simpl. rewrite length_app. simpl. lia.
  - apply not_elem_of_cons in Hq as [Hq1 Hq2].
    cbn [csvParseLoop]. rewrite filter_cons.
    rewrite decide_False by congruence.
    destruct (decide (ch = comma)) as [->|Hc].
    + rewrite IH by done. rewrite length_app. simpl. lia.
    + rewrite IH by done. lia.
Qed.

End CsvFacts.

Section CsvRoundTrip.
Import Ascii Csv CsvFacts.
Local Open Scope char_scope.

(** X19. Export then import.  For every nonempty list of cells, escaping
    each cell with [csvEscape], joining them with commas and parsing the
    line with [csvParseLine] gives the cells back, whatever characters
    they contain (commas, quotes and line breaks included). *)
Theorem csv_round_trip (cells : list (list ascii)) :
  cells ≠ [] →
  csvParseLine (joinComma (csvEscape <$> cells)) = cells.
Proof. intros Hne. unfold csvParseLine. by rewrite parse_row. Qed.

Lemma csv_round_trip_witness :
  csvParseLine
    (joinComma (csvEscape <$> [["a"; ","; "b"]; []; [quote; "x"; newline]]))
  = [["a"; ","; "b"]; []; [quote; "x"; newline]] .
Proof.
  apply (csv_round_trip [["a"; ","; "b"]; []; [quote; "x"; newline]] ).
  discriminate.
Defined.

(** X20. Whatever the line is (quotes balanced or not), [csvParseLine]
    returns at least one field and at most one more than the number of
    commas of the line; a line without quote characters gives exactly one
    field more than it has commas. *)
Theorem csv_field_count (line : list ascii) :
  1 ≤ length (csvParseLine line) ≤ 1 + length (filter (λ ch, ch = comma) line) ∧
  (quote ∉ line →
   length (csvParseLine line) = 1 + length (filter (λ ch, ch = comma) line)).
Proof.
  unfold csvParseLine.
  pose proof (parse_count (length line) line [] [] false (le_n _)) as [H1 H2].
  pose proof (parse_count_plain line [] []) as H3.
  simpl in *. split; [lia|]. intros Hq. rewrite H3 by done. lia.
Qed.

End CsvRoundTrip.

(** * videohub-bridge.js: the state sync *)

Module BridgeFacts.
Import Ascii Bridge.

Lemma elem_of_collectChanges {R} n (changed : nat → bool) (row : nat → R) x :
  x ∈ collectChanges n changed row ↔
  ∃ i, i < n ∧ changed i = true ∧ x = row i.
Proof.
  unfold collectChanges. rewrite list_elem_of_fmap. split.
  - intros (i & -> & Hi). apply list_elem_of_filter in Hi as [Hc Hi].
    apply elem_of_seq in Hi. exists i. split_and!; [lia|done..].
  - intros (i & Hi & Hc & ->). exists i. split; [done|].
    apply list_elem_of_filter. split; [done|]. apply elem_of_seq. lia.
Qed.

Lemma collectChanges_nil {R} n (changed : nat → bool) (row : nat → R) :
  collectChanges n changed row = [] ↔ ∀ i, i < n → changed i = false.
Proof.
  split.
  - intros Hnil i Hi. destruct (changed i) eqn:Hc; [|done].
    assert (row i ∈ collectChanges n changed row) as Hin
      by (apply elem_of_collectChanges; eauto).
    rewrite Hnil in Hin. by apply elem_of_nil in Hin.
  - intros Hall. unfold collectChanges. rewrite filter_none; [done|].
    apply Forall_forall. intros i Hi%elem_of_seq. rewrite Hall by lia. done.
Qed.

Lemma elem_of_whenChanged {R} (changes : list R) (msg : list R → list Broadcast) m :
  m ∈ whenChanged changes msg ↔ changes ≠ [] ∧ m ∈ msg changes.
Proof.
  unfold whenChanged. destruct changes.
  - split; [by intros ?%elem_of_nil|by intros [? _]].
  - split; [by intros ?|by intros [_ ?]].
Qed.

Lemma whenChanged_nil {R} (changes : list R) (msg : list R → list Broadcast) :
  (∀ c, c ≠ [] → msg c ≠ []) →
  whenChanged changes msg = [] ↔ changes = [].
Proof.
  intros Hmsg. unfold whenChanged. destruct changes; [done|].
  split; [|done]. intros H. by apply Hmsg in H.
Qed.

(** The steady case of the sync: a previous state, at least one client,
    the same sizes. *)
Lemma sync_steady b vsNow prev newState :
  previousState b = Some prev → clients b ≠ [] →
  vsInputs prev = vsInputs newState → vsOutputs prev = vsOutputs newState →
  onVirtualStateChanged b vsNow newState
  = let b' := mk (lockOwners b) (clients b) (Some newState) in
    (b',
     whenChanged
       (collectChanges (vsOutputs newState)
          (λ i, bool_decide (vsRouting prev !! i ≠ vsRouting newState !! i))
          (λ i, (i, shownInput (vsRouting newState) i)))
       (λ c, [RoutingChange c])
     ++ whenChanged
          (collectChanges (vsInputs newState)
             (λ i, bool_decide
                     (vsInputLabels prev !! i ≠ vsInputLabels newState !! i))
             (λ i, (i, shownInputLabel (vsInputLabels newState) i)))
          (λ c, [InputLabelChange c])
     ++ whenChanged
          (collectChanges (vsOutputs newState)
             (λ i, bool_decide
                     (vsOutputLabels prev !! i ≠ vsOutputLabels newState !! i))
             (λ i, (i, shownOutputLabel (vsOutputLabels newState) i)))
          (λ c, [OutputLabelChange c])
     ++ whenChanged
          (collectChanges (vsOutputs newState)
             (λ i, bool_decide
                     (vsOutputLocks prev !! i ≠ vsOutputLocks newState !! i))
             (λ i, i))
          (broadcastLockChange b' vsNow)).
Proof.
  intros Hprev Hcl Hin Hout. unfold onVirtualStateChanged. rewrite Hprev.
  rewrite decide_False by (by destruct (clients b)).
  rewrite decide_False by (intros [?|?]; done). done.
Qed.

End BridgeFacts.

Section BridgeSync.
Import Ascii Bridge BridgeFacts.

(** X21. The routing rows of a sync are complete and correct.  With a
    previous state, at least one client and unchanged sizes: every output
    whose displayed input (the entry of the routing table, or 0 when there
    is none) differs between the previous and the new state is in a
    broadcast routing change, and every row of a broadcast routing change
    is an output of the matrix with its new displayed input.  So a client
    that applies the rows to the previous table holds the new table. *)
Theorem sync_routing_rows b vsNow prev newState :
  previousState b = Some prev → clients b ≠ [] →
  vsInputs prev = vsInputs newState → vsOutputs prev = vsOutputs newState →
  (∀ i, i < vsOutputs newState →
     shownInput (vsRouting prev) i ≠ shownInput (vsRouting newState) i →
     ∃ c, RoutingChange c ∈ (onVirtualStateChanged b vsNow newState).2 ∧
          (i, shownInput (vsRouting newState) i) ∈ c) ∧
  (∀ c i v, RoutingChange c ∈ (onVirtualStateChanged b vsNow newState).2 →
     (i, v) ∈ c →
     i < vsOutputs newState ∧ v = shownInput (vsRouting newState) i).
Proof.
  intros Hprev Hcl Hin Hout.
  rewrite (sync_steady _ _ _ _ Hprev Hcl Hin Hout). cbv zeta. simpl.
  split.
  - intros i Hi Hdiff. eexists. split.
    + apply elem_of_app. left. apply elem_of_whenChanged. split.
      * intros Hnil. rewrite collectChanges_nil in Hnil.
        specialize (Hnil i Hi). apply bool_decide_eq_false in Hnil.
        apply Hdiff. unfold shownInput.
        destruct (decide (vsRouting prev !! i = vsRouting newState !! i)) as [->|];
          done.
      * apply list_elem_of_here.
    + apply elem_of_collectChanges. exists i. split_and!; [done| |done].
      apply bool_decide_eq_true. intros Heq. apply Hdiff.
      unfold shownInput. by rewrite Heq.
  - intros c i v Hc Hrow.
    rewrite !elem_of_app, !elem_of_whenChanged in Hc.
    destruct Hc as [[_ Hc]|[[_ Hc]|[[_ Hc]|[_ Hc]]]].
    + apply list_elem_of_singleton in Hc. simplify_eq.
      apply elem_of_collectChanges in Hrow as (j & Hj & _ & [= -> ->]). done.
    + by apply list_elem_of_singleton in Hc.
    + by apply list_elem_of_singleton in Hc.
    + unfold broadcastLockChange in Hc.
      apply list_elem_of_fmap in Hc as (? & [=] & _).
Qed.

Lemma sync_routing_rows_witness :
  0 < Bridge.vsOutputs ScenarioBridge.next ∧
  2%Z = shownInput (vsRouting ScenarioBridge.next) 0.
Proof.
  apply (proj2 (sync_routing_rows ScenarioBridge.bridge None
                  ScenarioBridge.seen ScenarioBridge.next
                  eq_refl ltac:(discriminate) eq_refl eq_refl)
           [(0, 2%Z)] 0 2%Z).
  - vm_compute. apply list_elem_of_here.
  - apply list_elem_of_here.
Defined.

(** X22. A sync is silent exactly when nothing changed.  With a previous
    state, at least one client and unchanged sizes, nothing is written to
    the clients if and only if the routing, both label tables and the lock
    table have the same entry in the previous and the new state for every
    row of the matrix. *)
Theorem sync_silent_iff b vsNow prev newState :
  previousState b = Some prev → clients b ≠ [] →
  vsInputs prev = vsInputs newState → vsOutputs prev = vsOutputs newState →
  (onVirtualStateChanged b vsNow newState).2 = [] ↔
  (∀ i, i < vsOutputs newState →
     vsRouting prev !! i = vsRouting newState !! i ∧
     vsOutputLabels prev !! i = vsOutputLabels newState !! i ∧
     vsOutputLocks prev !! i = vsOutputLocks newState !! i) ∧
  (∀ i, i < vsInputs newState →
     vsInputLabels prev !! i = vsInputLabels newState !! i).
Proof.
  intros Hprev Hcl Hin Hout.
  rewrite (sync_steady _ _ _ _ Hprev Hcl Hin Hout). cbv zeta. simpl.
  rewrite !app_nil.
  rewrite !whenChanged_nil; try (intros c Hc; done).
  - rewrite !collectChanges_nil.
    setoid_rewrite bool_decide_eq_false. split.
    + intros (H1 & H2 & H3 & H4). split.
      * intros i Hi. specialize (H1 i Hi). specialize (H3 i Hi).
        specialize (H4 i Hi). split_and!.
        -- by destruct (decide (vsRouting prev !! i = vsRouting newState !! i)).
        -- by destruct (decide (vsOutputLabels prev !! i
                                 = vsOutputLabels newState !! i)).
        -- by destruct (decide (vsOutputLocks prev !! i
                                 = vsOutputLocks newState !! i)).
      * intros i Hi. specialize (H2 i Hi).
        by destruct (decide (vsInputLabels prev !! i
                             = vsInputLabels newState !! i)).
    + intros [Ho Hi]. split_and!; intros i Hlt Hne; apply Hne;
        first [apply Ho|apply Hi]; done.
  - intros c Hc. unfold broadcastLockChange. simpl.
    destruct (clients b); [done|]. done.
Qed.

Lemma sync_silent_iff_witness :
  (onVirtualStateChanged ScenarioBridge.bridge None ScenarioBridge.seen).2 = [] ↔
  (∀ i, i < vsOutputs ScenarioBridge.seen →
     vsRouting ScenarioBridge.seen !! i = vsRouting ScenarioBridge.seen !! i ∧
     vsOutputLabels ScenarioBridge.seen !! i
       = vsOutputLabels ScenarioBridge.seen !! i ∧
     vsOutputLocks ScenarioBridge.seen !! i
       = vsOutputLocks ScenarioBridge.seen !! i) ∧
  (∀ i, i < vsInputs ScenarioBridge.seen →
     vsInputLabels ScenarioBridge.seen !! i
       = vsInputLabels ScenarioBridge.seen !! i).
Proof.
  exact (sync_silent_iff ScenarioBridge.bridge None
           ScenarioBridge.seen ScenarioBridge.seen
           eq_refl ltac:(discriminate) eq_refl eq_refl).
Defined.

End BridgeSync.

(** * main.js: recalling a salvo *)

Module SalvoFacts.
Import Salvo.

Lemma recallLoop_spec accept cfg envAt vr rs : ∀ k st errors applied st' errors' applied',
  reachable accept (mkEngine cfg st) →
  recallLoop envAt vr k rs st errors applied = (st', errors', applied') →
  reachable accept (mkEngine cfg st') ∧
  applied' + length errors' = applied + length errors + length rs ∧
  applied ≤ applied' ∧
  ∃ new, errors' = errors ++ new ∧ ∀ route err, (route, err) ∈ new → route ∈ rs.
Proof.
  induction rs as [|route rest IH]; intros k st errors applied st' errors' applied' Hr Hloop.
  - simpl in Hloop. simplify_eq. split_and!; [done|simpl; lia|lia|].
    exists []. split; [by rewrite app_nil_r|]. by intros ? ? ?%elem_of_nil.
  - simpl in Hloop.
    assert (reachable accept
              (mkEngine cfg
                 (stateAfter (executeVirtualRoute (envAt k) (output route)
                                (input route) vr 0 st)))) as Hr'.
    { eapply reachable_step; [exact Hr|].
      exact (step_executeVirtualRoute accept (envAt k) (output route)
               (input route) vr 0 (mkEngine cfg st)). }
    destruct (result (executeVirtualRoute (envAt k) (output route)
                        (input route) vr 0 st)) as [err pf| |idx reused];
      destruct (IH _ _ _ _ _ _ _ Hr' Hloop) as (H1 & H2 & H3 & new & -> & H4);
      (split_and!; [done|rewrite ?length_app in *; simpl in *; lia|lia|]).
    + exists ((route, err) :: new). split; [by rewrite <- app_assoc|].
      intros r e [[= -> ->]|Hin]%elem_of_cons; [apply list_elem_of_here|].
      apply list_elem_of_further. by eapply H4.
    + exists new. split; [done|]. intros r e Hin.
      apply list_elem_of_further. by eapply H4.
    + exists new. split; [done|]. intros r e Hin.
      apply list_elem_of_further. by eapply H4.
Qed.

End SalvoFacts.

Section RecallSalvo.
Import Salvo SalvoFacts.

(** X23. Recalling a salvo accounts for every route.  Whatever integers
    the stored routes hold as indices, negative ones included: when the
    handler finds the salvo, the number of routes applied plus the number
    of errors is the number of routes of that salvo, the reply says success
    exactly when all of them were applied, every error names a route of the
    salvo, and the tie-line state left behind is a state the engine reaches
    by a sequence of its operations (so what holds of every reachable state
    holds after a partly failed salvo as well; routes applied before a
    failure stay applied). *)
Theorem recall_salvo_accounting accept e stored salvoId envAt vr st' success
    errors applied :
  reachable accept e →
  recallSalvo (Some stored) salvoId envAt vr (state e)
    = (st', Recalled success errors applied) →
  ∃ salvo, salvo ∈ stored ∧ id salvo = salvoId ∧
    applied + length errors = length (routes salvo) ∧
    (success = true ↔ applied = length (routes salvo)) ∧
    (∀ route err, (route, err) ∈ errors → route ∈ routes salvo) ∧
    reachable accept (mkEngine (config e) st').
Proof.
  intros Hr Hrecall. unfold recallSalvo in Hrecall.
  destruct (list_find (λ s, id s = salvoId) stored) as [[i salvo]|] eqn:Hf;
    [|done].
  destruct (recallLoop envAt vr 0 (routes salvo) (state e) [] 0)
    as [[st1 errs] n] eqn:Hloop.
  simplify_eq.
  apply list_find_Some in Hf as (Hl & Hid & _).
  destruct e as [cfg st]. simpl in *.
  destruct (recallLoop_spec accept cfg envAt vr _ _ _ _ _ _ _ _ Hr Hloop)
    as (H1 & H2 & _ & new & -> & H4).
  simpl in *. exists salvo. split_and!; try done.
  - by eapply list_elem_of_lookup_2.
  - rewrite bool_decide_eq_true. lia.
Qed.

(** A salvo with a negative input index is recalled like any other: its
    route is handed to the engine, which makes it. *)
Example recall_negative_index :
  recallSalvo (Some [Salvo.mk 9 [mkRoute 7 (-1)]]) 9 (λ _, Scenario.env)
    Scenario.vr (state Scenario.e0)
  = (state Scenario.eNegative, Recalled true [] 1).
Proof. reflexivity. Qed.

Lemma recall_salvo_accounting_witness :
  ∃ salvo, salvo ∈ [Salvo.example] ∧ id salvo = 7 ∧
    2 + length [(mkRoute 99 0, InvalidVirtualIndex)] = length (routes salvo) ∧
    (false = true ↔ 2 = length (routes salvo)) ∧
    (∀ route err, (route, err) ∈ [(mkRoute 99 0, InvalidVirtualIndex)] →
                  route ∈ routes salvo) ∧
    reachable anyConfig (mkEngine (config Scenario.e0) (state Scenario.e3)).
Proof.
  exact (recall_salvo_accounting anyConfig Scenario.e0 [Salvo.example] 7
           (λ _, Scenario.env) Scenario.vr (state Scenario.e3) false
           [(mkRoute 99 0, InvalidVirtualIndex)] 2
           (reachable_new anyConfig Scenario.cfg I) eq_refl).
Defined.

End RecallSalvo.

(** * The order of the visible ports *)

Lemma filter_seq_ascending (P : nat → Prop) `{!∀ x, Decision (P x)} n :
  ∀ a i j p q,
    filter P (seq a n) !! i = Some p → filter P (seq a n) !! j = Some q →
    i < j → p < q.
Proof.
  induction n as [|n IH]; intros a i j p q Hi Hj Hlt; [done|].
  simpl in Hi, Hj. rewrite filter_cons in Hi, Hj.
  destruct (decide (P a)).
  - destruct j as [|j]; [lia|]. simpl in Hj.
    destruct i as [|i]; simpl in Hi.
    + simplify_eq. apply list_elem_of_lookup_2, list_elem_of_filter in Hj as [_ Hj].
      apply elem_of_seq in Hj. lia.
    + eapply IH; eauto with lia.
  - eapply IH; eauto.
Qed.

(** X24. Inside one router the virtual order is the physical order: two
    virtual inputs that resolve to ports of the same router are in the
    order of their ports, and likewise two virtual outputs. *)
Theorem resolve_preserves_order vr (v1 v2 : nat) R p1 p2 :
  (VirtualRouter.resolveInput vr (Z.of_nat v1)
     = Some (VirtualRouter.mkResolved R (Some p1)) →
   VirtualRouter.resolveInput vr (Z.of_nat v2)
     = Some (VirtualRouter.mkResolved R (Some p2)) →
   v1 < v2 → p1 < p2) ∧
  (VirtualRouter.resolveOutput vr (Z.of_nat v1)
     = Some (VirtualRouter.mkResolved R (Some p1)) →
   VirtualRouter.resolveOutput vr (Z.of_nat v2)
     = Some (VirtualRouter.mkResolved R (Some p2)) →
   v1 < v2 → p1 < p2).
Proof.
  split.
  - intros [(-> & H1)|(-> & ? & H1)]%VirtualTablesFacts.resolveInput_lists
           [([=] & H2)|([=] & ? & H2)]%VirtualTablesFacts.resolveInput_lists Hlt;
      eapply filter_seq_ascending; eauto with lia.
  - intros [(-> & H1)|(-> & ? & H1)]%VirtualTablesFacts.resolveOutput_lists
           [([=] & H2)|([=] & ? & H2)]%VirtualTablesFacts.resolveOutput_lists Hlt;
      eapply filter_seq_ascending; eauto with lia.
Qed.

(** * The reverse mapping *)

Lemma indexOf_absent (arr : list nat) x : x ∉ arr → VirtualRouter.indexOf arr x = (-1)%Z.
Proof.
  intros Hx. unfold VirtualRouter.indexOf.
  destruct (list_find (λ y, y = x) arr) as [[i y]|] eqn:Hf; [|done].
  apply list_find_Some in Hf as (Hi & -> & _).
  exfalso. apply Hx. by eapply list_elem_of_lookup_2.
Qed.

(** X25. The reverse mapping is exact.  For a visible physical input [p] of
    router [R], [physicalInputToVirtual(R, p)] is a virtual index that
    [resolveInput] takes back to [(R, p)]; for a port that is hidden (a
    tie-line port) or out of range it is -1.  The same holds for
    [physicalOutputToVirtual] and [resolveOutput]. *)
Theorem physical_to_virtual_exact vr R p :
  (VirtualRouter.isVisibleInput vr R p →
   VirtualRouter.resolveInput vr (VirtualRouter.physicalInputToVirtual vr R p)
   = Some (VirtualRouter.mkResolved R (Some p))) ∧
  (¬ VirtualRouter.isVisibleInput vr R p →
   VirtualRouter.physicalInputToVirtual vr R p = (-1)%Z) ∧
  (VirtualRouter.isVisibleOutput vr R p →
   VirtualRouter.resolveOutput vr (VirtualRouter.physicalOutputToVirtual vr R p)
   = Some (VirtualRouter.mkResolved R (Some p))) ∧
  (¬ VirtualRouter.isVisibleOutput vr R p →
   VirtualRouter.physicalOutputToVirtual vr R p = (-1)%Z).
Proof.
  assert (∀ (la lb : list nat),
            NoDup la → NoDup lb →
            ∀ R p, p ∈ (match R with A => la | B => lb end) →
            let v := match R with
                     | A => let idx := VirtualRouter.indexOf la p in
                            if decide (0 ≤ idx)%Z then idx else (-1)%Z
                     | B => let idx := VirtualRouter.indexOf lb p in
                            if decide (0 ≤ idx)%Z
                            then (Z.of_nat (length la) + idx)%Z else (-1)%Z
                     end in
            (R = A ∧ (0 ≤ v < Z.of_nat (length la))%Z
               ∧ la !! Z.to_nat v = Some p) ∨
            (R = B ∧ (Z.of_nat (length la) ≤ v < Z.of_nat (length la + length lb))%Z
               ∧ lb !! Z.to_nat (v - Z.of_nat (length la)) = Some p)) as Hfwd.
  { intros la lb Ha Hb R0 p0 Hin. cbv zeta.
    apply list_elem_of_lookup_1 in Hin as [i Hi].
    pose proof (lookup_lt_Some _ _ _ Hi) as Hlt.
    destruct R0.
    - rewrite (VirtualRouterFacts.indexOf_lookup _ _ _ Ha Hi).
      rewrite decide_True by lia. left. rewrite Nat2Z.id. split_and!; [done|lia..|done].
    - rewrite (VirtualRouterFacts.indexOf_lookup _ _ _ Hb Hi).
      rewrite decide_True by lia. right.
      replace (Z.to_nat (Z.of_nat (length la) + Z.of_nat i - Z.of_nat (length la)))
        with i by lia.
      split_and!; [done|lia..|done]. }
  assert (∀ (la lb : list nat) R p,
            p ∉ (match R with A => la | B => lb end) →
            match R with
            | A => let idx := VirtualRouter.indexOf la p in
                   if decide (0 ≤ idx)%Z then idx else (-1)%Z
            | B => let idx := VirtualRouter.indexOf lb p in
                   if decide (0 ≤ idx)%Z
                   then (Z.of_nat (length la) + idx)%Z else (-1)%Z
            end = (-1)%Z) as Hbwd.
  { intros la lb R0 p0 Hnot. destruct R0; cbv zeta;
      rewrite (indexOf_absent _ _ Hnot); by rewrite decide_False by lia. }
  split_and!.
  - intros Hvis. unfold VirtualRouter.resolveInput. cbv zeta.
    apply VirtualRouterFacts.resolve_shape.
    apply (Hfwd _ _ (VirtualRouterFacts.NoDup_visiblePorts _ _)
             (VirtualRouterFacts.NoDup_visiblePorts _ _) R p).
    destruct R; apply VirtualRouterFacts.elem_of_visiblePorts; exact Hvis.
  - intros Hnot. unfold VirtualRouter.physicalInputToVirtual.
    apply (Hbwd (VirtualRouter.visibleAInputs vr) (VirtualRouter.visibleBInputs vr)).
    destruct R; intros Hin%VirtualRouterFacts.elem_of_visiblePorts; by apply Hnot.
  - intros Hvis. unfold VirtualRouter.resolveOutput. cbv zeta.
    apply VirtualRouterFacts.resolve_shape.
    apply (Hfwd _ _ (VirtualRouterFacts.NoDup_visiblePorts _ _)
             (VirtualRouterFacts.NoDup_visiblePorts _ _) R p).
    destruct R; apply VirtualRouterFacts.elem_of_visiblePorts; exact Hvis.
  - intros Hnot. unfold VirtualRouter.physicalOutputToVirtual.
    apply (Hbwd (VirtualRouter.visibleAOutputs vr) (VirtualRouter.visibleBOutputs vr)).
    destruct R; intros Hin%VirtualRouterFacts.elem_of_visiblePorts; by apply Hnot.
Qed.

(** * The label tables *)

Section Labels.
Import Ascii VirtualRouter VirtualTables VirtualTablesFacts VirtualLabels.

Lemma labels_lists (la lb : list nat) (fa fb : nat → list ascii) (v : nat) l :
  loopAssign (length lb) (length la) (λ v, fb <$> lb !! v)
    (loopAssign (length la) 0 (λ v, fa <$> la !! v) ∅) !! v = Some l
  ↔ ∃ R p, l = (match R with A => fa | B => fb end) p ∧
           ((R = A ∧ la !! v = Some p) ∨
            (R = B ∧ length la ≤ v ∧ lb !! (v - length la) = Some p)).
Proof.
  rewrite twoLoops_lookup. split.
  - repeat case_decide; try done.
    + intros (p & Hp & ->)%fmap_Some. exists A, p. auto.
    + intros (p & Hp & ->)%fmap_Some. exists B, p. split; [done|].
      right. split_and!; [done|lia|done].
  - intros (R & p & -> & [(-> & H)|(-> & ? & H)]);
      pose proof (lookup_lt_Some _ _ _ H).
    + rewrite decide_True by lia. by rewrite H.
    + rewrite decide_False by lia. rewrite decide_True by lia. by rewrite H.
Qed.

Lemma orDefault_nonempty label default :
  default ≠ [] → Bridge.orDefault label default ≠ [].
Proof. intros Hd. unfold Bridge.orDefault. by destruct label as [[|]|]. Qed.

Lemma orDefault_id l default :
  l ≠ [] → Bridge.orDefault (Some l) default = l.
Proof. intros Hl. unfold Bridge.orDefault. by destruct l. Qed.

(** X26. The label tables cover the virtual matrix and never hold an empty
    label.  [getInputLabels] has the entry [v ↦ l] exactly when
    [resolveInput v] gives a port [(R, p)] and [l] is the label of [p] on
    router [R], or Input [p + 1] (the physical port number) when that label
    is absent or empty.  Every entry is nonempty, so the bridge, which puts
    its own default Input [v + 1] in place of an absent or empty entry,
    shows the entry itself.  The same holds for [getOutputLabels]. *)
Theorem label_tables vr labelsA labelsB (v : nat) (l : list ascii) :
  (getInputLabels vr labelsA labelsB !! v = Some l
     ↔ ∃ R p, resolveInput vr (Z.of_nat v) = Some (mkResolved R (Some p)) ∧
              l = inputLabelOf (inputLabels (labelsOf labelsA labelsB R)) p) ∧
  (getInputLabels vr labelsA labelsB !! v = Some l →
     l ≠ [] ∧
     Bridge.shownInputLabel (getInputLabels vr labelsA labelsB) v = l) ∧
  (getOutputLabels vr labelsA labelsB !! v = Some l
     ↔ ∃ R p, resolveOutput vr (Z.of_nat v) = Some (mkResolved R (Some p)) ∧
              l = outputLabelOf (outputLabels (labelsOf labelsA labelsB R)) p) ∧
  (getOutputLabels vr labelsA labelsB !! v = Some l →
     l ≠ [] ∧
     Bridge.shownOutputLabel (getOutputLabels vr labelsA labelsB) v = l).
Proof.
  assert (getInputLabels vr labelsA labelsB !! v = Some l
          ↔ ∃ R p, resolveInput vr (Z.of_nat v) = Some (mkResolved R (Some p)) ∧
                   l = inputLabelOf (inputLabels (labelsOf labelsA labelsB R)) p)
    as Hin.
  { unfold getInputLabels. cbv zeta. rewrite labels_lists.
    setoid_rewrite resolveInput_lists.
    split; intros (R & p & H1 & H2); exists R, p; destruct R; done. }
  assert (getOutputLabels vr labelsA labelsB !! v = Some l
          ↔ ∃ R p, resolveOutput vr (Z.of_nat v) = Some (mkResolved R (Some p)) ∧
                   l = outputLabelOf (outputLabels (labelsOf labelsA labelsB R)) p)
    as Hout.
  { unfold getOutputLabels. cbv zeta. rewrite labels_lists.
    setoid_rewrite resolveOutput_lists.
    split; intros (R & p & H1 & H2); exists R, p; destruct R; done. }
  split_and!; [exact Hin| |exact Hout|].
  - intros Hl. assert (l ≠ []) as Hne.
    { apply Hin in Hl as (R & p & _ & ->). by apply orDefault_nonempty. }
    split; [done|]. unfold Bridge.shownInputLabel. rewrite Hl.
    by apply orDefault_id.
  - intros Hl. assert (l ≠ []) as Hne.
    { apply Hout in Hl as (R & p & _ & ->). by apply orDefault_nonempty. }
    split; [done|]. unfold Bridge.shownOutputLabel. rewrite Hl.
    by apply orDefault_id.
Qed.

End Labels.
